(** * yanshuf: the template-filling Excel exporter and the inspection store

    A shallow embedding of two source files of the repository:

    - the exporter ([hasSolidFill], [bakeTableStripes], [setCell],
      [buildCodeToRowMap], the four sheet fillers, [loadTemplate] and
      [downloadWorkbook]), and
    - the inspection store ([createDcMeasurement], [generateDcMeasurements],
      [getOrderedDcTree], [getDescendantIds], [nextChildLabel],
      [nextTopLevelLabel], [generateInverterSerials] and the mutation
      methods returned by [createInspectionStore]).

    JavaScript numbers that the code uses as row numbers, column numbers,
    counters and inverter indices are integers ([Z] or [nat]).  Measurement
    values are only tested against [undefined] and copied into cells, never
    computed with, so they are carried as integers as well. *)

From Stdlib Require Import ZArith Lia Ascii.
From stdpp Require Import base option list strings gmap pretty sorting.

Set Warnings "-clear-no-such-hyp".

(** ** JavaScript strings, as far as the two files use them

    A string is held as the bytes of its UTF-8 encoding. *)

Module Js.

(** JavaScript truthiness of a string: [if (s)]. *)
Definition truthy (s : string) : bool := negb (bool_decide (s = "")).

Fixpoint stripPrefix (p s : string) : option string :=
  match p, s with
  | EmptyString, _ => Some s
  | String a p', String b s' => if decide (a = b) then stripPrefix p' s' else None
  | String _ _, EmptyString => None
  end.

(** [s.startsWith(p)] *)
Definition startsWith (s p : string) : bool := bool_decide (is_Some (stripPrefix p s)).

End Js.

(** ** The inspection data model

    The store and the exporter import their types from the inspection model
    of the repository; the records below list the fields that the two files
    read and write, with the types they are used at. *)

Module Model.

(** Modelled from the spec: the type [InspectionMeta] of the inspection model
    (site name, date, inspector, signature text). *)
Record InspectionMeta := {
  siteName : string;
  inspectionDate : string;
  inspectorName : string;
  signatureText : string
}.

(** Modelled from the spec: the type [InverterConfig] of the inspection model
    (1-based index, label, string count). *)
Record InverterConfig := {
  cfg_index : Z;
  cfg_label : string;
  cfg_stringCount : nat
}.

(** Modelled from the spec: the type [ChecklistItem] of the inspection model
    (section code, description, status, notes); [status] is the empty string
    while unset. *)
Record ChecklistItem := {
  sectionCode : string;
  description : string;
  item_status : string;
  item_notes : string
}.

(** Modelled from the spec: the type [DcStringMeasurement] of the inspection
    model.  [parentId] is [null] ([None]) for a top-level string; the six
    numeric fields are [undefined] ([None]) until entered. *)
Record DcStringMeasurement := {
  dc_id : string;
  dc_parentId : option string;
  dc_inverterIndex : Z;
  dc_stringLabel : string;
  panelCount : option Z;
  openCircuitVoltage : option Z;
  operatingCurrent : option Z;
  stringRiso : option Z;
  feedRisoNegative : option Z;
  feedRisoPositive : option Z
}.

(** A value of type [string | number]. *)
Inductive Scalar :=
| SStr (s : string)
| SNum (n : Z).

(** Modelled from the spec: the type [AcMeasurement] of the inspection model
    (item code, result, notes). *)
Record AcMeasurement := {
  itemCode : string;
  ac_result : option Scalar;
  ac_notes : string
}.

(** Modelled from the spec: the type [InverterSerial] of the inspection model
    (inverter index, serial number). *)
Record InverterSerial := {
  ser_inverterIndex : Z;
  serialNumber : string
}.

(** Modelled from the spec: the type [Defect] of the inspection model
    (component, fault, location, status). *)
Record Defect := {
  component : string;
  fault : string;
  location : string;
  defect_status : string
}.

(** Modelled from the spec: the type [Inspection] of the inspection model, the
    root aggregate. *)
Record Inspection := {
  meta : InspectionMeta;
  inverterConfigs : list InverterConfig;
  checklist : list ChecklistItem;
  dcMeasurements : list DcStringMeasurement;
  acMeasurements : list AcMeasurement;
  inverterSerials : list InverterSerial;
  defects : list Defect
}.

#[global] Instance Scalar_eq_dec : EqDecision Scalar.
Proof. solve_decision. Defined.
#[global] Instance DcStringMeasurement_eq_dec : EqDecision DcStringMeasurement.
Proof. solve_decision. Defined.
#[global] Instance InverterSerial_eq_dec : EqDecision InverterSerial.
Proof. solve_decision. Defined.
#[global] Instance ChecklistItem_eq_dec : EqDecision ChecklistItem.
Proof. solve_decision. Defined.

End Model.

(** ** The measurement tree walk of the store *)

Module Tree.
Import Model.

Record TreeEntry := { measurement : DcStringMeasurement; depth : nat }.

(** [childrenOf]: the measurements of the inverter whose parent id is
    [parentId], in list order. *)
Definition childrenOf (forInverter : list DcStringMeasurement) (parentId : option string)
    : list DcStringMeasurement :=
  filter (λ m, dc_parentId m = parentId) forInverter.

(** The recursive [walk] with the array [result] passed through.  The
    recursion of the source is not structural: [fuel] bounds its depth and
    [None] stands for a walk that does not return. *)
Fixpoint walk (fuel : nat) (forInverter : list DcStringMeasurement)
    (parentId : option string) (depth : nat) (result : list TreeEntry)
    : option (list TreeEntry) :=
  match fuel with
  | O => None
  | S fuel' =>
      foldl (λ acc m,
               result ← acc;
               walk fuel' forInverter (Some (dc_id m)) (S depth)
                    (result ++ [{| measurement := m; depth := depth |}]))
            (Some result) (childrenOf forInverter parentId)
  end.

(** Return DC measurements for an inverter in depth-first tree order, each
    with its depth level. *)
Definition getOrderedDcTreeFuel (fuel : nat) (measurements : list DcStringMeasurement)
    (inverterIndex : Z) : option (list TreeEntry) :=
  let forInverter := filter (λ m, dc_inverterIndex m = inverterIndex) measurements in
  walk fuel forInverter None 0 [].

(** A walk nested deeper than the number of measurements of the inverter has
    a measurement twice on its path and recurses for ever from there, so this
    much fuel decides whether the source returns
    ([getOrderedDcTree_adequate] below). *)
Definition getOrderedDcTree (measurements : list DcStringMeasurement) (inverterIndex : Z)
    : option (list TreeEntry) :=
  getOrderedDcTreeFuel (S (length measurements)) measurements inverterIndex.

(** *** Specification vocabulary for the walk *)

(** A chain of measurements below [parentId]: a child, a child of that
    child, and so on; the path of nested calls of the walk. *)
Fixpoint chainBelow (l : list DcStringMeasurement) (parentId : option string)
    (ms : list DcStringMeasurement) : Prop :=
  match ms with
  | [] => True
  | m :: ms' => m ∈ childrenOf l parentId ∧ chainBelow l (Some (dc_id m)) ms'
  end.

(** [a] occurs before [b] in [l]. *)
Definition before {A} (a b : A) (l : list A) : Prop :=
  ∃ l1 l2 l3, l = l1 ++ a :: l2 ++ b :: l3.

(** [m] has exactly [k] measurements above it along parent links, all of
    them in [l], the topmost without a parent. *)
Inductive depthIs (l : list DcStringMeasurement) : DcStringMeasurement → nat → Prop :=
| depth_root m : dc_parentId m = None → depthIs l m 0
| depth_child m p k :
    p ∈ l → dc_parentId m = Some (dc_id p) → depthIs l p k → depthIs l m (S k).

(** [m] is a descendant of [a]: a child, or a child of a descendant. *)
Inductive descendantOf (l : list DcStringMeasurement) (a : DcStringMeasurement)
    : DcStringMeasurement → Prop :=
| desc_child m : m ∈ l → dc_parentId m = Some (dc_id a) → descendantOf l a m
| desc_step c m :
    descendantOf l a c → m ∈ l → dc_parentId m = Some (dc_id c) → descendantOf l a m.

(** The measurements of an inverter form a forest: identifiers are unique
    and the parent links of every measurement lead, within the inverter, to
    a measurement without a parent. *)
Definition forestOf (measurements : list DcStringMeasurement) (inverterIndex : Z) : Prop :=
  let forInverter := filter (λ m, dc_inverterIndex m = inverterIndex) measurements in
  NoDup (dc_id <$> forInverter) ∧ ∀ m, m ∈ forInverter → ∃ k, depthIs forInverter m k.

(** Depth-first pre-order of the forest below the siblings [cs]: each
    sibling in turn, followed by the pre-order of its children. *)
Inductive Preorder (l : list DcStringMeasurement)
    : list DcStringMeasurement → list DcStringMeasurement → Prop :=
| pre_nil : Preorder l [] []
| pre_cons m cs sub rest :
    Preorder l (childrenOf l (Some (dc_id m))) sub →
    Preorder l cs rest →
    Preorder l (m :: cs) (m :: sub ++ rest).

End Tree.

(** ** The spreadsheet access layer (ExcelJS), as far as the exporter uses it *)

Module Excel.

(** A style sub-object whose content the exporter only copies
    (font, alignment, border, protection): attribute name to rendered value.
    The empty object [{}] is [[]]. *)
Definition Bag : Type := list (string * string).

Record Color := { argb : string }.

Inductive Fill :=
| FillPattern (pattern : string) (fgColor bgColor : option Color)
| FillGradient (gradient : Bag).

Record Style := {
  numFmt : option string;
  font : option Bag;
  alignment : option Bag;
  protection : option Bag;
  border : option Bag;
  fill : option Fill
}.

(** A cell value.  [VOther] stands for every value kind the exporter never
    writes and only reads through [String(...)] (booleans, dates, rich text,
    formula results, non-integer numbers): it carries that rendering. *)
Inductive CellValue :=
| VNull
| VStr (s : string)
| VNum (n : Z)
| VOther (rendering : string).

Record Cell := { cell_value : CellValue; cell_style : Style }.

#[global] Instance CellValue_eq_dec : EqDecision CellValue.
Proof. solve_decision. Defined.

(** The getters [cell.font], [cell.alignment], [cell.border], [cell.fill]
    read through [cell.style]. *)
Definition cell_font (c : Cell) : option Bag := font (cell_style c).
Definition cell_alignment (c : Cell) : option Bag := alignment (cell_style c).
Definition cell_border (c : Cell) : option Bag := border (cell_style c).
Definition cell_fill (c : Cell) : option Fill := fill (cell_style c).

(** A table object; its autofilter is part of the table definition. *)
Record Table := { table_name : string; table_ref : string; table_autoFilterRef : option string }.

(** A worksheet: the cells that exist, keyed by (row, column), the style a
    cell created on first access inherits from its row and column, and the
    table objects.  Rows and columns are 1-based in ExcelJS; every call in
    the exporter uses rows and columns of at least 1.

    The library may let several cells refer to one style object.  The
    exporter never mutates a style object: it reads styles and assigns a
    whole new object to [cell.style], which redirects the reference of that
    cell only.  Each cell therefore carries its style by value here. *)
Record Worksheet := {
  ws_name : string;
  ws_cells : gmap (Z * Z) Cell;
  ws_blank : Z → Z → Style;
  ws_tables : list Table
}.

(** [ws.getCell(r, c)]: the cell at (r, c); a cell that does not exist yet is
    created with a null value and the inherited style, which is what a later
    access returns as well. *)
Definition getCell (ws : Worksheet) (r c : Z) : Cell :=
  default {| cell_value := VNull; cell_style := ws_blank ws r c |} (ws_cells ws !! (r, c)).

Definition putCell (ws : Worksheet) (r c : Z) (cell : Cell) : Worksheet :=
  {| ws_name := ws_name ws;
     ws_cells := <[(r, c) := cell]> (ws_cells ws);
     ws_blank := ws_blank ws;
     ws_tables := ws_tables ws |}.

(** [ws.getCell(r, c).value = v] *)
Definition setValue (ws : Worksheet) (r c : Z) (v : CellValue) : Worksheet :=
  putCell ws r c {| cell_value := v; cell_style := cell_style (getCell ws r c) |}.

(** [ws.getCell(r, c).style = s]: the cell gets a style object of its own. *)
Definition setStyle (ws : Worksheet) (r c : Z) (s : Style) : Worksheet :=
  putCell ws r c {| cell_value := cell_value (getCell ws r c); cell_style := s |}.

(** [ws.getTables()] and [ws.removeTable(name)] *)
Definition getTables (ws : Worksheet) : list Table := ws_tables ws.

Definition removeTable (ws : Worksheet) (name : string) : Worksheet :=
  {| ws_name := ws_name ws;
     ws_cells := ws_cells ws;
     ws_blank := ws_blank ws;
     ws_tables := filter (λ t, table_name t ≠ name) (ws_tables ws) |}.

(** A workbook: its worksheets in order.  [wb.getWorksheet(name)] is the
    first worksheet of that name; the fillers mutate the worksheet object in
    place, which [updateWorksheet] writes back. *)
Record Workbook := { worksheets : list Worksheet }.

Definition getWorksheet (wb : Workbook) (name : string) : option Worksheet :=
  head (filter (λ ws, ws_name ws = name) (worksheets wb)).

Fixpoint replaceFirst (name : string) (ws' : Worksheet) (l : list Worksheet) : list Worksheet :=
  match l with
  | [] => []
  | ws :: l' => if decide (ws_name ws = name) then ws' :: l' else ws :: replaceFirst name ws' l'
  end.

Definition updateWorksheet (wb : Workbook) (name : string) (ws' : Worksheet) : Workbook :=
  {| worksheets := replaceFirst name ws' (worksheets wb) |}.

(** [row.hasValues]: some cell of the row has a value other than null. *)
Definition rowHasValues (ws : Worksheet) (r : Z) : bool :=
  existsb (λ kc : Z * Z * Cell,
             bool_decide (kc.1.1 = r) && negb (bool_decide (cell_value kc.2 = VNull)))
          (map_to_list (ws_cells ws)).

Definition lastRow (ws : Worksheet) : Z :=
  foldr (λ kc : Z * Z * Cell, Z.max kc.1.1) 0%Z (map_to_list (ws_cells ws)).

(** [ws.eachRow(callback)] calls back, in ascending row order, for the rows
    that have values; these are the row numbers it passes. *)
Definition eachRowNumbers (ws : Worksheet) : list Z :=
  filter (λ r, rowHasValues ws r = true) (seqZ 1 (lastRow ws)).

End Excel.

(** ** The exporter *)

Module Exporter.
Import Js Model Excel.

(** Check whether a cell already has an explicit solid fill. *)
Definition hasSolidFill (cell : Cell) : bool :=
  match cell_fill cell with
  | Some (FillPattern pattern _ _) => bool_decide (pattern = "solid")
  | _ => false
  end.

(** The rows visited by [for (let r = startRow; r <= endRow; r++)]. *)
Definition rowRange (startRow endRow : Z) : list Z :=
  seqZ startRow (endRow - startRow + 1).

(** Phase 1 of [bakeTableStripes]: the set [rowHasFill]. *)
Definition scanFilledRows (ws : Worksheet) (startRow endRow : Z) : gset Z :=
  foldl (λ rowHasFill r,
           if hasSolidFill (getCell ws r 1) then {[r]} ∪ rowHasFill else rowHasFill)
        ∅ (rowRange startRow endRow).

(** [stripeIndex % 2 === 0 ? 'FFD9E2F3' : 'FFB4C6E7'] *)
Definition stripeColor (stripeIndex : Z) : string :=
  if (Z.rem stripeIndex 2 =? 0)%Z then "FFD9E2F3" else "FFB4C6E7".

(** The style object assigned to a striped cell. *)
Definition stripeStyle (cell : Cell) (color : string) : Style :=
  {| numFmt := None;
     font := Some (default [] (cell_font cell));
     alignment := Some (default [] (cell_alignment cell));
     protection := None;
     border := Some (default [] (cell_border cell));
     fill := Some (FillPattern "solid" (Some {| argb := color |}) (Some {| argb := color |})) |}.

(** The inner loop [for (let c = 1; c <= colCount; c++)]. *)
Definition paintRow (ws : Worksheet) (r colCount : Z) (color : string) : Worksheet :=
  foldl (λ ws c, setStyle ws r c (stripeStyle (getCell ws r c) color)) ws (seqZ 1 colCount).

(** One iteration of the phase 2 loop, on the pair (worksheet, stripeIndex). *)
Definition stripeStep (rowHasFill : gset Z) (colCount : Z)
    (st : Worksheet * Z) (r : Z) : Worksheet * Z :=
  (if bool_decide (r ∈ rowHasFill) then st.1
   else paintRow st.1 r colCount (stripeColor st.2),
   st.2 + 1)%Z.

Definition bakeTableStripes (ws : Worksheet) (startRow endRow colCount : Z) : Worksheet :=
  let rowHasFill := scanFilledRows ws startRow endRow in
  (foldl (stripeStep rowHasFill colCount) (ws, 0%Z) (rowRange startRow endRow)).1.

(** *** Writing values *)

Definition scalarValue (v : Scalar) : CellValue :=
  match v with SStr s => VStr s | SNum n => VNum n end.

(** Set cell value, preserving the existing style:
    [if (value === undefined || value === '') return;] *)
Definition setCell (ws : Worksheet) (row col : Z) (value : option Scalar) : Worksheet :=
  match value with
  | None => ws
  | Some (SStr EmptyString) => ws
  | Some v => setValue ws row col (scalarValue v)
  end.

(** *** The addressing scans *)

(** [String(value ?? '')] *)
Definition jsString (v : CellValue) : string :=
  match v with
  | VNull => ""
  | VStr s => s
  | VNum n => pretty n
  | VOther rendering => rendering
  end.

(** White space and line terminators that [trim] strips, in the UTF-8
    encoding in which strings are held here. *)
Definition whiteSpace : list string :=
  (λ bytes, String.string_of_list_ascii (Ascii.ascii_of_nat <$> bytes)) <$>
  [ [9]; [10]; [11]; [12]; [13]; [32]; [194; 160]; [225; 154; 128];
    [226; 128; 128]; [226; 128; 129]; [226; 128; 130]; [226; 128; 131];
    [226; 128; 132]; [226; 128; 133]; [226; 128; 134]; [226; 128; 135];
    [226; 128; 136]; [226; 128; 137]; [226; 128; 138]; [226; 128; 168];
    [226; 128; 169]; [226; 128; 175]; [226; 129; 159]; [227; 128; 128];
    [239; 187; 191] ].

Fixpoint trimStartFuel (fuel : nat) (table : list string) (s : string) : string :=
  match fuel with
  | O => s
  | S fuel' =>
      match list_find (λ w, is_Some (stripPrefix w s)) table with
      | Some (_, w) => trimStartFuel fuel' table (default s (stripPrefix w s))
      | None => s
      end
  end.

Definition trimStart (table : list string) (s : string) : string :=
  trimStartFuel (String.length s) table s.

Definition trim (s : string) : string :=
  String.rev (trimStart (String.rev <$> whiteSpace) (String.rev (trimStart whiteSpace s))).

Definition isDigit (a : Ascii.ascii) : bool :=
  (48 <=? Ascii.nat_of_ascii a)%nat && (Ascii.nat_of_ascii a <=? 57)%nat.

Fixpoint dropDigits (s : string) : string :=
  match s with
  | String a s' => if isDigit a then dropDigits s' else s
  | EmptyString => EmptyString
  end.

Definition startsWithDigit (s : string) : bool :=
  match s with String a _ => isDigit a | EmptyString => false end.

(** [/^\d+\.\d+$/.test(val)] *)
Definition isSectionCode (val : string) : bool :=
  startsWithDigit val &&
  match dropDigits val with
  | String "."%char rest => startsWithDigit rest && bool_decide (dropDigits rest = "")
  | _ => false
  end.

(** Build a map of sectionCode → row number by scanning column A. *)
Definition buildCodeToRowMap (ws : Worksheet) : gmap string Z :=
  foldl (λ (map : gmap string Z) rowNumber,
           let val := trim (jsString (cell_value (getCell ws rowNumber 1))) in
           if isSectionCode val then <[val := rowNumber]> map else map)
        ∅ (eachRowNumbers ws).

(** *** Fill checklist sheet *)

Definition fillChecklistHeader (ws : Worksheet) (inspection : Inspection) : Worksheet :=
  let ws := setCell ws 2 2 (Some (SStr (siteName (meta inspection)))) in
  let ws := setCell ws 2 4 (Some (SStr (inspectionDate (meta inspection)))) in
  let ws := setCell ws 3 2 (Some (SStr (inspectorName (meta inspection)))) in
  if truthy (signatureText (meta inspection))
  then setCell ws 3 4 (Some (SStr (signatureText (meta inspection))))
  else ws.

Definition fillChecklistItem (codeToRow : gmap string Z) (ws : Worksheet) (item : ChecklistItem)
    : Worksheet :=
  match codeToRow !! sectionCode item with
  | Some row =>
      let ws := if truthy (item_status item)
                then setCell ws row 3 (Some (SStr (item_status item))) else ws in
      if truthy (item_notes item)
      then setCell ws row 4 (Some (SStr (item_notes item))) else ws
  | None => ws
  end.

Definition fillChecklistSheet (ws : Worksheet) (inspection : Inspection) : Worksheet :=
  let ws := fillChecklistHeader ws inspection in
  let codeToRow := buildCodeToRowMap ws in
  foldl (fillChecklistItem codeToRow) ws (checklist inspection).

(** *** Fill DC sheet *)

Definition writeIfDefined (ws : Worksheet) (row col : Z) (value : option Z) : Worksheet :=
  match value with
  | Some n => setCell ws row col (Some (SNum n))
  | None => ws
  end.

Definition fillDcRow (st : Worksheet * Z) (entry : Tree.TreeEntry) : Worksheet * Z :=
  let '(ws, currentRow) := st in
  let m := Tree.measurement entry in
  let ws := setCell ws currentRow 2 (Some (SStr (dc_stringLabel m))) in
  let ws := writeIfDefined ws currentRow 3 (panelCount m) in
  let ws := writeIfDefined ws currentRow 4 (openCircuitVoltage m) in
  let ws := writeIfDefined ws currentRow 5 (operatingCurrent m) in
  let ws := writeIfDefined ws currentRow 6 (stringRiso m) in
  let ws := writeIfDefined ws currentRow 7 (feedRisoNegative m) in
  let ws := writeIfDefined ws currentRow 8 (feedRisoPositive m) in
  (ws, currentRow + 1)%Z.

(** One iteration of the loop over the inverter configurations: the header
    row, then one row per measurement of the tree. *)
Definition fillDcInverter (inspection : Inspection) (st : Worksheet * Z)
    (config : InverterConfig) : option (Worksheet * Z) :=
  let ws := setCell st.1 st.2 1 (Some (SNum (cfg_index config))) in
  let currentRow := (st.2 + 1)%Z in
  tree ← Tree.getOrderedDcTree (dcMeasurements inspection) (cfg_index config);
  Some (foldl fillDcRow (ws, currentRow) tree).

(** Returns the worksheet and [currentRow - 1]; [None] when the tree walk of
    some inverter does not return. *)
Definition fillDcSheet (ws : Worksheet) (inspection : Inspection) : option (Worksheet * Z) :=
  st ← foldl (λ acc config, st ← acc; fillDcInverter inspection st config)
             (Some (ws, 2%Z)) (inverterConfigs inspection);
  Some (st.1, (st.2 - 1)%Z).

(** *** Fill AC sheet *)

Definition fillAcItem (codeToRow : gmap string Z) (ws : Worksheet) (m : AcMeasurement)
    : Worksheet :=
  match codeToRow !! itemCode m with
  | Some row =>
      let ws := match ac_result m with
                | Some v => if bool_decide (v = SStr "") then ws else setCell ws row 3 (Some v)
                | None => ws
                end in
      if truthy (ac_notes m) then setCell ws row 4 (Some (SStr (ac_notes m))) else ws
  | None => ws
  end.

(** [bVal.startsWith('מהפך')] *)
Definition SERIAL_MARKER : string := "מהפך".

(** The array [serialRows]. *)
Definition serialRows (ws : Worksheet) : list Z :=
  foldl (λ rows rowNumber,
           let bVal := jsString (cell_value (getCell ws rowNumber 2)) in
           if startsWith bVal SERIAL_MARKER then rows ++ [rowNumber] else rows)
        [] (eachRowNumbers ws).

Definition fillSerial (rows : list Z) (ws : Worksheet) (serial : InverterSerial) : Worksheet :=
  let idx := (ser_inverterIndex serial - 1)%Z in
  if bool_decide (0 ≤ idx)%Z && bool_decide (idx < Z.of_nat (length rows))%Z
     && truthy (serialNumber serial)
  then match rows !! Z.to_nat idx with
       | Some row => setCell ws row 3 (Some (SStr (serialNumber serial)))
       | None => ws
       end
  else ws.

Definition fillAcSheet (ws : Worksheet) (inspection : Inspection) : Worksheet :=
  let codeToRow := buildCodeToRowMap ws in
  let ws := foldl (fillAcItem codeToRow) ws (acMeasurements inspection) in
  let rows := serialRows ws in
  foldl (fillSerial rows) ws (inverterSerials inspection).

(** *** Fill defects sheet *)

Definition fillDefectRow (ws : Worksheet) (i : nat) (d : Defect) : Worksheet :=
  let row := (Z.of_nat i + 2)%Z in
  let ws := setCell ws row 1 (Some (SStr (component d))) in
  let ws := setCell ws row 2 (Some (SStr (fault d))) in
  let ws := setCell ws row 3 (Some (SStr (location d))) in
  setCell ws row 4 (Some (SStr (defect_status d))).

Definition fillDefectsSheet (ws : Worksheet) (defects : list Defect) : Worksheet :=
  foldl (λ ws id, fillDefectRow ws id.1 id.2) ws (imap (λ i d, (i, d)) defects).

(** *** The export, with its environment

    The export talks to the browser and to the serialization layer: the
    fetch of the template, the parse of its bytes, the serialization of the
    filled workbook and the synthesized download.  [World] holds what the
    environment answers; the calls made are recorded, in order, as events. *)

Definition Bytes : Type := string.

Record Response := { resp_ok : bool; resp_status : Z; resp_arrayBuffer : Bytes }.

Record World := {
  fetch : string → string + Response;
  xlsx_load : Bytes → string + Workbook;
  xlsx_writeBuffer : Workbook → string + Bytes;
  createObjectURL : Bytes → string
}.

Inductive Event :=
| EFetch (url : string)
| ELoad (buffer : Bytes)
| EWriteBuffer (wb : Workbook)
| ECreateObjectURL (blob : Bytes) (mime : string)
| EAnchorClick (href download : string)
| ERevokeObjectURL (url : string).

(** A computation that may throw: it extends the event log and ends with an
    exception message or a value. *)
Definition IO (A : Type) : Type := World → list Event → list Event * (string + A).

Definition io_ret {A} (a : A) : IO A := λ _ log, (log, inr a).
Definition io_throw {A} (msg : string) : IO A := λ _ log, (log, inl msg).
Definition io_bind {A B} (m : IO A) (k : A → IO B) : IO B :=
  λ w log, match m w log with
           | (log', inl msg) => (log', inl msg)
           | (log', inr a) => k a w log'
           end.
(** A call to the environment: recorded, then answered. *)
Definition io_call {A} (ev : Event) (answer : World → string + A) : IO A :=
  λ w log, (log ++ [ev], answer w).

(** A step that throws or yields without calling the environment. *)
Definition io_lift {A} (r : string + A) : IO A := λ _ log, (log, r).

#[global] Instance IO_ret : MRet IO := @io_ret.
#[global] Instance IO_bind : MBind IO := λ A B k m, io_bind m k.

Definition SHEET_CHECKLIST : string := "פרוטוקול בדיקה תקופתית".
Definition SHEET_DC : string := " ערכי DC".
Definition SHEET_AC : string := "ערכי AC".
Definition SHEET_DEFECTS : string := "ריכוז ליקויים".

Definition loadTemplate : IO Workbook :=
  response ← io_call (EFetch "/template.xlsx") (λ w, fetch w "/template.xlsx");
  if negb (resp_ok response)
  then io_throw ("Failed to load template: " +:+ pretty (resp_status response))
  else
    let buffer := resp_arrayBuffer response in
    wb ← io_call (ELoad buffer) (λ w, xlsx_load w buffer);
    io_ret wb.

(** The loop that strips the tables of one worksheet: for each entry of
    [ws.getTables()], [if (table?.name) ws.removeTable(table.name)]. *)
Definition stripTables (ws : Worksheet) : Worksheet :=
  foldl (λ ws table, if truthy (table_name table) then removeTable ws (table_name table) else ws)
        ws (getTables ws).

Definition XLSX_MIME : string :=
  "application/vnd.openxmlformats-officedocument.spreadsheetml.sheet".

Definition downloadName (inspection : Inspection) : string :=
  "בדיקה_" +:+
  (if truthy (siteName (meta inspection)) then siteName (meta inspection) else "ללא_שם")
  +:+ "_" +:+ inspectionDate (meta inspection) +:+ ".xlsx".

(** The four fill-and-bake steps and the table strip, between the parse and
    the serialization.  [inl] is the exception of a tree walk that exhausts
    the call stack. *)
Definition fillWorkbook (wb : Workbook) (inspection : Inspection)
    (allDefects : option (list Defect)) : string + Workbook :=
  let wb := match getWorksheet wb SHEET_CHECKLIST with
            | Some wsChecklist =>
                updateWorksheet wb SHEET_CHECKLIST
                  (bakeTableStripes (fillChecklistSheet wsChecklist inspection) 2 84 4)
            | None => wb
            end in
  match (match getWorksheet wb SHEET_DC with
         | Some wsDc =>
             match fillDcSheet wsDc inspection with
             | Some (wsDc, dcLastRow) =>
                 inr (updateWorksheet wb SHEET_DC (bakeTableStripes wsDc 2 dcLastRow 8))
             | None => inl "RangeError: Maximum call stack size exceeded"
             end
         | None => inr wb
         end) with
  | inl msg => inl msg
  | inr wb =>
      let wb := match getWorksheet wb SHEET_AC with
                | Some wsAc =>
                    updateWorksheet wb SHEET_AC
                      (bakeTableStripes (fillAcSheet wsAc inspection) 2 42 4)
                | None => wb
                end in
      let defects := default (defects inspection) allDefects in
      let wb := match getWorksheet wb SHEET_DEFECTS with
                | Some wsDefects =>
                    updateWorksheet wb SHEET_DEFECTS
                      (bakeTableStripes (fillDefectsSheet wsDefects defects) 2
                         (Z.max 2 (Z.of_nat (length defects) + 1)) 4)
                | None => wb
                end in
      inr {| worksheets := stripTables <$> worksheets wb |}
  end.

Definition downloadWorkbook (inspection : Inspection) (allDefects : option (list Defect))
    : IO unit :=
  wb ← loadTemplate;
  wb ← io_lift (fillWorkbook wb inspection allDefects);
  outBuffer ← io_call (EWriteBuffer wb) (λ w, xlsx_writeBuffer w wb);
  url ← io_call (ECreateObjectURL outBuffer XLSX_MIME) (λ w, inr (createObjectURL w outBuffer));
  _ ← io_call (EAnchorClick url (downloadName inspection)) (λ _, inr tt);
  io_call (ERevokeObjectURL url) (λ _, inr tt).

(** Running the export from an empty event log. *)
Definition runExport (w : World) (inspection : Inspection) (allDefects : option (list Defect))
    : list Event * (string + unit) :=
  downloadWorkbook inspection allDefects w [].

(** The text the addressing scan reads in column A of a row
    (specification vocabulary). *)
Definition codeOfRow (ws : Worksheet) (r : Z) : string :=
  trim (jsString (cell_value (getCell ws r 1))).

(** The text the serial scan reads in column B of a row, and whether it is
    a marker row (specification vocabulary). *)
Definition isSerialRow (ws : Worksheet) (r : Z) : bool :=
  startsWith (jsString (cell_value (getCell ws r 2))) SERIAL_MARKER.

(** The row [fillSerial] writes a serial to, if it writes it
    (specification vocabulary). *)
Definition serialTarget (rows : list Z) (serial : InverterSerial) : option Z :=
  let idx := (ser_inverterIndex serial - 1)%Z in
  if bool_decide (0 ≤ idx)%Z && bool_decide (idx < Z.of_nat (length rows))%Z
     && truthy (serialNumber serial)
  then rows !! Z.to_nat idx else None.

(** The part of a worksheet that no cell write touches: its name and its
    tables (specification vocabulary). *)
Definition wsMeta (ws : Worksheet) : string * list Table := (ws_name ws, ws_tables ws).

(** What phase 2 leaves in a cell it restripes (specification vocabulary). *)
Definition striped (cell : Cell) (color : string) : Cell :=
  {| cell_value := cell_value cell; cell_style := stripeStyle cell color |}.

End Exporter.

(** ** Specification vocabulary for the sheet fillers *)

Module Layout.
Import Js Model Tree Excel Exporter.

(** A non-empty string of the digits 0 to 9. *)
Definition digitString (s : string) : Prop :=
  s ≠ "" ∧ ∀ a, a ∈ String.list_ascii_of_string s →
             (48 ≤ Ascii.nat_of_ascii a ≤ 57)%nat.

(** What [setCell] leaves in a cell: the value is replaced unless it is
    [undefined] or the empty string, the style stays. *)
Definition cellAfter (cell : Cell) (value : option Scalar) : Cell :=
  match value with
  | None => cell
  | Some (SStr EmptyString) => cell
  | Some v => {| cell_value := scalarValue v; cell_style := cell_style cell |}
  end.

(** The element of [rows] that lies in sheet row [r] when the elements
    occupy consecutive sheet rows from [start] on. *)
Definition rowAt {A} (rows : list A) (start r : Z) : option A :=
  if decide (start ≤ r)%Z then rows !! Z.to_nat (r - start) else None.

(** The rows of the DC sheet below the header: for each configured inverter
    its header row, then one row per entry of its measurement tree. *)
Inductive DcRow :=
| DcHeader (config : InverterConfig)
| DcString (entry : TreeEntry).

Fixpoint dcBlocks (inspection : Inspection) (configs : list InverterConfig)
    : option (list DcRow) :=
  match configs with
  | [] => Some []
  | config :: rest =>
      tree ← getOrderedDcTree (dcMeasurements inspection) (cfg_index config);
      rows ← dcBlocks inspection rest;
      Some (DcHeader config :: (DcString <$> tree) ++ rows)
  end.

(** [None] when the tree walk of some configured inverter does not return. *)
Definition dcRows (inspection : Inspection) : option (list DcRow) :=
  dcBlocks inspection (inverterConfigs inspection).

(** The value a DC row has for column [col], if it has one. *)
Definition dcRowValue (row : DcRow) (col : Z) : option Scalar :=
  match row with
  | DcHeader config => if decide (col = 1%Z) then Some (SNum (cfg_index config)) else None
  | DcString entry =>
      let m := measurement entry in
      if decide (col = 2%Z) then Some (SStr (dc_stringLabel m))
      else if decide (col = 3%Z) then SNum <$> panelCount m
      else if decide (col = 4%Z) then SNum <$> openCircuitVoltage m
      else if decide (col = 5%Z) then SNum <$> operatingCurrent m
      else if decide (col = 6%Z) then SNum <$> stringRiso m
      else if decide (col = 7%Z) then SNum <$> feedRisoNegative m
      else if decide (col = 8%Z) then SNum <$> feedRisoPositive m
      else None
  end.

(** The value a defect has for column [col], if it has one. *)
Definition defectColumn (d : Defect) (col : Z) : option Scalar :=
  if decide (col = 1%Z) then Some (SStr (component d))
  else if decide (col = 2%Z) then Some (SStr (fault d))
  else if decide (col = 3%Z) then Some (SStr (location d))
  else if decide (col = 4%Z) then Some (SStr (defect_status d))
  else None.

(** What identifies a DC row on the sheet: the inverter index of a header
    row, the string label of a measurement row. *)
Definition dcRowKey (row : DcRow) : Z + string :=
  match row with
  | DcHeader config => inl (cfg_index config)
  | DcString entry => inr (dc_stringLabel (measurement entry))
  end.

(** [ws'] is [ws] with the rows [rows] written from sheet row [start] on. *)
Definition laidOut {A} (value : A → Z → option Scalar) (ws ws' : Worksheet)
    (start : Z) (rows : list A) : Prop :=
  ∀ r c, getCell ws' r c =
         cellAfter (getCell ws r c) (rowAt rows start r ≫= λ row, value row c).

End Layout.

(** ** The inspection store

    [createInspectionStore] closes over one report and returns the mutation
    methods; here the state is explicit.  Every method ends with [save()],
    which persists the report and leaves it unchanged; persistence is outside
    this embedding.

    [crypto.randomUUID()] is the sequence [randomUUID 0], [randomUUID 1], ...
    of the identifiers the browser hands out; the store records how many it
    has drawn. *)

Module Store.
Import Js Model Tree.

Record Store := {
  reportName : string;
  inspection : Inspection;
  drawn : nat
}.

(** Partial records, the arguments of [Object.assign] and of the spread in
    [updateMeta]: [None] is an absent property.  A numeric measurement field
    may be present with the value [undefined]. *)
Record MetaPatch := {
  upd_siteName : option string;
  upd_inspectionDate : option string;
  upd_inspectorName : option string;
  upd_signatureText : option string
}.

Record InverterConfigPatch := {
  upd_index : option Z;
  upd_label : option string;
  upd_stringCount : option nat
}.

Record DcPatch := {
  upd_id : option string;
  upd_parentId : option (option string);
  upd_inverterIndex : option Z;
  upd_stringLabel : option string;
  upd_panelCount : option (option Z);
  upd_openCircuitVoltage : option (option Z);
  upd_operatingCurrent : option (option Z);
  upd_stringRiso : option (option Z);
  upd_feedRisoNegative : option (option Z);
  upd_feedRisoPositive : option (option Z)
}.

Record DefectPatch := {
  upd_component : option string;
  upd_fault : option string;
  upd_location : option string;
  upd_defect_status : option string
}.

(** *** Writing one field of the inspection *)

Definition withMeta (i : Inspection) (m : InspectionMeta) : Inspection :=
  {| meta := m; inverterConfigs := inverterConfigs i; checklist := checklist i;
     dcMeasurements := dcMeasurements i; acMeasurements := acMeasurements i;
     inverterSerials := inverterSerials i; defects := defects i |}.

Definition withChecklist (i : Inspection) (l : list ChecklistItem) : Inspection :=
  {| meta := meta i; inverterConfigs := inverterConfigs i; checklist := l;
     dcMeasurements := dcMeasurements i; acMeasurements := acMeasurements i;
     inverterSerials := inverterSerials i; defects := defects i |}.

Definition withDcMeasurements (i : Inspection) (l : list DcStringMeasurement) : Inspection :=
  {| meta := meta i; inverterConfigs := inverterConfigs i; checklist := checklist i;
     dcMeasurements := l; acMeasurements := acMeasurements i;
     inverterSerials := inverterSerials i; defects := defects i |}.

Definition withAcMeasurements (i : Inspection) (l : list AcMeasurement) : Inspection :=
  {| meta := meta i; inverterConfigs := inverterConfigs i; checklist := checklist i;
     dcMeasurements := dcMeasurements i; acMeasurements := l;
     inverterSerials := inverterSerials i; defects := defects i |}.

Definition withInverterSerials (i : Inspection) (l : list InverterSerial) : Inspection :=
  {| meta := meta i; inverterConfigs := inverterConfigs i; checklist := checklist i;
     dcMeasurements := dcMeasurements i; acMeasurements := acMeasurements i;
     inverterSerials := l; defects := defects i |}.

Definition withDefects (i : Inspection) (l : list Defect) : Inspection :=
  {| meta := meta i; inverterConfigs := inverterConfigs i; checklist := checklist i;
     dcMeasurements := dcMeasurements i; acMeasurements := acMeasurements i;
     inverterSerials := inverterSerials i; defects := l |}.

(** The three assignments of [setInverterConfigs] and [updateInverterConfig]. *)
Definition withConfiguration (i : Inspection) (configs : list InverterConfig)
    (dc : list DcStringMeasurement) (serials : list InverterSerial) : Inspection :=
  {| meta := meta i; inverterConfigs := configs; checklist := checklist i;
     dcMeasurements := dc; acMeasurements := acMeasurements i;
     inverterSerials := serials; defects := defects i |}.

Definition withInspection (st : Store) (i : Inspection) : Store :=
  {| reportName := reportName st; inspection := i; drawn := drawn st |}.

(** [list.find(P)] followed by a mutation of the element found: the first
    element that satisfies [P] is replaced; [None] when there is none. *)
Fixpoint updateFirst {A} (P : A → bool) (f : A → A) (l : list A) : option (list A) :=
  match l with
  | [] => None
  | x :: l' => if P x then Some (f x :: l') else (x ::.) <$> updateFirst P f l'
  end.

(** [list.find(P)] *)
Definition findFirst {A} (P : A → bool) (l : list A) : option A :=
  head (filter (λ x, P x = true) l).

Section WithIds.

Variable randomUUID : nat → string.

Definition STRING_LABELS : string := "ABCDEFGHIJKLMNOPQRSTUVWXYZ".

Definition createDcMeasurement (uuid : string) (inverterIndex : Z) (stringLabel : string)
    (parentId : option string) : DcStringMeasurement :=
  {| dc_id := uuid;
     dc_parentId := parentId;
     dc_inverterIndex := inverterIndex;
     dc_stringLabel := stringLabel;
     panelCount := None;
     openCircuitVoltage := None;
     operatingCurrent := None;
     stringRiso := None;
     feedRisoNegative := None;
     feedRisoPositive := None |}.

(** [STRING_LABELS[i]] as a one-letter string, [undefined] past the end. *)
Definition letterAt (i : nat) : option string :=
  (λ a, String a EmptyString) <$> String.get i STRING_LABELS.

(** [STRING_LABELS[i] || `S${i + 1}`] *)
Definition rootLabel (i : nat) : string :=
  match letterAt i with
  | Some letter => letter
  | None => "S" +:+ pretty (i + 1)%nat
  end.

(** The strings of one inverter; [next] is the number of identifiers drawn
    before. *)
Definition generateStrings (next : nat) (inv : InverterConfig) : list DcStringMeasurement :=
  (λ i, createDcMeasurement (randomUUID (next + i)) (cfg_index inv) (rootLabel i) None)
    <$> seq 0 (cfg_stringCount inv).

(** [configs.flatMap(...)], the identifiers drawn in the order of the calls. *)
Fixpoint generateDcMeasurements (next : nat) (configs : list InverterConfig)
    : list DcStringMeasurement :=
  match configs with
  | [] => []
  | inv :: rest =>
      generateStrings next inv ++ generateDcMeasurements (next + cfg_stringCount inv) rest
  end.

Definition stringTotal (configs : list InverterConfig) : nat :=
  foldr (λ inv n, (cfg_stringCount inv + n)%nat) 0%nat configs.

(** Get all descendant ids of a measurement (recursive).  [fuel] bounds the
    depth of the recursion; [None] stands for a call that does not return. *)
Fixpoint getDescendantIds (fuel : nat) (measurements : list DcStringMeasurement)
    (parentId : string) : option (list string) :=
  match fuel with
  | O => None
  | S fuel' =>
      foldl (λ acc m,
               ids ← acc;
               if decide (dc_parentId m = Some parentId)
               then sub ← getDescendantIds fuel' measurements (dc_id m);
                    Some (ids ++ [dc_id m] ++ sub)
               else Some ids)
            (Some []) measurements
  end.

(** Find the next available child label for a parent. *)
Definition nextChildLabel (measurements : list DcStringMeasurement) (parentId : string)
    (parentLabel : string) : string :=
  let siblings := filter (λ m, dc_parentId m = Some parentId) measurements in
  parentLabel +:+ "." +:+ pretty (length siblings + 1)%nat.

(** Find the next available top-level label for an inverter. *)
Definition nextTopLevelLabel (measurements : list DcStringMeasurement) (inverterIndex : Z)
    : string :=
  let topLevel := filter (λ m, dc_inverterIndex m = inverterIndex ∧ dc_parentId m = None)
                         measurements in
  let usedLetters := dc_stringLabel <$> topLevel in
  match list_find (λ letter, letter ∉ usedLetters)
                  (omap letterAt (seq 0 (String.length STRING_LABELS))) with
  | Some (_, letter) => letter
  | None => "S" +:+ pretty (length topLevel + 1)%nat
  end.

Definition generateInverterSerials (configs : list InverterConfig) : list InverterSerial :=
  (λ inv, {| ser_inverterIndex := cfg_index inv; serialNumber := "" |}) <$> configs.

(** *** The mutation methods *)

Definition updateReportName (name : string) (st : Store) : Store :=
  {| reportName := name; inspection := inspection st; drawn := drawn st |}.

Definition assignMeta (m : InspectionMeta) (u : MetaPatch) : InspectionMeta :=
  {| siteName := default (siteName m) (upd_siteName u);
     inspectionDate := default (inspectionDate m) (upd_inspectionDate u);
     inspectorName := default (inspectorName m) (upd_inspectorName u);
     signatureText := default (signatureText m) (upd_signatureText u) |}.

Definition updateMeta (u : MetaPatch) (st : Store) : Store :=
  let i := withMeta (inspection st) (assignMeta (meta (inspection st)) u) in
  let name :=
    match upd_siteName u with
    | Some site =>
        if truthy site
           && (bool_decide (reportName st = "בדיקה חדשה") || negb (truthy (reportName st)))
        then site else reportName st
    | None => reportName st
    end in
  {| reportName := name; inspection := i; drawn := drawn st |}.

Definition setInverterConfigs (count : nat) (defaultStrings : nat) (st : Store) : Store :=
  let existing := inverterConfigs (inspection st) in
  let configs :=
    (λ i, {| cfg_index := Z.of_nat i + 1;
             cfg_label := match existing !! i with
                          | Some e => cfg_label e
                          | None => "ממיר " +:+ pretty (i + 1)%nat
                          end;
             cfg_stringCount := match existing !! i with
                                | Some e => cfg_stringCount e
                                | None => defaultStrings
                                end |}) <$> seq 0 count in
  {| reportName := reportName st;
     inspection := withConfiguration (inspection st) configs
                     (generateDcMeasurements (drawn st) configs)
                     (generateInverterSerials configs);
     drawn := (drawn st + stringTotal configs)%nat |}.

Definition assignConfig (u : InverterConfigPatch) (c : InverterConfig) : InverterConfig :=
  {| cfg_index := default (cfg_index c) (upd_index u);
     cfg_label := default (cfg_label c) (upd_label u);
     cfg_stringCount := default (cfg_stringCount c) (upd_stringCount u) |}.

Definition updateInverterConfig (index : Z) (updates : InverterConfigPatch) (st : Store)
    : Store :=
  match updateFirst (λ c, bool_decide (cfg_index c = index)) (assignConfig updates)
                    (inverterConfigs (inspection st)) with
  | Some configs =>
      {| reportName := reportName st;
         inspection := withConfiguration (inspection st) configs
                         (generateDcMeasurements (drawn st) configs)
                         (generateInverterSerials configs);
         drawn := (drawn st + stringTotal configs)%nat |}
  | None => st
  end.

Definition updateChecklistItem (code : string) (status notes : option string) (st : Store)
    : Store :=
  match updateFirst (λ c, bool_decide (sectionCode c = code))
          (λ c, {| sectionCode := sectionCode c; description := description c;
                   item_status := default (item_status c) status;
                   item_notes := default (item_notes c) notes |})
          (checklist (inspection st)) with
  | Some l => withInspection st (withChecklist (inspection st) l)
  | None => st
  end.

Definition markSectionAllOk (code : string) (st : Store) : Store :=
  withInspection st
    (withChecklist (inspection st)
       ((λ c, if startsWith (sectionCode c) (code +:+ ".") && negb (truthy (item_status c))
              then {| sectionCode := sectionCode c; description := description c;
                      item_status := "תקין"; item_notes := item_notes c |}
              else c) <$> checklist (inspection st))).

Definition assignDc (u : DcPatch) (m : DcStringMeasurement) : DcStringMeasurement :=
  {| dc_id := default (dc_id m) (upd_id u);
     dc_parentId := default (dc_parentId m) (upd_parentId u);
     dc_inverterIndex := default (dc_inverterIndex m) (upd_inverterIndex u);
     dc_stringLabel := default (dc_stringLabel m) (upd_stringLabel u);
     panelCount := default (panelCount m) (upd_panelCount u);
     openCircuitVoltage := default (openCircuitVoltage m) (upd_openCircuitVoltage u);
     operatingCurrent := default (operatingCurrent m) (upd_operatingCurrent u);
     stringRiso := default (stringRiso m) (upd_stringRiso u);
     feedRisoNegative := default (feedRisoNegative m) (upd_feedRisoNegative u);
     feedRisoPositive := default (feedRisoPositive m) (upd_feedRisoPositive u) |}.

Definition updateDcMeasurement (id : string) (updates : DcPatch) (st : Store) : Store :=
  match updateFirst (λ d, bool_decide (dc_id d = id)) (assignDc updates)
                    (dcMeasurements (inspection st)) with
  | Some l => withInspection st (withDcMeasurements (inspection st) l)
  | None => st
  end.

Definition addDcString (inverterIndex : Z) (st : Store) : Store :=
  let ms := dcMeasurements (inspection st) in
  let label := nextTopLevelLabel ms inverterIndex in
  {| reportName := reportName st;
     inspection := withDcMeasurements (inspection st)
                     (ms ++ [createDcMeasurement (randomUUID (drawn st)) inverterIndex label None]);
     drawn := S (drawn st) |}.

(** The loop of [addDcSubstring] that counts the parent links above [cur]:
    [while (cur.parentId) { depth++; p = find(...); if (!p) break; cur = p; }].
    [None] stands for a loop that does not end. *)
Fixpoint parentLinks (fuel : nat) (ms : list DcStringMeasurement)
    (cur : DcStringMeasurement) (depth : nat) : option nat :=
  match fuel with
  | O => None
  | S fuel' =>
      match dc_parentId cur with
      | Some pid =>
          if truthy pid then
            match findFirst (λ m, bool_decide (dc_id m = pid)) ms with
            | Some p => parentLinks fuel' ms p (S depth)
            | None => Some (S depth)
            end
          else Some depth
      | None => Some depth
      end
  end.

Definition addDcSubstring (fuel : nat) (parentId : string) (st : Store) : option Store :=
  let ms := dcMeasurements (inspection st) in
  match findFirst (λ m, bool_decide (dc_id m = parentId)) ms with
  | None => Some st
  | Some parent =>
      depth ← parentLinks fuel ms parent 0;
      if (2 <=? depth)%nat then Some st
      else
        let label := nextChildLabel ms parentId (dc_stringLabel parent) in
        Some {| reportName := reportName st;
                inspection := withDcMeasurements (inspection st)
                  (ms ++ [createDcMeasurement (randomUUID (drawn st))
                            (dc_inverterIndex parent) label (Some parentId)]);
                drawn := S (drawn st) |}
  end.

Definition removeDcMeasurement (fuel : nat) (id : string) (st : Store) : option Store :=
  let ms := dcMeasurements (inspection st) in
  descendants ← getDescendantIds fuel ms id;
  let idsToRemove := id :: descendants in
  Some (withInspection st
          (withDcMeasurements (inspection st) (filter (λ m, dc_id m ∉ idsToRemove) ms))).

Definition updateAcMeasurement (code : string) (result : option Scalar) (notes : option string)
    (st : Store) : Store :=
  match updateFirst (λ a, bool_decide (itemCode a = code))
          (λ a, {| itemCode := itemCode a;
                   ac_result := match result with Some r => Some r | None => ac_result a end;
                   ac_notes := default (ac_notes a) notes |})
          (acMeasurements (inspection st)) with
  | Some l => withInspection st (withAcMeasurements (inspection st) l)
  | None => st
  end.

Definition updateInverterSerial (inverterIndex : Z) (sn : string) (st : Store) : Store :=
  match updateFirst (λ s, bool_decide (ser_inverterIndex s = inverterIndex))
          (λ s, {| ser_inverterIndex := ser_inverterIndex s; serialNumber := sn |})
          (inverterSerials (inspection st)) with
  | Some l => withInspection st (withInverterSerials (inspection st) l)
  | None => st
  end.

Definition addDefect (defect : option DefectPatch) (st : Store) : Store :=
  let field (get : DefectPatch → option string) := default "" (defect ≫= get) in
  withInspection st
    (withDefects (inspection st)
       (defects (inspection st) ++
        [{| component := field upd_component; fault := field upd_fault;
            location := field upd_location; defect_status := field upd_defect_status |}])).

(** The start position of [splice(start, ...)] in a list of [len] elements. *)
Definition spliceStart (len : nat) (start : Z) : nat :=
  if (start <? 0)%Z then Z.to_nat (Z.max (Z.of_nat len + start) 0)
  else Nat.min (Z.to_nat start) len.

Definition removeDefect (index : Z) (st : Store) : Store :=
  let l := defects (inspection st) in
  let k := spliceStart (length l) index in
  withInspection st (withDefects (inspection st) (take k l ++ drop (S k) l)).

Definition duplicateDefect (index : Z) (st : Store) : Store :=
  let l := defects (inspection st) in
  match (if (index <? 0)%Z then None else l !! Z.to_nat index) with
  | Some d =>
      let k := spliceStart (length l) (index + 1) in
      withInspection st (withDefects (inspection st) (take k l ++ d :: drop k l))
  | None => st
  end.

(** *** The store as a transition system *)

Inductive Op :=
| Save
| UpdateReportName (name : string)
| UpdateMeta (updates : MetaPatch)
| SetInverterConfigs (count defaultStrings : nat)
| UpdateInverterConfig (index : Z) (updates : InverterConfigPatch)
| UpdateChecklistItem (code : string) (status notes : option string)
| MarkSectionAllOk (code : string)
| UpdateDcMeasurement (id : string) (updates : DcPatch)
| AddDcString (inverterIndex : Z)
| AddDcSubstring (parentId : string)
| RemoveDcMeasurement (id : string)
| UpdateAcMeasurement (code : string) (result : option Scalar) (notes : option string)
| UpdateInverterSerial (inverterIndex : Z) (sn : string)
| AddDefect (defect : option DefectPatch)
| RemoveDefect (index : Z)
| DuplicateDefect (index : Z).

Definition step (fuel : nat) (op : Op) (st : Store) : option Store :=
  match op with
  | Save => Some st
  | UpdateReportName name => Some (updateReportName name st)
  | UpdateMeta updates => Some (updateMeta updates st)
  | SetInverterConfigs count defaultStrings => Some (setInverterConfigs count defaultStrings st)
  | UpdateInverterConfig index updates => Some (updateInverterConfig index updates st)
  | UpdateChecklistItem code status notes => Some (updateChecklistItem code status notes st)
  | MarkSectionAllOk code => Some (markSectionAllOk code st)
  | UpdateDcMeasurement id updates => Some (updateDcMeasurement id updates st)
  | AddDcString inverterIndex => Some (addDcString inverterIndex st)
  | AddDcSubstring parentId => addDcSubstring fuel parentId st
  | RemoveDcMeasurement id => removeDcMeasurement fuel id st
  | UpdateAcMeasurement code result notes => Some (updateAcMeasurement code result notes st)
  | UpdateInverterSerial inverterIndex sn => Some (updateInverterSerial inverterIndex sn st)
  | AddDefect defect => Some (addDefect defect st)
  | RemoveDefect index => Some (removeDefect index st)
  | DuplicateDefect index => Some (duplicateDefect index st)
  end.

(** *** Specification vocabulary *)

(** A top-level measurement with all six numeric fields unset. *)
Definition blankRoot (m : DcStringMeasurement) : Prop :=
  dc_parentId m = None ∧ panelCount m = None ∧ openCircuitVoltage m = None
  ∧ operatingCurrent m = None ∧ stringRiso m = None
  ∧ feedRisoNegative m = None ∧ feedRisoPositive m = None.

(** The measurement set and the serials of [st'] are the ones generated
    from the inverter configurations of [st'], with the identifiers drawn
    next after those of [st]. *)
Definition regenerated (st st' : Store) : Prop :=
  let configs := inverterConfigs (inspection st') in
  let ms := dcMeasurements (inspection st') in
  (λ m, (dc_inverterIndex m, dc_stringLabel m)) <$> ms =
    configs ≫= (λ inv, (λ i, (cfg_index inv, rootLabel i)) <$> seq 0 (cfg_stringCount inv))
  ∧ Forall blankRoot ms
  ∧ dc_id <$> ms = randomUUID <$> seq (drawn st) (length ms)
  ∧ drawn st' = (drawn st + length ms)%nat
  ∧ inverterSerials (inspection st') =
      (λ inv, {| ser_inverterIndex := cfg_index inv; serialNumber := "" |}) <$> configs.

(** [m] has at most [n] measurements above it along parent links. *)
Fixpoint depthAtMost (ms : list DcStringMeasurement) (n : nat) (m : DcStringMeasurement)
    {struct n} : Prop :=
  match dc_parentId m with
  | None => True
  | Some pid =>
      ∀ p, p ∈ ms → dc_id p = pid →
        match n with
        | O => False
        | S n' => depthAtMost ms n' p
        end
  end.

(** The forest invariants of the data model: a measurement that has a
    parent belongs to the inverter of its parent, and no chain of parent
    links has more than three measurements (root, child, grandchild). *)
Definition sameInverterAsParent (ms : list DcStringMeasurement) : Prop :=
  ∀ c p, c ∈ ms → p ∈ ms → dc_parentId c = Some (dc_id p) →
         dc_inverterIndex p = dc_inverterIndex c.

Definition forestOk (ms : list DcStringMeasurement) : Prop :=
  sameInverterAsParent ms ∧ ∀ m, m ∈ ms → depthAtMost ms 2 m.

(** Identifiers are unique and non-empty, and the identifiers still to be
    drawn occur nowhere in the list. *)
Definition idsOk (ms : list DcStringMeasurement) (next : nat) : Prop :=
  NoDup (dc_id <$> ms) ∧ ("" ∉ dc_id <$> ms)
  ∧ ∀ k, (next ≤ k)%nat →
      (randomUUID k ∉ dc_id <$> ms) ∧ ∀ m, m ∈ ms → dc_parentId m ≠ Some (randomUUID k).

Definition storeInv (st : Store) : Prop :=
  idsOk (dcMeasurements (inspection st)) (drawn st)
  ∧ forestOk (dcMeasurements (inspection st)).

(** An operation that does not patch the identity, the parent or the
    inverter of a measurement. *)
Definition keepsStructure (op : Op) : Prop :=
  match op with
  | UpdateDcMeasurement _ u =>
      upd_id u = None ∧ upd_parentId u = None ∧ upd_inverterIndex u = None
  | _ => True
  end.

(** What the invariants look at in a measurement. *)
Definition skeleton (m : DcStringMeasurement) : string * option string * Z :=
  (dc_id m, dc_parentId m, dc_inverterIndex m).

(** The subtree below the identifier [pid] has at most [n] levels. *)
Fixpoint levelsBelow (ms : list DcStringMeasurement) (n : nat) (pid : string) : Prop :=
  ∀ m, m ∈ ms → dc_parentId m = Some pid →
    match n with
    | O => False
    | S n' => levelsBelow ms n' (dc_id m)
    end.

End WithIds.

End Store.

(** ** Specification vocabulary for the measurement forest of the store *)

Module Lineage.
Import Model.

(** [m] lies below the identifier [id]: its parent link, or the parent link
    of a measurement of [ms] above it, is [id]. *)
Inductive below (ms : list DcStringMeasurement) (id : string) : DcStringMeasurement → Prop :=
| below_child m : m ∈ ms → dc_parentId m = Some id → below ms id m
| below_step p m :
    below ms id p → m ∈ ms → dc_parentId m = Some (dc_id p) → below ms id m.

End Lineage.

(** ** Concrete worksheets and inspections used to exercise the statements *)

Module Samples.
Import Excel.

Definition plainStyle : Style :=
  {| numFmt := None; font := None; alignment := None; protection := None;
     border := None; fill := None |}.

Definition solidStyle (color : string) : Style :=
  {| numFmt := Some "0.00"; font := Some [("bold", "true")]; alignment := None;
     protection := None; border := None;
     fill := Some (FillPattern "solid" (Some {| argb := color |}) None) |}.

Definition textCell (s : string) : Cell := {| cell_value := VStr s; cell_style := plainStyle |}.

Definition sheetOf (name : string) (cells : list (Z * Z * Cell)) (tables : list Table) : Worksheet :=
  {| ws_name := name; ws_cells := list_to_map cells;
     ws_blank := λ _ _, plainStyle; ws_tables := tables |}.

(** Rows 2 to 4: row 3 is a header row with a solid fill in column 1; row 4
    has a solid fill in column 2 only. *)
Definition stripeSheet : Worksheet :=
  sheetOf "s"
    [ (2, 1, textCell "a")%Z;
      (3, 1, {| cell_value := VStr "header"; cell_style := solidStyle "FF000000" |})%Z;
      (3, 2, textCell "h")%Z;
      (4, 1, textCell "b")%Z;
      (4, 2, {| cell_value := VNum 7; cell_style := solidStyle "FF00FF00" |})%Z ]
    [].

(** A checklist template whose row 2 carries a section code. *)
Definition codeInHeaderRow : Worksheet :=
  sheetOf "c" [ (2, 1, textCell "1.1")%Z; (5, 1, textCell " 1.2 ")%Z;
                (5, 3, textCell "old")%Z; (5, 4, textCell "keep")%Z ] [].

Definition emptyMeta : Model.InspectionMeta :=
  {| Model.siteName := ""; Model.inspectionDate := ""; Model.inspectorName := "";
     Model.signatureText := "" |}.

Definition inspectionOf (m : Model.InspectionMeta) (items : list Model.ChecklistItem)
    (serials : list Model.InverterSerial) : Model.Inspection :=
  {| Model.meta := m; Model.inverterConfigs := []; Model.checklist := items;
     Model.dcMeasurements := []; Model.acMeasurements := [];
     Model.inverterSerials := serials; Model.defects := [] |}.

Definition item (code status notes : string) : Model.ChecklistItem :=
  {| Model.sectionCode := code; Model.description := "";
     Model.item_status := status; Model.item_notes := notes |}.

Definition datedInspection : Model.Inspection :=
  inspectionOf
    {| Model.siteName := ""; Model.inspectionDate := "2024-05-01"; Model.inspectorName := "";
       Model.signatureText := "" |}
    [item "1.1" "" ""; item "1.2" "ok" ""; item "9.9" "ok" "note"] [].

(** An AC template with two serial-number rows, 5 and 6. *)
Definition serialSheet : Worksheet :=
  sheetOf "ac" [ (4, 1, textCell "2.1")%Z; (4, 2, textCell "x")%Z;
                 (5, 2, textCell "מהפך 1")%Z; (6, 2, textCell "מהפך 2")%Z ] [].

Definition serial (i : Z) (sn : string) : Model.InverterSerial :=
  {| Model.ser_inverterIndex := i; Model.serialNumber := sn |}.

(** A template workbook: a checklist sheet with a table, and a sheet that
    no filler touches, with a table and its autofilter. *)
Definition templateWorkbook : Workbook :=
  {| worksheets :=
       [ {| ws_name := "פרוטוקול בדיקה תקופתית";
            ws_cells := list_to_map [ (5, 1, textCell "1.2")%Z ];
            ws_blank := λ _ _, plainStyle;
            ws_tables := [ {| table_name := "Table1"; table_ref := "A1:D84";
                              table_autoFilterRef := Some "A1:D1" |} ] |};
         {| ws_name := "notes";
            ws_cells := ∅;
            ws_blank := λ _ _, plainStyle;
            ws_tables := [ {| table_name := "Table2"; table_ref := "A1:B3";
                              table_autoFilterRef := Some "A1:B1" |} ] |} ] |}.

(** A workbook with a table entry that has no name. *)
Definition namelessTable : Table :=
  {| table_name := ""; table_ref := "A1:B3"; table_autoFilterRef := Some "A1:B1" |}.

Definition namelessWorkbook : Workbook :=
  {| worksheets :=
       [ {| ws_name := "notes"; ws_cells := ∅; ws_blank := λ _ _, plainStyle;
            ws_tables := [ namelessTable ] |} ] |}.

Definition worldOf (template : Workbook) : Exporter.World :=
  {| Exporter.fetch := λ _, inr {| Exporter.resp_ok := true; Exporter.resp_status := 200;
                                   Exporter.resp_arrayBuffer := "PK" |};
     Exporter.xlsx_load := λ _, inr template;
     Exporter.xlsx_writeBuffer := λ _, inr "PK-out";
     Exporter.createObjectURL := λ _, "blob:1" |}.

(** A server that answers the template request with status 404, and one
    that serves the template; parsing yields [templateWorkbook]. *)
Definition world (ok : bool) (status : Z) : Exporter.World :=
  {| Exporter.fetch := λ _, inr {| Exporter.resp_ok := ok; Exporter.resp_status := status;
                                   Exporter.resp_arrayBuffer := "PK" |};
     Exporter.xlsx_load := λ _, inr templateWorkbook;
     Exporter.xlsx_writeBuffer := λ _, inr "PK-out";
     Exporter.createObjectURL := λ _, "blob:1" |}.

(** Measurements of a small forest: A with the substrings A.1 (which has
    A.1.1) and A.2, and B, stored in the order A, B, A.1, A.2, A.1.1; a
    string of inverter 2 lies between them. *)
Definition dcNode (id : string) (parent : option string) (inv : Z) (label : string)
    : Model.DcStringMeasurement :=
  {| Model.dc_id := id; Model.dc_parentId := parent; Model.dc_inverterIndex := inv;
     Model.dc_stringLabel := label; Model.panelCount := None;
     Model.openCircuitVoltage := None; Model.operatingCurrent := None;
     Model.stringRiso := None; Model.feedRisoNegative := None;
     Model.feedRisoPositive := None |}.

Definition nodeA : Model.DcStringMeasurement := dcNode "a" None 1 "A".
Definition nodeB : Model.DcStringMeasurement := dcNode "b" None 1 "B".
Definition nodeA1 : Model.DcStringMeasurement := dcNode "a1" (Some "a") 1 "A.1".
Definition nodeA2 : Model.DcStringMeasurement := dcNode "a2" (Some "a") 1 "A.2".
Definition nodeA11 : Model.DcStringMeasurement := dcNode "a11" (Some "a1") 1 "A.1.1".
Definition nodeOther : Model.DcStringMeasurement := dcNode "z" None 2 "A".

Definition forestList : list Model.DcStringMeasurement :=
  [nodeA; nodeB; nodeOther; nodeA1; nodeA2; nodeA11].

(** A measurement whose parent is not in the list. *)
Definition orphanList : list Model.DcStringMeasurement :=
  [nodeA; dcNode "o" (Some "gone") 1 "X.1"].

(** The identifiers handed out in the sample runs. *)
Definition uuid (n : nat) : string := "id-" +:+ pretty n.

Definition emptyStore : Store.Store :=
  {| Store.reportName := "r"; Store.inspection := inspectionOf emptyMeta [] [];
     Store.drawn := 0 |}.

(** Running a list of store operations, with fuel 10 for each. *)
Definition run (ops : list Store.Op) (st : Store.Store) : option Store.Store :=
  foldl (λ acc op, st ← acc; Store.step uuid 10 op st) (Some st) ops.

(** One inverter with the string A, its substring A.1 and the substring
    A.1.1 of that. *)
Definition familyStore : Store.Store :=
  default emptyStore
    (run [Store.SetInverterConfigs 1 1; Store.AddDcSubstring "id-0";
          Store.AddDcSubstring "id-1"] emptyStore).

(** A patch that moves a measurement to inverter 2. *)
Definition moveToInverter2 : Store.DcPatch :=
  {| Store.upd_id := None; Store.upd_parentId := None; Store.upd_inverterIndex := Some 2%Z;
     Store.upd_stringLabel := None; Store.upd_panelCount := None;
     Store.upd_openCircuitVoltage := None; Store.upd_operatingCurrent := None;
     Store.upd_stringRiso := None; Store.upd_feedRisoNegative := None;
     Store.upd_feedRisoPositive := None |}.

(** What is shown of a measurement in the sample runs. *)
Definition brief (m : Model.DcStringMeasurement) : string * option string * string * Z :=
  (Model.dc_id m, Model.dc_parentId m, Model.dc_stringLabel m, Model.dc_inverterIndex m).

End Samples.

(* ================================================================== *)
(** * Properties *)
(* ================================================================== *)

Import Js Model Tree Excel Exporter Store.

(** Lists equal up to the bracketing of appends. *)
Ltac list_assoc := repeat progress (simpl; rewrite <-?app_assoc); done.

(** ** Cells after a write *)

Lemma getCell_putCell ws r c cell r' c' :
  getCell (putCell ws r c cell) r' c' =
  if decide ((r, c) = (r', c')) then cell else getCell ws r' c'.
Proof.
  unfold getCell, putCell; simpl.
  rewrite lookup_insert. by case_decide.
Qed.

Lemma getCell_setStyle ws r c s r' c' :
  getCell (setStyle ws r c s) r' c' =
  if decide ((r, c) = (r', c'))
  then {| cell_value := cell_value (getCell ws r c); cell_style := s |}
  else getCell ws r' c'.
Proof. apply getCell_putCell. Qed.

Lemma getCell_setValue ws r c v r' c' :
  getCell (setValue ws r c v) r' c' =
  if decide ((r, c) = (r', c'))
  then {| cell_value := v; cell_style := cell_style (getCell ws r c) |}
  else getCell ws r' c'.
Proof. apply getCell_putCell. Qed.

(** ** The stripe baker *)

Lemma bool_decide_ext_case {A} (P Q : Prop) `{!Decision P, !Decision Q} (x y : A) :
  (P ↔ Q) → (if bool_decide P then x else y) = (if bool_decide Q then x else y).
Proof. intros H. by rewrite (bool_decide_ext P Q). Qed.

Lemma paintCols_spec r color (cs : list Z) : ∀ ws r' c',
  NoDup cs →
  getCell (foldl (λ ws c, setStyle ws r c (stripeStyle (getCell ws r c) color)) ws cs) r' c' =
  if bool_decide (r' = r ∧ c' ∈ cs) then striped (getCell ws r' c') color
  else getCell ws r' c'.
Proof.
  induction cs as [|c cs IH]; intros ws r' c' Hnd; simpl.
  - rewrite bool_decide_eq_false_2; [done|]. intros [_ H]. by apply elem_of_nil in H.
  - apply NoDup_cons in Hnd as [Hc Hnd].
    rewrite IH by done. rewrite !getCell_setStyle.
    destruct (decide ((r, c) = (r', c'))) as [[= -> ->]|Hne].
    + rewrite bool_decide_eq_false_2 by naive_solver.
      rewrite bool_decide_eq_true_2 by (split; [done|left]). done.
    + apply bool_decide_ext_case. rewrite elem_of_cons. naive_solver.
Qed.

Lemma paintRow_spec ws r colCount color r' c' :
  getCell (paintRow ws r colCount color) r' c' =
  if bool_decide (r' = r ∧ (1 ≤ c' ≤ colCount)%Z) then striped (getCell ws r' c') color
  else getCell ws r' c'.
Proof.
  unfold paintRow. rewrite paintCols_spec by apply NoDup_seqZ.
  rewrite (bool_decide_ext _ (r' = r ∧ (1 ≤ c' ≤ colCount)%Z)); [done|].
  rewrite elem_of_seqZ. lia.
Qed.

Lemma elem_of_rowRange r startRow endRow :
  r ∈ rowRange startRow endRow ↔ (startRow ≤ r ≤ endRow)%Z.
Proof. unfold rowRange. rewrite elem_of_seqZ. lia. Qed.

Lemma elem_of_scanFilledRows ws startRow endRow r :
  r ∈ scanFilledRows ws startRow endRow ↔
  (startRow ≤ r ≤ endRow)%Z ∧ hasSolidFill (getCell ws r 1) = true.
Proof.
  unfold scanFilledRows. rewrite <-elem_of_rowRange.
  generalize (rowRange startRow endRow). intros rows.
  enough (∀ acc : gset Z,
    r ∈ foldl (λ rowHasFill r0,
        if hasSolidFill (getCell ws r0 1) then {[r0]} ∪ rowHasFill else rowHasFill) acc rows
    ↔ r ∈ acc ∨ (r ∈ rows ∧ hasSolidFill (getCell ws r 1) = true)) as H.
  { rewrite H. set_solver. }
  induction rows as [|r0 rows IH]; intros acc; simpl.
  - set_solver.
  - rewrite IH, elem_of_cons.
    destruct (hasSolidFill (getCell ws r0 1)) eqn:E.
    + rewrite elem_of_union, elem_of_singleton. naive_solver.
    + split; [naive_solver|]. intros [?|[[->|?] ?]]; [by left| congruence | by right].
Qed.

(** Phase 2 from an arbitrary (worksheet, stripeIndex) over [n] rows from [s]. *)
Lemma stripeLoop_spec flagged colCount (n : nat) : ∀ s i ws0 r' c',
  getCell (foldl (stripeStep flagged colCount) (ws0, i) (seqZ s (Z.of_nat n))).1 r' c' =
  if bool_decide ((s ≤ r' < s + Z.of_nat n)%Z ∧ (r' ∉ flagged) ∧ (1 ≤ c' ≤ colCount)%Z)
  then striped (getCell ws0 r' c') (stripeColor (i + (r' - s)))
  else getCell ws0 r' c'.
Proof.
  induction n as [|n IH]; intros s i ws0 r' c'.
  - simpl. rewrite bool_decide_eq_false_2; [done|lia].
  - rewrite Nat2Z.inj_succ, seqZ_cons by lia. cbn [foldl].
    replace (Z.pred (Z.succ (Z.of_nat n))) with (Z.of_nat n) by lia.
    unfold stripeStep at 2. cbn [fst snd]. rewrite IH.
    destruct (decide (r' = s)) as [->|Hne].
    + rewrite bool_decide_eq_false_2 by lia.
      case_bool_decide as Hfl.
      * rewrite bool_decide_eq_false_2 by naive_solver. done.
      * rewrite paintRow_spec.
        replace (i + (s - s))%Z with i by lia.
        apply bool_decide_ext_case. naive_solver lia.
    + assert (getCell (if bool_decide (s ∈ flagged) then ws0
                else paintRow ws0 s colCount (stripeColor i)) r' c' = getCell ws0 r' c') as ->.
      { case_bool_decide; [done|]. rewrite paintRow_spec.
        rewrite bool_decide_eq_false_2 by naive_solver. done. }
      replace (i + 1 + (r' - Z.succ s))%Z with (i + (r' - s))%Z by lia.
      apply bool_decide_ext_case. naive_solver lia.
Qed.

(** The whole baker, cell by cell. *)
Lemma bakeTableStripes_cell ws startRow endRow colCount r c :
  getCell (bakeTableStripes ws startRow endRow colCount) r c =
  if bool_decide ((startRow ≤ r ≤ endRow)%Z ∧ hasSolidFill (getCell ws r 1) = false
                  ∧ (1 ≤ c ≤ colCount)%Z)
  then striped (getCell ws r c) (stripeColor (r - startRow))
  else getCell ws r c.
Proof.
  unfold bakeTableStripes, rowRange.
  destruct (decide (startRow ≤ endRow)%Z) as [Hle|Hgt].
  - rewrite <-(Z2Nat.id (endRow - startRow + 1)) by lia.
    rewrite stripeLoop_spec. rewrite Z2Nat.id by lia.
    replace (0 + (r - startRow))%Z with (r - startRow)%Z by lia.
    apply bool_decide_ext_case.
    rewrite elem_of_scanFilledRows.
    destruct (hasSolidFill (getCell ws r 1)); naive_solver lia.
  - rewrite seqZ_nil by lia. simpl.
    rewrite bool_decide_eq_false_2 by lia. done.
Qed.

Lemma stripeColor_parity (k : Z) :
  (0 ≤ k)%Z →
  stripeColor k = if Z.even k then "FFD9E2F3" else "FFB4C6E7".
Proof.
  intros Hk. unfold stripeColor.
  rewrite Z.rem_mod_nonneg by lia.
  rewrite Zmod_even. by destruct (Z.even k).
Qed.

(** C1. Stripe baker: every row of [startRow, endRow] that phase 1 did not
    flag gets, in each of its columns 1..colCount, the solid fill whose color
    alternates between FFD9E2F3 and FFB4C6E7 with the parity of the number of
    rows visited before it (flagged rows counted); the fill of every cell of
    a flagged row is the one it had before the call. *)
Theorem bakeTableStripes_alternating ws startRow endRow colCount r :
  (startRow ≤ r ≤ endRow)%Z →
  let ws' := bakeTableStripes ws startRow endRow colCount in
  let visited := (r - startRow)%Z in
  let color := if Z.even visited then "FFD9E2F3" else "FFB4C6E7" in
  (r ∉ scanFilledRows ws startRow endRow →
     ∀ c, (1 ≤ c ≤ colCount)%Z →
       cell_fill (getCell ws' r c) =
       Some (FillPattern "solid" (Some {| argb := color |}) (Some {| argb := color |})))
  ∧ (r ∈ scanFilledRows ws startRow endRow →
     ∀ c, cell_fill (getCell ws' r c) = cell_fill (getCell ws r c)).
Proof.
  intros Hr ws' visited color. subst ws'. split.
  - intros Hnf c Hc. rewrite bakeTableStripes_cell.
    rewrite elem_of_scanFilledRows in Hnf.
    rewrite bool_decide_eq_true_2.
    + unfold striped, cell_fill; simpl. rewrite stripeColor_parity by lia. done.
    + destruct (hasSolidFill (getCell ws r 1)); [exfalso; by apply Hnf|done].
  - intros Hf c. rewrite bakeTableStripes_cell.
    apply elem_of_scanFilledRows in Hf as [_ Hf].
    rewrite bool_decide_eq_false_2; [done|]. rewrite Hf. naive_solver.
Qed.

Lemma bakeTableStripes_alternating_witness :
  let ws' := bakeTableStripes Samples.stripeSheet 2 4 2 in
  cell_fill (getCell ws' 2 2) =
    Some (FillPattern "solid" (Some {| argb := "FFD9E2F3" |}) (Some {| argb := "FFD9E2F3" |}))
  ∧ cell_fill (getCell ws' 3 2) = cell_fill (getCell Samples.stripeSheet 3 2)
  ∧ cell_fill (getCell ws' 4 2) =
    Some (FillPattern "solid" (Some {| argb := "FFD9E2F3" |}) (Some {| argb := "FFD9E2F3" |})).
Proof.
  intros ws'. subst ws'. split; [|split].
  - apply (bakeTableStripes_alternating Samples.stripeSheet 2 4 2 2); [lia| |lia].
    rewrite elem_of_scanFilledRows. vm_compute. intros [_ [=]].
  - apply (bakeTableStripes_alternating Samples.stripeSheet 2 4 2 3); [lia|].
    rewrite elem_of_scanFilledRows. split; [lia|]. vm_compute. reflexivity.
  - apply (bakeTableStripes_alternating Samples.stripeSheet 2 4 2 4); [lia| |lia].
    rewrite elem_of_scanFilledRows. vm_compute. intros [_ [=]].
Defined.

(** C10. The baker flags a row exactly when the cell in column 1 of that row
    has a solid pattern fill before the call.  Every cell in columns
    1..colCount of an unflagged row of the range is restriped, whatever fill
    that cell carried before, a solid one included: its fill becomes the
    solid stripe fill of the row (FFD9E2F3 or FFB4C6E7 by the parity of
    r - startRow), its font, alignment and border are kept (an absent one
    becomes the empty object) and it has no number format and no protection
    entry any more.  A flagged row keeps all its cells.  The baker changes
    no cell value, and no cell outside rows [startRow, endRow] and columns
    [1, colCount]. *)
Theorem bakeTableStripes_frame ws startRow endRow colCount :
  let ws' := bakeTableStripes ws startRow endRow colCount in
  (∀ r, r ∈ scanFilledRows ws startRow endRow ↔
        (startRow ≤ r ≤ endRow)%Z ∧ hasSolidFill (getCell ws r 1) = true)
  ∧ (∀ r c, (startRow ≤ r ≤ endRow)%Z → (1 ≤ c ≤ colCount)%Z →
       hasSolidFill (getCell ws r 1) = false →
       let color := if Z.even (r - startRow) then "FFD9E2F3" else "FFB4C6E7" in
       cell_style (getCell ws' r c) =
         {| numFmt := None;
            font := Some (default [] (font (cell_style (getCell ws r c))));
            alignment := Some (default [] (alignment (cell_style (getCell ws r c))));
            protection := None;
            border := Some (default [] (border (cell_style (getCell ws r c))));
            fill := Some (FillPattern "solid" (Some {| argb := color |})
                            (Some {| argb := color |})) |})
  ∧ (∀ r c, hasSolidFill (getCell ws r 1) = true → getCell ws' r c = getCell ws r c)
  ∧ (∀ r c, cell_value (getCell ws' r c) = cell_value (getCell ws r c))
  ∧ (∀ r c, ¬ ((startRow ≤ r ≤ endRow)%Z ∧ (1 ≤ c ≤ colCount)%Z) →
       getCell ws' r c = getCell ws r c).
Proof.
  intros ws'. subst ws'. split; [|split; [|split; [|split]]].
  - intros r. apply elem_of_scanFilledRows.
  - intros r c Hr Hc Hnf color. subst color.
    rewrite bakeTableStripes_cell, bool_decide_eq_true_2 by done.
    unfold striped, stripeStyle, cell_font, cell_alignment, cell_border.
    cbn [cell_style]. rewrite stripeColor_parity by lia. reflexivity.
  - intros r c Hf. rewrite bakeTableStripes_cell.
    rewrite bool_decide_eq_false_2; [done|]. rewrite Hf. naive_solver.
  - intros r c. rewrite bakeTableStripes_cell. by case_bool_decide.
  - intros r c Hout. rewrite bakeTableStripes_cell.
    rewrite bool_decide_eq_false_2; [done|]. naive_solver.
Qed.

(** Row 4 of the sample sheet has no fill in column 1 and the solid fill
    FF00FF00, a bold font and the number format 0.00 in column 2.  The row
    is restriped, column 2 included: the cell loses its green fill and its
    number format for the stripe fill FFD9E2F3 and keeps its font; the value
    7 stays.  The flagged row 3 and the cell outside the columns stay as
    they are. *)
Lemma bakeTableStripes_frame_witness :
  let ws' := bakeTableStripes Samples.stripeSheet 2 4 2 in
  cell_style (getCell Samples.stripeSheet 4 2) =
    {| numFmt := Some "0.00"; font := Some [("bold", "true")]; alignment := None;
       protection := None; border := None;
       fill := Some (FillPattern "solid" (Some {| argb := "FF00FF00" |}) None) |}
  ∧ cell_style (getCell ws' 4 2) =
    {| numFmt := None; font := Some [("bold", "true")]; alignment := Some [];
       protection := None; border := Some [];
       fill := Some (FillPattern "solid" (Some {| argb := "FFD9E2F3" |})
                       (Some {| argb := "FFD9E2F3" |})) |}
  ∧ cell_value (getCell ws' 4 2) = VNum 7
  ∧ getCell ws' 3 1 = getCell Samples.stripeSheet 3 1
  ∧ getCell ws' 4 3 = getCell Samples.stripeSheet 4 3.
Proof.
  intros ws'. subst ws'.
  pose proof (bakeTableStripes_frame Samples.stripeSheet 2 4 2) as (_ & Hb & Hc & Hd & He).
  split; [reflexivity|]. split; [|split; [|split]].
  - exact (Hb 4%Z 2%Z ltac:(lia) ltac:(lia) eq_refl).
  - rewrite Hd. reflexivity.
  - apply Hc. reflexivity.
  - apply He. lia.
Defined.

(** ** setCell *)

Lemma setCell_other ws r c v r' c' :
  (r, c) ≠ (r', c') → getCell (setCell ws r c v) r' c' = getCell ws r' c'.
Proof.
  intros Hne. unfold setCell.
  destruct v as [[[|a s]|n]|]; try done;
    rewrite getCell_setValue; by case_decide.
Qed.

Lemma setCell_str_same ws r c s :
  s ≠ "" → cell_value (getCell (setCell ws r c (Some (SStr s))) r c) = VStr s.
Proof.
  intros Hs. destruct s as [|a s]; [done|]. simpl.
  rewrite getCell_setValue. by case_decide.
Qed.

Lemma setCell_style ws r c v r' c' :
  cell_style (getCell (setCell ws r c v) r' c') = cell_style (getCell ws r' c').
Proof.
  unfold setCell.
  destruct v as [[[|a s]|n]|]; try done;
    rewrite getCell_setValue; case_decide; by simplify_eq.
Qed.

Lemma truthy_true s : truthy s = true ↔ s ≠ "".
Proof. unfold truthy. rewrite negb_true_iff, bool_decide_eq_false. done. Qed.

Lemma truthy_false s : truthy s = false ↔ s = "".
Proof. unfold truthy. rewrite negb_false_iff, bool_decide_eq_true. done. Qed.

(** ** The rows that [eachRow] visits *)

Lemma lastRow_bound (l : list (Z * Z * Cell)) kc :
  kc ∈ l → (kc.1.1 ≤ foldr (λ kc : Z * Z * Cell, Z.max kc.1.1) 0 l)%Z.
Proof.
  induction l as [|x l IH]; [by intros ?%elem_of_nil|].
  rewrite elem_of_cons. intros [->|Hin]; simpl; [lia|].
  specialize (IH Hin). lia.
Qed.

Lemma rowHasValues_true ws r :
  rowHasValues ws r = true ↔ ∃ c, cell_value (getCell ws r c) ≠ VNull.
Proof.
  unfold rowHasValues. rewrite existsb_exists. split.
  - intros [[[r0 c] cell] [Hin Hb]].
    apply list_elem_of_In, elem_of_map_to_list in Hin.
    apply andb_prop in Hb as [Hr Hv]. apply bool_decide_eq_true in Hr.
    apply negb_true_iff, bool_decide_eq_false in Hv.
    simpl in *. subst r0. exists c. unfold getCell. by rewrite Hin.
  - intros [c Hc]. unfold getCell in Hc.
    destruct (ws_cells ws !! (r, c)) as [cell|] eqn:E; [|done].
    exists (r, c, cell). split; [by apply list_elem_of_In, elem_of_map_to_list|].
    apply andb_true_intro. split; [by apply bool_decide_eq_true|].
    by apply negb_true_iff, bool_decide_eq_false.
Qed.

Lemma rowHasValues_lastRow ws r :
  rowHasValues ws r = true → (r ≤ lastRow ws)%Z.
Proof.
  unfold rowHasValues, lastRow. rewrite existsb_exists.
  intros [[[r0 c] cell] [Hin Hb]]. apply list_elem_of_In in Hin.
  apply andb_prop in Hb as [Hr _]. apply bool_decide_eq_true in Hr. simpl in Hr. subst r0.
  by apply (lastRow_bound _ (r, c, cell)).
Qed.

Lemma elem_of_eachRowNumbers ws r :
  r ∈ eachRowNumbers ws ↔ (1 ≤ r)%Z ∧ ∃ c, cell_value (getCell ws r c) ≠ VNull.
Proof.
  unfold eachRowNumbers. rewrite list_elem_of_filter, elem_of_seqZ, <-rowHasValues_true.
  split; [naive_solver lia|].
  intros [H1 Hv]. split; [done|]. apply rowHasValues_lastRow in Hv as ?. lia.
Qed.

Lemma StronglySorted_filter {A} (R : relation A) (P : A → Prop) `{!∀ x, Decision (P x)} l :
  StronglySorted R l → StronglySorted R (filter P l).
Proof.
  induction 1 as [|x l Hs IH Hall]; [constructor|].
  rewrite filter_cons. case_decide; [|done].
  constructor; [done|].
  apply Forall_forall. intros y [_ Hy]%list_elem_of_filter.
  by eapply Forall_forall in Hall.
Qed.

Lemma eachRowNumbers_sorted ws : StronglySorted Z.lt (eachRowNumbers ws).
Proof.
  unfold eachRowNumbers. apply StronglySorted_filter.
  generalize 1%Z. generalize (lastRow ws). intros n.
  destruct (decide (0 ≤ n)%Z) as [Hn|Hn].
  - rewrite <-(Z2Nat.id n) by done. generalize (Z.to_nat n). clear.
    intros k. induction k as [|k IH]; intros s; [constructor|].
    rewrite Nat2Z.inj_succ, seqZ_cons by lia.
    replace (Z.pred (Z.succ (Z.of_nat k))) with (Z.of_nat k) by lia.
    constructor; [apply IH|].
    apply Forall_forall. intros x. rewrite elem_of_seqZ. lia.
  - intros s. rewrite seqZ_nil by lia. constructor.
Qed.

(** ** The section code scan *)

Lemma codeMap_fold_lookup ws (rows : list Z) : ∀ (acc : gmap string Z) code row,
  foldl (λ (map : gmap string Z) rowNumber,
           let val := trim (jsString (cell_value (getCell ws rowNumber 1))) in
           if isSectionCode val then <[val := rowNumber]> map else map) acc rows !! code
    = Some row →
  acc !! code = Some row
  ∨ (row ∈ rows ∧ codeOfRow ws row = code ∧ isSectionCode code = true).
Proof.
  induction rows as [|r rows IH]; intros acc code row; simpl; [by left|].
  intros H. apply IH in H as [H|(Hin & Hk & Hc)].
  - fold (codeOfRow ws r) in H.
    destruct (isSectionCode (codeOfRow ws r)) eqn:E; [|by left].
    rewrite lookup_insert in H. case_decide; [|by left].
    simplify_eq. right. split; [by left|done].
  - right. split; [by right|done].
Qed.

Lemma codeMap_fold_is_Some ws (rows : list Z) : ∀ (acc : gmap string Z) code,
  is_Some (acc !! code)
  ∨ (∃ row, row ∈ rows ∧ codeOfRow ws row = code ∧ isSectionCode code = true) →
  is_Some (foldl (λ (map : gmap string Z) rowNumber,
           let val := trim (jsString (cell_value (getCell ws rowNumber 1))) in
           if isSectionCode val then <[val := rowNumber]> map else map) acc rows !! code).
Proof.
  induction rows as [|r rows IH]; intros acc code; simpl.
  - intros [H|(row & Hin & _)]; [done|]. by apply elem_of_nil in Hin.
  - intros H. apply IH. fold (codeOfRow ws r).
    destruct H as [H|(row & Hin & Hk & Hc)].
    + left. destruct (isSectionCode (codeOfRow ws r)); [|done].
      rewrite lookup_insert. by case_decide.
    + apply elem_of_cons in Hin as [->|Hin].
      * left. rewrite Hk, Hc. rewrite lookup_insert_eq. by eexists.
      * right. by exists row.
Qed.

Lemma isSectionCode_nonempty code : isSectionCode code = true → code ≠ "".
Proof. by destruct code. Qed.

Lemma codeOfRow_value ws r :
  codeOfRow ws r ≠ "" → cell_value (getCell ws r 1) ≠ VNull.
Proof. unfold codeOfRow. intros H Hv. by rewrite Hv in H. Qed.

(** A code is in the map exactly when some row from 1 on shows it in
    column A; the row the map gives shows that code. *)
Lemma buildCodeToRowMap_Some ws code row :
  buildCodeToRowMap ws !! code = Some row →
  (1 ≤ row)%Z ∧ codeOfRow ws row = code ∧ isSectionCode code = true.
Proof.
  unfold buildCodeToRowMap. intros H.
  apply codeMap_fold_lookup in H as [H|(Hin & Hk & Hc)]; [by rewrite lookup_empty in H|].
  apply elem_of_eachRowNumbers in Hin as [H1 _]. done.
Qed.

Lemma buildCodeToRowMap_found ws code :
  is_Some (buildCodeToRowMap ws !! code) ↔
  isSectionCode code = true ∧ ∃ row, (1 ≤ row)%Z ∧ codeOfRow ws row = code.
Proof.
  split.
  - intros [row H]. apply buildCodeToRowMap_Some in H as (? & ? & ?). eauto.
  - intros [Hc (row & H1 & Hk)]. unfold buildCodeToRowMap.
    apply codeMap_fold_is_Some. right. exists row. split; [|done].
    apply elem_of_eachRowNumbers. split; [done|]. exists 1%Z.
    apply codeOfRow_value. rewrite Hk. by apply isSectionCode_nonempty.
Qed.

Lemma buildCodeToRowMap_inj ws code1 code2 row :
  buildCodeToRowMap ws !! code1 = Some row →
  buildCodeToRowMap ws !! code2 = Some row → code1 = code2.
Proof.
  intros (_ & H1 & _)%buildCodeToRowMap_Some (_ & H2 & _)%buildCodeToRowMap_Some.
  congruence.
Qed.

(** ** The checklist filler *)

Lemma fillChecklistHeader_other ws inspection r c :
  (r, c) ∉ [(2, 2); (2, 4); (3, 2); (3, 4)]%Z →
  getCell (fillChecklistHeader ws inspection) r c = getCell ws r c.
Proof.
  intros Hout. unfold fillChecklistHeader.
  assert ((2, 2)%Z ≠ (r, c) ∧ (2, 4)%Z ≠ (r, c) ∧ (3, 2)%Z ≠ (r, c) ∧ (3, 4)%Z ≠ (r, c))
    as (H1 & H2 & H3 & H4).
  { repeat split; intros Heq; apply Hout; rewrite <-Heq; set_solver. }
  destruct (truthy _); rewrite !setCell_other by done; done.
Qed.

Lemma fillChecklistItem_other codeToRow ws item r c :
  codeToRow !! sectionCode item ≠ Some r →
  getCell (fillChecklistItem codeToRow ws item) r c = getCell ws r c.
Proof.
  intros Hne. unfold fillChecklistItem.
  destruct (codeToRow !! sectionCode item) as [row|]; [|done].
  assert (row ≠ r) by congruence.
  destruct (truthy (item_status item)), (truthy (item_notes item));
    rewrite ?setCell_other by congruence; done.
Qed.

Lemma fillChecklistItems_other codeToRow (items : list ChecklistItem) : ∀ ws r c,
  (∀ item, item ∈ items → codeToRow !! sectionCode item ≠ Some r) →
  getCell (foldl (fillChecklistItem codeToRow) ws items) r c = getCell ws r c.
Proof.
  induction items as [|item items IH]; intros ws r c Hall; simpl; [done|].
  rewrite IH by (intros; apply Hall; by right).
  apply fillChecklistItem_other, Hall. by left.
Qed.

Lemma fillChecklistItem_row codeToRow ws item row :
  codeToRow !! sectionCode item = Some row →
  cell_value (getCell (fillChecklistItem codeToRow ws item) row 3) =
    (if truthy (item_status item) then VStr (item_status item)
     else cell_value (getCell ws row 3))
  ∧ cell_value (getCell (fillChecklistItem codeToRow ws item) row 4) =
    (if truthy (item_notes item) then VStr (item_notes item)
     else cell_value (getCell ws row 4)).
Proof.
  intros Hrow. unfold fillChecklistItem. rewrite Hrow.
  destruct (truthy (item_status item)) eqn:Es, (truthy (item_notes item)) eqn:En;
    rewrite ?truthy_true in *; split;
    rewrite ?(setCell_other _ row 4 _ row 3), ?(setCell_other _ row 3 _ row 4) by congruence;
    rewrite ?setCell_str_same by done; done.
Qed.

Lemma fillChecklistItems_row codeToRow (items : list ChecklistItem) :
  (∀ c1 c2 r, codeToRow !! c1 = Some r → codeToRow !! c2 = Some r → c1 = c2) →
  NoDup (sectionCode <$> items) →
  ∀ ws item row,
  item ∈ items → codeToRow !! sectionCode item = Some row →
  cell_value (getCell (foldl (fillChecklistItem codeToRow) ws items) row 3) =
    (if truthy (item_status item) then VStr (item_status item)
     else cell_value (getCell ws row 3))
  ∧ cell_value (getCell (foldl (fillChecklistItem codeToRow) ws items) row 4) =
    (if truthy (item_notes item) then VStr (item_notes item)
     else cell_value (getCell ws row 4)).
Proof.
  intros Hinj. induction items as [|it items IH]; intros Hnd ws item row Hin Hrow.
  { by apply elem_of_nil in Hin. }
  rewrite fmap_cons in Hnd. apply NoDup_cons in Hnd as [Hfresh Hnd].
  simpl. apply elem_of_cons in Hin as [->|Hin].
  - rewrite !fillChecklistItems_other; [by apply fillChecklistItem_row|..];
      intros other Ho Hsame; apply Hfresh;
      rewrite (Hinj _ _ _ Hrow Hsame); by apply list_elem_of_fmap_2.
  - destruct (IH Hnd (fillChecklistItem codeToRow ws it) item row Hin Hrow) as [H3 H4].
    rewrite H3, H4.
    assert (codeToRow !! sectionCode it ≠ Some row) as Hne.
    { intros Hsame. apply Hfresh. rewrite (Hinj _ _ _ Hsame Hrow).
      by apply list_elem_of_fmap_2. }
    rewrite !fillChecklistItem_other by done. done.
Qed.

(** C3 (as amended).  For a checklist with distinct section codes: an item
    whose code the scan finds has its status in column 3 and its notes in
    column 4 of the row found when the value is non-empty, and otherwise the
    cell keeps the value it had when the item loop started, which is the
    value before the fill everywhere except in the four header cells
    (2,2), (2,4), (3,2), (3,4); an item whose code is not found changes
    nothing. *)
Theorem fillChecklistSheet_items ws inspection :
  NoDup (sectionCode <$> checklist inspection) →
  let header := fillChecklistHeader ws inspection in
  let codeToRow := buildCodeToRowMap header in
  let ws' := fillChecklistSheet ws inspection in
  (∀ code, is_Some (codeToRow !! code) ↔
           isSectionCode code = true ∧ ∃ row, (1 ≤ row)%Z ∧ codeOfRow ws row = code)
  ∧ (∀ item row, item ∈ checklist inspection →
       codeToRow !! sectionCode item = Some row →
       codeOfRow ws row = sectionCode item
       ∧ cell_value (getCell ws' row 3) =
           (if truthy (item_status item) then VStr (item_status item)
            else cell_value (getCell ws row 3))
       ∧ cell_value (getCell ws' row 4) =
           (if truthy (item_notes item) then VStr (item_notes item)
            else cell_value (getCell header row 4)))
  ∧ (∀ r c, (r, c) ∉ [(2, 2); (2, 4); (3, 2); (3, 4)]%Z →
       getCell header r c = getCell ws r c)
  ∧ (∀ item w, codeToRow !! sectionCode item = None →
       fillChecklistItem codeToRow w item = w).
Proof.
  intros Hnd header codeToRow ws'.
  assert (∀ r, codeOfRow header r = codeOfRow ws r) as Hkey.
  { intros r. unfold codeOfRow, header.
    rewrite fillChecklistHeader_other; [done|]. set_solver. }
  split; [|split; [|split]].
  - intros code. unfold codeToRow. rewrite buildCodeToRowMap_found.
    by setoid_rewrite Hkey.
  - intros item row Hin Hrow.
    destruct (fillChecklistItems_row codeToRow (checklist inspection)
                (buildCodeToRowMap_inj header) Hnd header item row Hin Hrow) as [H3 H4].
    split; [|split].
    + apply buildCodeToRowMap_Some in Hrow as (_ & Hk & _). by rewrite <-Hkey.
    + unfold ws', fillChecklistSheet. fold header. fold codeToRow. rewrite H3.
      unfold header. rewrite fillChecklistHeader_other; [done|]. set_solver.
    + unfold ws', fillChecklistSheet. fold header. fold codeToRow. by rewrite H4.
  - intros r c Hout. by apply fillChecklistHeader_other.
  - intros item w Hnone. unfold fillChecklistItem. by rewrite Hnone.
Qed.

Lemma fillChecklistSheet_items_witness :
  let ws' := fillChecklistSheet Samples.codeInHeaderRow Samples.datedInspection in
  cell_value (getCell ws' 5 3) = VStr "ok"
  ∧ cell_value (getCell ws' 5 4) = VStr "keep".
Proof.
  intros ws'. subst ws'.
  assert (NoDup (sectionCode <$> checklist Samples.datedInspection)) as Hnd.
  { compute_done. }
  pose proof (fillChecklistSheet_items Samples.codeInHeaderRow Samples.datedInspection Hnd)
    as (_ & Hitems & Hhdr & _).
  destruct (Hitems (Samples.item "1.2" "ok" "") 5%Z) as (_ & H3 & H4).
  { compute_done. }
  { vm_compute. reflexivity. }
  split; [exact H3|].
  rewrite H4. simpl. rewrite Hhdr; [reflexivity|].
  compute_done.
Defined.

(** Where C3 as stated fails: row 2 of this template shows code 1.1 in
    column A; the item 1.1 has empty notes, yet the cell in column 4 of that
    row holds the inspection date after the fill, not its value before. *)
Lemma fillChecklistSheet_header_overlap :
  let ws := Samples.codeInHeaderRow in
  let inspection := Samples.datedInspection in
  let item := Samples.item "1.1" "" "" in
  item ∈ checklist inspection
  ∧ buildCodeToRowMap (fillChecklistHeader ws inspection) !! sectionCode item = Some 2%Z
  ∧ item_notes item = ""
  ∧ cell_value (getCell ws 2 4) = VNull
  ∧ cell_value (getCell (fillChecklistSheet ws inspection) 2 4) = VStr "2024-05-01"
  ∧ cell_value (getCell (fillChecklistSheet ws inspection) 2 4) ≠ cell_value (getCell ws 2 4).
Proof.
  split; [|split; [|split; [|split; [|split]]]].
  - compute_done.
  - vm_compute. reflexivity.
  - reflexivity.
  - vm_compute. reflexivity.
  - vm_compute. reflexivity.
  - vm_compute. discriminate.
Qed.

(** ** The AC filler and the serial rows *)

Lemma serialRows_filter ws :
  serialRows ws = filter (λ r, isSerialRow ws r = true) (eachRowNumbers ws).
Proof.
  unfold serialRows. generalize (eachRowNumbers ws). intros rows.
  enough (∀ acc, foldl (λ rows0 rowNumber,
            let bVal := jsString (cell_value (getCell ws rowNumber 2)) in
            if startsWith bVal SERIAL_MARKER then rows0 ++ [rowNumber] else rows0) acc rows
          = acc ++ filter (λ r, isSerialRow ws r = true) rows) as H by apply H.
  induction rows as [|r rows IH]; intros acc; simpl.
  - by rewrite app_nil_r.
  - rewrite IH, filter_cons. fold (isSerialRow ws r).
    destruct (isSerialRow ws r) eqn:E.
    + rewrite decide_True by done. by rewrite <-app_assoc.
    + rewrite decide_False by done. done.
Qed.

Lemma serialRows_sorted ws : StronglySorted Z.lt (serialRows ws).
Proof. rewrite serialRows_filter. apply StronglySorted_filter, eachRowNumbers_sorted. Qed.

Lemma elem_of_serialRows ws r :
  r ∈ serialRows ws ↔ (1 ≤ r)%Z ∧ isSerialRow ws r = true.
Proof.
  rewrite serialRows_filter, list_elem_of_filter, elem_of_eachRowNumbers.
  split; [naive_solver|]. intros [H1 Hs]. split; [done|]. split; [done|].
  exists 2%Z. intros Hnull. unfold isSerialRow in Hs. rewrite Hnull in Hs. done.
Qed.

Lemma sorted_NoDup (l : list Z) : StronglySorted Z.lt l → NoDup l.
Proof.
  induction 1 as [|x l Hs IH Hall]; constructor; [|done].
  intros Hin. eapply Forall_forall in Hall; [|done]. lia.
Qed.

Lemma sorted_lists_eq (l1 l2 : list Z) :
  StronglySorted Z.lt l1 → StronglySorted Z.lt l2 → (∀ x, x ∈ l1 ↔ x ∈ l2) → l1 = l2.
Proof.
  intros H1 H2 Hel.
  apply (StronglySorted_unique_strong Z.lt); [intros; lia|done|done|].
  apply NoDup_Permutation; [by apply sorted_NoDup..|done].
Qed.

Lemma fillAcItem_other codeToRow ws m r c :
  c ≠ 3%Z → c ≠ 4%Z → getCell (fillAcItem codeToRow ws m) r c = getCell ws r c.
Proof.
  intros H3 H4. unfold fillAcItem.
  destruct (codeToRow !! itemCode m) as [row|]; [|done].
  destruct (truthy (ac_notes m)), (ac_result m) as [v|];
    try case_bool_decide; rewrite ?setCell_other by congruence; done.
Qed.

Lemma fillAcItems_other codeToRow (items : list AcMeasurement) : ∀ ws r c,
  c ≠ 3%Z → c ≠ 4%Z →
  getCell (foldl (fillAcItem codeToRow) ws items) r c = getCell ws r c.
Proof.
  induction items as [|m items IH]; intros ws r c H3 H4; simpl; [done|].
  rewrite IH by done. by apply fillAcItem_other.
Qed.

(** The AC results are written to columns 3 and 4 and do not move the
    serial rows. *)
Lemma serialRows_after_items codeToRow ws items :
  serialRows (foldl (fillAcItem codeToRow) ws items) = serialRows ws.
Proof.
  apply sorted_lists_eq; try apply serialRows_sorted.
  intros r. rewrite !elem_of_serialRows. unfold isSerialRow.
  by rewrite fillAcItems_other.
Qed.

Lemma fillSerial_target rows ws serial :
  fillSerial rows ws serial =
  match serialTarget rows serial with
  | Some row => setCell ws row 3 (Some (SStr (serialNumber serial)))
  | None => ws
  end.
Proof.
  unfold fillSerial, serialTarget. cbv zeta.
  destruct (_ && _ && _); [|done]. by destruct (rows !! _).
Qed.

Lemma serialTarget_Some rows serial row :
  serialTarget rows serial = Some row ↔
  (1 ≤ ser_inverterIndex serial)%Z ∧ serialNumber serial ≠ ""
  ∧ rows !! Z.to_nat (ser_inverterIndex serial - 1) = Some row.
Proof.
  unfold serialTarget. cbv zeta.
  destruct (bool_decide (0 ≤ ser_inverterIndex serial - 1)%Z) eqn:E1; simpl.
  2:{ apply bool_decide_eq_false in E1. split; [done|]. intros (? & _); lia. }
  apply bool_decide_eq_true in E1.
  destruct (bool_decide (ser_inverterIndex serial - 1 < Z.of_nat (length rows))%Z) eqn:E2; simpl.
  2:{ apply bool_decide_eq_false in E2. split; [done|].
      intros (_ & _ & Hl). apply lookup_lt_Some in Hl. lia. }
  destruct (truthy (serialNumber serial)) eqn:E3.
  - apply truthy_true in E3. split; [intros; split; [lia|done]|]. by intros (_ & _ & ?).
  - apply truthy_false in E3. split; [done|]. by intros (_ & ? & _).
Qed.

Lemma fillSerial_other rows ws serial r c :
  serialTarget rows serial ≠ Some r ∨ c ≠ 3%Z →
  getCell (fillSerial rows ws serial) r c = getCell ws r c.
Proof.
  intros Hne. rewrite fillSerial_target.
  destruct (serialTarget rows serial) as [row|]; [|done].
  apply setCell_other. intros [= -> <-]. naive_solver.
Qed.

Lemma fillSerials_other rows (serials : list InverterSerial) : ∀ ws r c,
  (∀ serial, serial ∈ serials → serialTarget rows serial ≠ Some r) ∨ c ≠ 3%Z →
  getCell (foldl (fillSerial rows) ws serials) r c = getCell ws r c.
Proof.
  induction serials as [|s serials IH]; intros ws r c Hne; simpl; [done|].
  rewrite IH.
  - apply fillSerial_other. destruct Hne as [Hne|Hne]; [left; apply Hne; by left|by right].
  - destruct Hne as [Hne|Hne]; [left; intros; apply Hne; by right|by right].
Qed.

Lemma fillSerials_row rows (serials : list InverterSerial) :
  NoDup rows →
  NoDup (ser_inverterIndex <$> serials) →
  ∀ ws serial row,
  serial ∈ serials → serialTarget rows serial = Some row →
  cell_value (getCell (foldl (fillSerial rows) ws serials) row 3) = VStr (serialNumber serial).
Proof.
  intros Hrows.
  assert (∀ s1 s2 r, serialTarget rows s1 = Some r → serialTarget rows s2 = Some r →
            ser_inverterIndex s1 = ser_inverterIndex s2) as Hinj.
  { intros s1 s2 r (? & _ & H1)%serialTarget_Some (? & _ & H2)%serialTarget_Some.
    pose proof (NoDup_lookup _ _ _ _ Hrows H1 H2). lia. }
  induction serials as [|s serials IH]; intros Hnd ws serial row Hin Ht.
  { by apply elem_of_nil in Hin. }
  rewrite fmap_cons in Hnd. apply NoDup_cons in Hnd as [Hfresh Hnd].
  simpl. apply elem_of_cons in Hin as [->|Hin].
  - rewrite fillSerials_other.
    + rewrite fillSerial_target, Ht. apply setCell_str_same.
      by apply serialTarget_Some in Ht as (_ & ? & _).
    + left. intros other Ho Hsame. apply Hfresh.
      rewrite (Hinj _ _ _ Ht Hsame). by apply list_elem_of_fmap_2.
  - by apply IH.
Qed.

(** C5 (as amended).  The rows whose column-B text begins with the marker
    are collected in document order; a serial with a non-empty number is
    written to column 3 of the N-th of them where N is its inverterIndex
    (inverter indices distinct); a serial whose index is below 1 or above
    the number of marker rows, or whose number is empty, changes nothing.
    When the k-th serial of the list carries index k, N is the list
    position. *)
Theorem fillAcSheet_serials ws inspection :
  let rows := serialRows ws in
  let ws' := fillAcSheet ws inspection in
  StronglySorted Z.lt rows
  ∧ (∀ r, r ∈ rows ↔ (1 ≤ r)%Z ∧ isSerialRow ws r = true)
  ∧ (NoDup (ser_inverterIndex <$> inverterSerials inspection) →
     ∀ serial row, serial ∈ inverterSerials inspection →
       serialNumber serial ≠ "" →
       (1 ≤ ser_inverterIndex serial)%Z →
       rows !! Z.to_nat (ser_inverterIndex serial - 1) = Some row →
       cell_value (getCell ws' row 3) = VStr (serialNumber serial))
  ∧ (∀ serial w,
       (ser_inverterIndex serial < 1)%Z
       ∨ (Z.of_nat (length rows) < ser_inverterIndex serial)%Z
       ∨ serialNumber serial = "" →
       fillSerial rows w serial = w)
  ∧ ((∀ k serial, inverterSerials inspection !! k = Some serial →
        ser_inverterIndex serial = (Z.of_nat k + 1)%Z) →
     ∀ k serial row, inverterSerials inspection !! k = Some serial →
       serialNumber serial ≠ "" →
       rows !! k = Some row →
       cell_value (getCell ws' row 3) = VStr (serialNumber serial)).
Proof.
  intros rows ws'.
  assert (NoDup (ser_inverterIndex <$> inverterSerials inspection) →
     ∀ serial row, serial ∈ inverterSerials inspection →
       serialNumber serial ≠ "" →
       (1 ≤ ser_inverterIndex serial)%Z →
       rows !! Z.to_nat (ser_inverterIndex serial - 1) = Some row →
       cell_value (getCell ws' row 3) = VStr (serialNumber serial)) as Hidx.
  { intros Hnd serial row Hin Hsn H1 Hrow.
    unfold ws', fillAcSheet. cbv zeta. rewrite serialRows_after_items. fold rows.
    apply fillSerials_row; [apply sorted_NoDup, serialRows_sorted|done|done|].
    by apply serialTarget_Some. }
  split; [apply serialRows_sorted|]. split; [apply elem_of_serialRows|].
  split; [exact Hidx|]. split.
  - intros serial w Hout. rewrite fillSerial_target.
    destruct (serialTarget rows serial) as [row|] eqn:E; [|done].
    apply serialTarget_Some in E as (H1 & Hsn & Hl).
    apply lookup_lt_Some in Hl. destruct Hout as [?|[?|?]]; [lia|lia|done].
  - intros Hpos k serial row Hk Hsn Hrow.
    apply Hidx; [|by eapply list_elem_of_lookup_2|done|..].
    + apply NoDup_alt. intros i j x Hi Hj.
      rewrite list_lookup_fmap in Hi, Hj.
      destruct (inverterSerials inspection !! i) as [si|] eqn:Ei; [|done].
      destruct (inverterSerials inspection !! j) as [sj|] eqn:Ej; [|done].
      apply Hpos in Ei, Ej. simpl in *. simplify_eq. lia.
    + rewrite (Hpos _ _ Hk). lia.
    + rewrite (Hpos _ _ Hk). by replace (Z.to_nat (Z.of_nat k + 1 - 1)) with k by lia.
Qed.

Lemma fillAcSheet_serials_witness :
  let ws' := fillAcSheet Samples.serialSheet
               (Samples.inspectionOf Samples.emptyMeta []
                  [Samples.serial 1 "SN-A"; Samples.serial 2 "SN-B"; Samples.serial 3 "SN-C"]) in
  cell_value (getCell ws' 6 3) = VStr "SN-B".
Proof.
  intros ws'. subst ws'.
  pose proof (fillAcSheet_serials Samples.serialSheet
                (Samples.inspectionOf Samples.emptyMeta []
                   [Samples.serial 1 "SN-A"; Samples.serial 2 "SN-B"; Samples.serial 3 "SN-C"]))
    as (_ & _ & Hidx & _ & _).
  apply (Hidx ltac:(compute_done) (Samples.serial 2 "SN-B")).
  - compute_done.
  - discriminate.
  - simpl. lia.
  - vm_compute. reflexivity.
Defined.

(** Where C5 as stated fails: a list of one serial, with inverterIndex 2
    (it is sorted by index).  The serial is first in the list, but it is
    written to the second marker row, and the first marker row stays
    empty. *)
Lemma fillAcSheet_serial_by_index_not_position :
  let inspection := Samples.inspectionOf Samples.emptyMeta [] [Samples.serial 2 "SN-B"] in
  let ws' := fillAcSheet Samples.serialSheet inspection in
  inverterSerials inspection !! 0%nat = Some (Samples.serial 2 "SN-B")
  ∧ serialRows Samples.serialSheet = [5; 6]%Z
  ∧ cell_value (getCell ws' 5 3) = VNull
  ∧ cell_value (getCell ws' 5 3) ≠ VStr "SN-B"
  ∧ cell_value (getCell ws' 6 3) = VStr "SN-B".
Proof.
  repeat split; try (vm_compute; reflexivity). vm_compute. discriminate.
Qed.

(** ** The export *)

Lemma runExport_unfold w inspection allDefects :
  runExport w inspection allDefects =
  match fetch w "/template.xlsx" with
  | inl msg => ([EFetch "/template.xlsx"], inl msg)
  | inr response =>
      if negb (resp_ok response)
      then ([EFetch "/template.xlsx"],
            inl ("Failed to load template: " +:+ pretty (resp_status response)))
      else
        match xlsx_load w (resp_arrayBuffer response) with
        | inl msg => ([EFetch "/template.xlsx"; ELoad (resp_arrayBuffer response)], inl msg)
        | inr wb0 =>
            match fillWorkbook wb0 inspection allDefects with
            | inl msg => ([EFetch "/template.xlsx"; ELoad (resp_arrayBuffer response)], inl msg)
            | inr wb =>
                match xlsx_writeBuffer w wb with
                | inl msg =>
                    ([EFetch "/template.xlsx"; ELoad (resp_arrayBuffer response);
                      EWriteBuffer wb], inl msg)
                | inr out =>
                    ([EFetch "/template.xlsx"; ELoad (resp_arrayBuffer response);
                      EWriteBuffer wb; ECreateObjectURL out XLSX_MIME;
                      EAnchorClick (createObjectURL w out) (downloadName inspection);
                      ERevokeObjectURL (createObjectURL w out)], inr tt)
                end
            end
        end
  end.
Proof.
  unfold runExport, downloadWorkbook, loadTemplate, mbind, IO_bind, io_bind, io_call, io_lift,
    io_throw, io_ret.
  simpl. destruct (fetch w "/template.xlsx") as [msg|response]; [done|].
  destruct (resp_ok response); simpl; [|done].
  destruct (xlsx_load w (resp_arrayBuffer response)) as [msg|wb0]; [done|].
  destruct (fillWorkbook wb0 inspection allDefects) as [msg|wb]; [done|].
  simpl. destruct (xlsx_writeBuffer w wb) as [msg|out]; done.
Qed.

(** C4. When the template fetch answers with a non-success response, the
    export throws and the only call made is the fetch: nothing is parsed,
    serialized or downloaded.  In every run, an anchor click in the event log
    comes after the fetch, the parse, the fill and the serialization, all of
    which succeeded. *)
Theorem downloadWorkbook_fetch_failure w inspection allDefects :
  (∀ response, fetch w "/template.xlsx" = inr response → resp_ok response = false →
     runExport w inspection allDefects =
       ([EFetch "/template.xlsx"],
        inl ("Failed to load template: " +:+ pretty (resp_status response)))
     ∧ ∀ href download, EAnchorClick href download ∉ (runExport w inspection allDefects).1)
  ∧ (∀ href download, EAnchorClick href download ∈ (runExport w inspection allDefects).1 →
     ∃ response wb0 wb out,
       fetch w "/template.xlsx" = inr response ∧ resp_ok response = true
       ∧ xlsx_load w (resp_arrayBuffer response) = inr wb0
       ∧ fillWorkbook wb0 inspection allDefects = inr wb
       ∧ xlsx_writeBuffer w wb = inr out
       ∧ runExport w inspection allDefects =
           ([EFetch "/template.xlsx"; ELoad (resp_arrayBuffer response);
             EWriteBuffer wb; ECreateObjectURL out XLSX_MIME;
             EAnchorClick href download; ERevokeObjectURL href], inr tt)).
Proof.
  split.
  - intros response Hf Hok. rewrite runExport_unfold, Hf, Hok. simpl.
    split; [done|]. intros href download Hin.
    apply list_elem_of_singleton in Hin. done.
  - intros href download. rewrite runExport_unfold.
    destruct (fetch w "/template.xlsx") as [msg|response] eqn:Hf.
    { simpl. intros Hin. apply list_elem_of_singleton in Hin. done. }
    destruct (resp_ok response) eqn:Hok; simpl.
    2:{ intros Hin. apply list_elem_of_singleton in Hin. done. }
    destruct (xlsx_load w (resp_arrayBuffer response)) as [msg|wb0] eqn:Hl.
    { simpl. rewrite !elem_of_cons, elem_of_nil. naive_solver. }
    destruct (fillWorkbook wb0 inspection allDefects) as [msg|wb] eqn:Hw.
    { simpl. rewrite !elem_of_cons, elem_of_nil. naive_solver. }
    destruct (xlsx_writeBuffer w wb) as [msg|out] eqn:Ho.
    { simpl. rewrite !elem_of_cons, elem_of_nil. naive_solver. }
    simpl. rewrite !elem_of_cons, elem_of_nil.
    intros [?|[?|[?|[?|[Heq|[?|?]]]]]]; try done.
    injection Heq as -> ->. exists response, wb0, wb, out. done.
Qed.

Lemma downloadWorkbook_fetch_failure_witness :
  runExport (Samples.world false 404) Samples.datedInspection None =
    ([EFetch "/template.xlsx"], inl "Failed to load template: 404").
Proof.
  destruct (downloadWorkbook_fetch_failure (Samples.world false 404)
              Samples.datedInspection None) as [Hfail _].
  destruct (Hfail {| resp_ok := false; resp_status := 404; resp_arrayBuffer := "PK" |})
    as [Hrun _]; [reflexivity|reflexivity|].
  exact Hrun.
Defined.

(** *** Cell writes leave the name and the tables of a worksheet alone *)

Lemma wsMeta_foldl {B} (f : Worksheet → B → Worksheet) (l : list B) :
  (∀ ws x, wsMeta (f ws x) = wsMeta ws) → ∀ ws, wsMeta (foldl f ws l) = wsMeta ws.
Proof.
  intros Hf. induction l as [|x l IH]; intros ws; simpl; [done|]. by rewrite IH.
Qed.

Lemma wsMeta_setCell ws r c v : wsMeta (setCell ws r c v) = wsMeta ws.
Proof. unfold setCell. by destruct v as [[[|a s]|n]|]. Qed.

Lemma wsMeta_paintRow ws r n color : wsMeta (paintRow ws r n color) = wsMeta ws.
Proof. unfold paintRow. by apply wsMeta_foldl. Qed.

Lemma wsMeta_bakeTableStripes ws startRow endRow colCount :
  wsMeta (bakeTableStripes ws startRow endRow colCount) = wsMeta ws.
Proof.
  unfold bakeTableStripes. cbv zeta.
  generalize (scanFilledRows ws startRow endRow). intros flagged.
  generalize (rowRange startRow endRow), 0%Z.
  intros rows. revert ws. induction rows as [|r rows IH]; intros ws i; simpl; [done|].
  unfold stripeStep at 2. simpl. rewrite IH.
  case_bool_decide; [done|apply wsMeta_paintRow].
Qed.

Lemma wsMeta_fillChecklistSheet ws inspection :
  wsMeta (fillChecklistSheet ws inspection) = wsMeta ws.
Proof.
  unfold fillChecklistSheet. cbv zeta. rewrite wsMeta_foldl.
  - unfold fillChecklistHeader. cbv zeta.
    destruct (truthy _); rewrite !wsMeta_setCell; done.
  - intros w item. unfold fillChecklistItem.
    destruct (_ !! _); [|done].
    destruct (truthy (item_status item)), (truthy (item_notes item));
      by rewrite ?wsMeta_setCell.
Qed.

Lemma wsMeta_fillAcSheet ws inspection :
  wsMeta (fillAcSheet ws inspection) = wsMeta ws.
Proof.
  unfold fillAcSheet. cbv zeta. rewrite wsMeta_foldl.
  - apply wsMeta_foldl. intros w m. unfold fillAcItem.
    destruct (_ !! _); [|done].
    destruct (truthy (ac_notes m)), (ac_result m) as [v|];
      try case_bool_decide; by rewrite ?wsMeta_setCell.
  - intros w serial. rewrite fillSerial_target.
    destruct (serialTarget _ _); [apply wsMeta_setCell|done].
Qed.

Lemma wsMeta_fillDefectsSheet ws defects :
  wsMeta (fillDefectsSheet ws defects) = wsMeta ws.
Proof.
  unfold fillDefectsSheet. apply wsMeta_foldl.
  intros w [i d]. unfold fillDefectRow. cbv zeta. by rewrite !wsMeta_setCell.
Qed.

Lemma wsMeta_writeIfDefined ws r c v : wsMeta (writeIfDefined ws r c v) = wsMeta ws.
Proof. destruct v; [apply wsMeta_setCell|done]. Qed.

Lemma wsMeta_fillDcRow st entry : wsMeta (fillDcRow st entry).1 = wsMeta st.1.
Proof.
  destruct st as [ws row]. unfold fillDcRow. cbn [fst].
  by rewrite !wsMeta_writeIfDefined, wsMeta_setCell.
Qed.

Lemma wsMeta_fillDcRows (tree : list TreeEntry) : ∀ st,
  wsMeta (foldl fillDcRow st tree).1 = wsMeta st.1.
Proof.
  induction tree as [|e tree IH]; intros st; cbn [foldl]; [done|].
  by rewrite IH, wsMeta_fillDcRow.
Qed.

Lemma wsMeta_fillDcInverter inspection st config st' :
  fillDcInverter inspection st config = Some st' → wsMeta st'.1 = wsMeta st.1.
Proof.
  unfold fillDcInverter. cbv zeta.
  destruct (getOrderedDcTree _ _) as [tree|]; [|done].
  intros [= <-]. rewrite wsMeta_fillDcRows. reflexivity.
Qed.

Lemma wsMeta_fillDcInverters inspection (configs : list InverterConfig) : ∀ acc st',
  foldl (λ acc config, st ← acc; fillDcInverter inspection st config) acc configs = Some st' →
  ∃ st, acc = Some st ∧ wsMeta st'.1 = wsMeta st.1.
Proof.
  induction configs as [|config configs IH]; intros acc st' H; cbn [foldl] in H.
  - by exists st'.
  - apply IH in H as (st1 & H1 & Hmeta).
    destruct acc as [st|]; [|done]. cbn [mbind option_bind] in H1.
    exists st. split; [done|]. rewrite Hmeta. by eapply wsMeta_fillDcInverter.
Qed.

Lemma wsMeta_fillDcSheet ws inspection ws' lastRow :
  fillDcSheet ws inspection = Some (ws', lastRow) → wsMeta ws' = wsMeta ws.
Proof.
  unfold fillDcSheet. intros H.
  destruct (foldl _ _ _) as [st'|] eqn:E; [|done].
  cbn [mbind option_bind] in H. injection H as <- _.
  apply wsMeta_fillDcInverters in E as (st & [= <-] & Hmeta). done.
Qed.

Lemma wsMeta_replaceFirst name ws ws' (l : list Worksheet) :
  getWorksheet {| worksheets := l |} name = Some ws →
  wsMeta ws' = wsMeta ws →
  wsMeta <$> replaceFirst name ws' l = wsMeta <$> l.
Proof.
  unfold getWorksheet. simpl. intros Hget Hmeta.
  induction l as [|x l IH]; cbn [replaceFirst]; [done|].
  rewrite filter_cons in Hget. destruct (decide (ws_name x = name)) as [Hx|Hx].
  - cbn [head] in Hget. injection Hget as ->. by rewrite !fmap_cons, Hmeta.
  - by rewrite !fmap_cons, IH.
Qed.

Lemma wsMeta_updateWorksheet wb name ws ws' :
  getWorksheet wb name = Some ws →
  wsMeta ws' = wsMeta ws →
  wsMeta <$> worksheets (updateWorksheet wb name ws') = wsMeta <$> worksheets wb.
Proof. destruct wb as [l]. apply wsMeta_replaceFirst. Qed.

(** *** The table strip *)

Lemma stripTables_fold (ts : list Table) : ∀ ws t,
  t ∈ getTables (foldl (λ ws table,
        if truthy (table_name table) then removeTable ws (table_name table) else ws) ws ts) →
  t ∈ getTables ws ∧ ∀ u, u ∈ ts → table_name u ≠ "" → table_name t ≠ table_name u.
Proof.
  induction ts as [|u0 ts IH]; intros ws t; simpl.
  - intros Hin. split; [done|]. intros u Hu. by apply elem_of_nil in Hu.
  - intros Hin. apply IH in Hin as [Hin Hrest].
    destruct (truthy (table_name u0)) eqn:E.
    + unfold getTables, removeTable in Hin. simpl in Hin.
      apply list_elem_of_filter in Hin as [Hne Hin]. split; [done|].
      intros u [->|Hu]%elem_of_cons Hnamed; [done|by apply Hrest].
    + apply truthy_false in E. split; [done|].
      intros u [->|Hu]%elem_of_cons Hnamed; [done|by apply Hrest].
Qed.

Lemma stripTables_nameless ws t :
  t ∈ getTables (stripTables ws) → t ∈ getTables ws ∧ table_name t = "".
Proof.
  unfold stripTables. intros [Hin Hrest]%stripTables_fold. split; [done|].
  destruct (decide (table_name t = "")) as [|Hne]; [done|].
  by destruct (Hrest t Hin Hne).
Qed.

Lemma stripTables_name ws : ws_name (stripTables ws) = ws_name ws.
Proof.
  unfold stripTables. generalize (getTables ws). intros ts. revert ws.
  induction ts as [|t ts IH]; intros ws; simpl; [done|].
  rewrite IH. by destruct (truthy (table_name t)).
Qed.

(** The fill keeps the worksheets, their names and, up to the strip, their
    tables. *)
Lemma fillWorkbook_sheets wb0 inspection allDefects wb :
  fillWorkbook wb0 inspection allDefects = inr wb →
  ∃ filled, wsMeta <$> filled = wsMeta <$> worksheets wb0
            ∧ worksheets wb = stripTables <$> filled.
Proof.
  unfold fillWorkbook. cbv zeta.
  set (wb1 := match getWorksheet wb0 SHEET_CHECKLIST with Some _ => _ | None => _ end).
  assert (wsMeta <$> worksheets wb1 = wsMeta <$> worksheets wb0) as H1.
  { unfold wb1. destruct (getWorksheet wb0 SHEET_CHECKLIST) as [wsC|] eqn:E; [|done].
    eapply wsMeta_updateWorksheet; [done|].
    by rewrite wsMeta_bakeTableStripes, wsMeta_fillChecklistSheet. }
  clearbody wb1.
  set (r2 := match getWorksheet wb1 SHEET_DC with Some _ => _ | None => _ end).
  destruct r2 as [msg|wb2] eqn:E2; [done|].
  assert (wsMeta <$> worksheets wb2 = wsMeta <$> worksheets wb1) as H2.
  { unfold r2 in E2. destruct (getWorksheet wb1 SHEET_DC) as [wsD|] eqn:E; [|by simplify_eq].
    destruct (fillDcSheet wsD inspection) as [[wsD' n]|] eqn:Ed; [|done].
    simplify_eq. eapply wsMeta_updateWorksheet; [done|].
    rewrite wsMeta_bakeTableStripes. by eapply wsMeta_fillDcSheet. }
  clear E2. clearbody r2.
  set (wb3 := match getWorksheet wb2 SHEET_AC with Some _ => _ | None => _ end).
  assert (wsMeta <$> worksheets wb3 = wsMeta <$> worksheets wb2) as H3.
  { unfold wb3. destruct (getWorksheet wb2 SHEET_AC) as [wsA|] eqn:E; [|done].
    eapply wsMeta_updateWorksheet; [done|].
    by rewrite wsMeta_bakeTableStripes, wsMeta_fillAcSheet. }
  clearbody wb3.
  set (wb4 := match getWorksheet wb3 SHEET_DEFECTS with Some _ => _ | None => _ end).
  assert (wsMeta <$> worksheets wb4 = wsMeta <$> worksheets wb3) as H4.
  { unfold wb4. destruct (getWorksheet wb3 SHEET_DEFECTS) as [wsF|] eqn:E; [|done].
    eapply wsMeta_updateWorksheet; [done|].
    by rewrite wsMeta_bakeTableStripes, wsMeta_fillDefectsSheet. }
  clearbody wb4.
  intros [= <-]. exists (worksheets wb4). split; [congruence|done].
Qed.

(** What the strip loop does remove.  When the export completes, the workbook
    handed to the serializer has the worksheets of the template, named as in
    the template, and in none of them does a table with a name remain,
    whether or not a filler touched the sheet; when every table of the
    template carries a name, no table remains at all. *)
Lemma downloadWorkbook_strips_tables w inspection allDefects log :
  runExport w inspection allDefects = (log, inr tt) →
  ∃ response wb0 wb,
    fetch w "/template.xlsx" = inr response
    ∧ xlsx_load w (resp_arrayBuffer response) = inr wb0
    ∧ EWriteBuffer wb ∈ log
    ∧ ws_name <$> worksheets wb = ws_name <$> worksheets wb0
    ∧ (∀ ws t, ws ∈ worksheets wb → t ∈ getTables ws → table_name t = "")
    ∧ ((∀ ws0 t, ws0 ∈ worksheets wb0 → t ∈ getTables ws0 → table_name t ≠ "") →
       ∀ ws, ws ∈ worksheets wb → getTables ws = []).
Proof.
  rewrite runExport_unfold.
  destruct (fetch w "/template.xlsx") as [msg|response] eqn:Hf; [done|].
  destruct (resp_ok response); simpl; [|done].
  destruct (xlsx_load w (resp_arrayBuffer response)) as [msg|wb0] eqn:Hl; [done|].
  destruct (fillWorkbook wb0 inspection allDefects) as [msg|wb] eqn:Hw; [done|].
  destruct (xlsx_writeBuffer w wb) as [msg|out] eqn:Ho; [done|].
  intros [= <-]. exists response, wb0, wb.
  apply fillWorkbook_sheets in Hw as (filled & Hmeta & Hwb).
  split; [done|]. split; [done|]. split; [set_solver|]. split; [|split].
  - rewrite Hwb, <-list_fmap_compose.
    transitivity (fst <$> (wsMeta <$> filled)).
    + rewrite <-list_fmap_compose. apply list_fmap_ext. intros ? f _. apply stripTables_name.
    + rewrite Hmeta, <-list_fmap_compose. done.
  - intros ws t Hws Ht. rewrite Hwb in Hws.
    apply list_elem_of_fmap in Hws as (f & -> & _).
    by apply stripTables_nameless in Ht as [_ ?].
  - intros Hnamed ws Hws. rewrite Hwb in Hws.
    apply list_elem_of_fmap in Hws as (f & -> & Hfin).
    destruct (getTables (stripTables f)) as [|t ts] eqn:E; [done|exfalso].
    assert (t ∈ getTables (stripTables f)) as Ht by (rewrite E; left).
    apply stripTables_nameless in Ht as [Ht Hname].
    assert (wsMeta f ∈ wsMeta <$> worksheets wb0) as Hm.
    { rewrite <-Hmeta. by apply list_elem_of_fmap_2. }
    apply list_elem_of_fmap in Hm as (ws0 & Hm0 & Hin0).
    apply (Hnamed ws0 t Hin0); [|done].
    unfold getTables in *. injection Hm0 as _ <-. done.
Qed.

Lemma downloadWorkbook_strips_tables_witness :
  ∃ wb, EWriteBuffer wb ∈ (runExport (Samples.world true 200) Samples.datedInspection None).1
        ∧ ws_name <$> worksheets wb = ws_name <$> worksheets Samples.templateWorkbook
        ∧ ∀ ws, ws ∈ worksheets wb → getTables ws = [].
Proof.
  assert (runExport (Samples.world true 200) Samples.datedInspection None =
          ((runExport (Samples.world true 200) Samples.datedInspection None).1, inr tt)) as Hrun.
  { vm_compute. reflexivity. }
  destruct (downloadWorkbook_strips_tables _ _ _ _ Hrun)
    as (response & wb0 & wb & Hf & Hl & Hev & Hnames & _ & Hnone).
  clear Hrun. injection Hf as <-. injection Hl as <-.
  exists wb. split; [exact Hev|]. split; [exact Hnames|].
  clear Hev Hnames. apply Hnone. clear Hnone. intros ws0 t Hws Ht.
  apply list_elem_of_lookup in Hws as [i Hi].
  destruct i as [|[|i]]; cbn in Hi;
    [injection Hi as <-|injection Hi as <-|discriminate Hi];
    cbn in Ht; apply list_elem_of_singleton in Ht; subst t; discriminate.
Defined.

(** C9, the code at the failing input.  The template has one worksheet with
    one table entry whose name is empty; the table carries an autofilter.
    The loop removes tables by name under the guard [if (table?.name)] and
    skips this entry: the export completes, and the workbook that is
    serialized and downloaded still holds the table and its autofilter,
    against the comment above the loop, which has the loop strip the table
    objects so that the file does not open with the corruption error. *)
Lemma downloadWorkbook_keeps_nameless_table :
  let run := runExport (Samples.worldOf Samples.namelessWorkbook) Samples.datedInspection None in
  (getTables <$> worksheets Samples.namelessWorkbook) = [[Samples.namelessTable]]
  ∧ table_name Samples.namelessTable = ""
  ∧ table_autoFilterRef Samples.namelessTable = Some "A1:B1"
  ∧ run.2 = inr tt
  ∧ ∃ wb ws, EWriteBuffer wb ∈ run.1 ∧ ws ∈ worksheets wb
             ∧ getTables ws = [Samples.namelessTable].
Proof.
  split; [reflexivity|]. split; [reflexivity|]. split; [reflexivity|].
  split; [vm_compute; reflexivity|].
  exists {| worksheets := stripTables <$> worksheets Samples.namelessWorkbook |}.
  eexists. split; [|split].
  - vm_compute. right. right. left.
  - left.
  - reflexivity.
Qed.

(** ** The store: regenerating the measurement set *)

Section StoreFacts.

Variable randomUUID : nat → string.

Lemma generateStrings_length next inv :
  length (generateStrings randomUUID next inv) = cfg_stringCount inv.
Proof. unfold generateStrings. by rewrite length_fmap, length_seq. Qed.

Lemma generateDcMeasurements_length next configs :
  length (generateDcMeasurements randomUUID next configs) = stringTotal configs.
Proof.
  revert next. induction configs as [|inv configs IH]; intros next; simpl; [done|].
  by rewrite length_app, generateStrings_length, IH.
Qed.

Lemma generateDcMeasurements_strings next configs :
  (λ m, (dc_inverterIndex m, dc_stringLabel m)) <$> generateDcMeasurements randomUUID next configs
  = configs ≫= (λ inv, (λ i, (cfg_index inv, rootLabel i)) <$> seq 0 (cfg_stringCount inv)).
Proof.
  revert next. induction configs as [|inv configs IH]; intros next; simpl; [done|].
  rewrite fmap_app, IH. f_equal.
  unfold generateStrings. rewrite <-list_fmap_compose. done.
Qed.

Lemma generateDcMeasurements_blank next configs :
  Forall blankRoot (generateDcMeasurements randomUUID next configs).
Proof.
  revert next. induction configs as [|inv configs IH]; intros next; simpl; [constructor|].
  apply Forall_app. split; [|apply IH].
  unfold generateStrings. apply Forall_fmap, Forall_forall. intros i _.
  repeat split.
Qed.

Lemma generateDcMeasurements_ids next configs :
  dc_id <$> generateDcMeasurements randomUUID next configs
  = randomUUID <$> seq next (stringTotal configs).
Proof.
  revert next. induction configs as [|inv configs IH]; intros next; simpl; [done|].
  rewrite fmap_app, IH, seq_app, fmap_app. f_equal.
  unfold generateStrings. rewrite <-list_fmap_compose.
  replace (seq next (cfg_stringCount inv))
    with (Nat.add next <$> seq 0 (cfg_stringCount inv))
    by (rewrite fmap_add_seq; f_equal; lia).
  rewrite <-list_fmap_compose. done.
Qed.

Lemma regenerated_intro (st : Store) name configs i :
  regenerated randomUUID st
    {| reportName := name;
       inspection := withConfiguration i configs
                       (generateDcMeasurements randomUUID (drawn st) configs)
                       (generateInverterSerials configs);
       drawn := (drawn st + stringTotal configs)%nat |}.
Proof.
  unfold regenerated. simpl.
  rewrite generateDcMeasurements_length.
  split; [apply generateDcMeasurements_strings|].
  split; [apply generateDcMeasurements_blank|].
  split; [apply generateDcMeasurements_ids|]. done.
Qed.

Lemma rootLabel_letter i :
  (i < 26)%nat → rootLabel i = String (ascii_of_nat (65 + i)) EmptyString.
Proof.
  intros Hi. do 26 (destruct i as [|i]; [reflexivity|]). lia.
Qed.

Lemma rootLabel_beyond i :
  (26 ≤ i)%nat → rootLabel i = "S" +:+ pretty (i + 1)%nat.
Proof.
  intros Hi. do 26 (destruct i as [|i]; [lia|]). reflexivity.
Qed.

Lemma updateFirst_None {A} (P : A → bool) f (l : list A) :
  updateFirst P f l = None ↔ ∀ x, x ∈ l → P x = false.
Proof.
  induction l as [|x l IH]; simpl.
  - split; [|done]. intros _ x Hx. by apply elem_of_nil in Hx.
  - destruct (P x) eqn:E.
    + split; [done|]. intros H. specialize (H x ltac:(left)). congruence.
    + rewrite fmap_None, IH. split.
      * intros H y [->|Hy]%elem_of_cons; [done|by apply H].
      * intros H y Hy. apply H. by right.
Qed.

Lemma updateFirst_Some {A} (P : A → bool) f (l l' : list A) :
  updateFirst P f l = Some l' →
  ∃ i x, l !! i = Some x ∧ P x = true
         ∧ (∀ j y, (j < i)%nat → l !! j = Some y → P y = false)
         ∧ l' = <[i := f x]> l.
Proof.
  revert l'. induction l as [|x l IH]; intros l' H; simpl in H; [done|].
  destruct (P x) eqn:E.
  - injection H as <-. exists 0%nat, x. split; [done|]. split; [done|].
    split; [intros j y Hj; lia|done].
  - destruct (updateFirst P f l) as [l1|]; [|done]. injection H as <-.
    destruct (IH l1 eq_refl) as (i & y & Hi & Hy & Hfirst & ->).
    exists (S i), y. split; [done|]. split; [done|]. split; [|done].
    intros [|j] z Hj Hz; simpl in Hz; [by simplify_eq|].
    apply (Hfirst j); [lia|done].
Qed.

(** C8. [setInverterConfigs] always, and [updateInverterConfig] whenever it
    finds the configuration, replace the measurement set by one fresh root
    measurement per string of each configured inverter, labelled A, B, C, ...
    in order (the letters for the first 26 strings, S27, S28, ... beyond),
    with the parent and all six numeric fields unset and identifiers drawn
    anew, and replace the serials by one empty serial per configured
    inverter.  Nothing of the previous measurements or serials is kept.

    The configurations the measurements are generated from are these.
    [setInverterConfigs] numbers the inverters 1..count; the inverter at
    position i keeps the label and the string count of the configuration
    that was at position i, and gets the default label and [defaultStrings]
    strings where there was none.  [updateInverterConfig] replaces, in the
    first configuration whose index is [index], exactly the properties that
    the patch carries, and keeps every other configuration; when no
    configuration has that index it changes nothing.  Neither operation
    touches the report name, the metadata, the checklist, the AC
    measurements or the defects. *)
Theorem inverter_configuration_regenerates (st : Store) :
  (∀ count defaultStrings,
     let st' := setInverterConfigs randomUUID count defaultStrings st in
     regenerated randomUUID st st'
     ∧ length (inverterConfigs (inspection st')) = count
     ∧ (∀ i inv, inverterConfigs (inspection st') !! i = Some inv →
         cfg_index inv = (Z.of_nat i + 1)%Z
         ∧ cfg_stringCount inv =
             match inverterConfigs (inspection st) !! i with
             | Some e => cfg_stringCount e
             | None => defaultStrings
             end
         ∧ cfg_label inv =
             match inverterConfigs (inspection st) !! i with
             | Some e => cfg_label e
             | None => "ממיר " +:+ pretty (i + 1)%nat
             end)
     ∧ reportName st' = reportName st
     ∧ meta (inspection st') = meta (inspection st)
     ∧ checklist (inspection st') = checklist (inspection st)
     ∧ acMeasurements (inspection st') = acMeasurements (inspection st)
     ∧ defects (inspection st') = defects (inspection st))
  ∧ (∀ index updates,
       let st' := updateInverterConfig randomUUID index updates st in
       ((∃ inv, inv ∈ inverterConfigs (inspection st) ∧ cfg_index inv = index) →
        regenerated randomUUID st st'
        ∧ (∃ i inv,
             inverterConfigs (inspection st) !! i = Some inv
             ∧ cfg_index inv = index
             ∧ (∀ j e, (j < i)%nat → inverterConfigs (inspection st) !! j = Some e →
                  cfg_index e ≠ index)
             ∧ inverterConfigs (inspection st') =
                 <[i := {| cfg_index :=
                             match upd_index updates with
                             | Some index' => index'
                             | None => cfg_index inv
                             end;
                           cfg_label :=
                             match upd_label updates with
                             | Some label => label
                             | None => cfg_label inv
                             end;
                           cfg_stringCount :=
                             match upd_stringCount updates with
                             | Some n => n
                             | None => cfg_stringCount inv
                             end |}]> (inverterConfigs (inspection st)))
        ∧ reportName st' = reportName st
        ∧ meta (inspection st') = meta (inspection st)
        ∧ checklist (inspection st') = checklist (inspection st)
        ∧ acMeasurements (inspection st') = acMeasurements (inspection st)
        ∧ defects (inspection st') = defects (inspection st))
       ∧ ((∀ inv, inv ∈ inverterConfigs (inspection st) → cfg_index inv ≠ index) →
          st' = st))
  ∧ (∀ i, (i < 26)%nat → rootLabel i = String (ascii_of_nat (65 + i)) EmptyString)
  ∧ (∀ i, (26 ≤ i)%nat → rootLabel i = "S" +:+ pretty (i + 1)%nat).
Proof.
  split; [|split; [|split]].
  - intros count defaultStrings st'. split; [apply regenerated_intro|].
    unfold st', setInverterConfigs. simpl. split; [|split; [|done]].
    + by rewrite length_fmap, length_seq.
    + intros i inv Hi. rewrite list_lookup_fmap in Hi.
      destruct (seq 0 count !! i) as [j|] eqn:Ej; [|done].
      apply lookup_seq in Ej as [-> _]. simpl in Hi. by simplify_eq.
  - intros index updates st'. unfold st', updateInverterConfig. split.
    + intros (inv & Hin & Hidx).
      destruct (updateFirst _ _ _) as [configs|] eqn:E.
      * split; [apply regenerated_intro|]. split; [|done].
        apply updateFirst_Some in E as (i & x & Hi & Hx & Hfirst & ->).
        apply bool_decide_eq_true in Hx.
        exists i, x. split; [done|]. split; [done|]. split.
        -- intros j e Hj He. specialize (Hfirst j e Hj He).
           by apply bool_decide_eq_false in Hfirst.
        -- simpl. unfold assignConfig.
           by destruct (upd_index updates), (upd_label updates), (upd_stringCount updates).
      * apply updateFirst_None with (x := inv) in E; [|done].
        apply bool_decide_eq_false in E. done.
    + intros Hnone.
      destruct (updateFirst _ _ _) as [configs|] eqn:E; [|done].
      assert (updateFirst (λ c, bool_decide (cfg_index c = index)) (assignConfig updates)
                (inverterConfigs (inspection st)) = None) as Hn.
      { apply updateFirst_None. intros x Hx. apply bool_decide_eq_false. by apply Hnone. }
      congruence.
  - apply rootLabel_letter.
  - apply rootLabel_beyond.
Qed.

End StoreFacts.

(** Two inverters of two strings each; then inverter 2 is renamed and set to
    three strings.  The patch reaches the configuration, and the
    measurements are generated anew from it: two roots for inverter 1 and
    three for inverter 2. *)
Lemma inverter_configuration_regenerates_witness :
  let st := Samples.emptyStore in
  let st' := setInverterConfigs Samples.uuid 2 2 st in
  let st'' := updateInverterConfig Samples.uuid 2
                {| upd_index := None; upd_label := Some "roof"; upd_stringCount := Some 3%nat |}
                st' in
  regenerated Samples.uuid st st' ∧ regenerated Samples.uuid st' st''
  ∧ inverterConfigs (inspection st'') =
      [ {| cfg_index := 1; cfg_label := "ממיר 1"; cfg_stringCount := 2 |};
        {| cfg_index := 2; cfg_label := "roof"; cfg_stringCount := 3 |} ]
  ∧ Samples.brief <$> dcMeasurements (inspection st'') =
      [("id-4", None, "A", 1%Z); ("id-5", None, "B", 1%Z);
       ("id-6", None, "A", 2%Z); ("id-7", None, "B", 2%Z); ("id-8", None, "C", 2%Z)].
Proof.
  intros st st' st''.
  destruct (inverter_configuration_regenerates Samples.uuid st') as (_ & Hupd & _).
  destruct (Hupd 2%Z {| upd_index := None; upd_label := Some "roof";
                        upd_stringCount := Some 3%nat |}) as [Hfound _].
  destruct Hfound as (Hgen & (i & inv & Hi & Hidx & Hfirst & Hconfigs) & _).
  { exists {| cfg_index := 2; cfg_label := "ממיר 2"; cfg_stringCount := 2 |}.
    split; [|reflexivity]. right. left. }
  split; [apply (inverter_configuration_regenerates Samples.uuid st)|].
  split; [exact Hgen|].
  split; vm_compute; reflexivity.
Defined.

(** ** The store: the forest invariants *)

(** Folds in the option monad, the shape of the recursive walks. *)
Lemma foldl_option_None {A B} (F : option A → B → option A) (l : list B) :
  (∀ x, F None x = None) → foldl F None l = None.
Proof. intros HF. induction l as [|x l IH]; simpl; [done|]. by rewrite HF. Qed.

Lemma foldl_option_agree {A B} (F G : option A → B → option A) (l : list B) :
  (∀ x, F None x = None) →
  (∀ a x v, x ∈ l → F (Some a) x = Some v → G (Some a) x = Some v) →
  ∀ acc r, foldl F acc l = Some r → foldl G acc l = Some r.
Proof.
  intros HF. induction l as [|x l IH]; intros HFG acc r H; simpl in *; [done|].
  destruct acc as [a|]; [|by rewrite HF, foldl_option_None in H].
  destruct (F (Some a) x) as [v|] eqn:E; [|by rewrite foldl_option_None in H].
  rewrite (HFG a x v); [|by left|done].
  apply IH; [|done]. intros a' x' v' Hx'. apply HFG. by right.
Qed.

Lemma foldl_option_is_Some {A B} (F : option A → B → option A) (l : list B) :
  (∀ a x, x ∈ l → is_Some (F (Some a) x)) →
  ∀ a, is_Some (foldl F (Some a) l).
Proof.
  induction l as [|x l IH]; intros HF a; simpl; [by eexists|].
  destruct (HF a x ltac:(left)) as [v ->]. apply IH. intros a' x' Hx'. apply HF. by right.
Qed.

Lemma findFirst_Some {A} (P : A → bool) (l : list A) x :
  findFirst P l = Some x → x ∈ l ∧ P x = true.
Proof.
  unfold findFirst. intros H. apply head_Some_elem_of in H.
  apply list_elem_of_filter in H as [? ?]. done.
Qed.

Lemma findFirst_None {A} (P : A → bool) (l : list A) :
  findFirst P l = None → ∀ x, x ∈ l → P x = false.
Proof.
  unfold findFirst. intros H x Hx. apply head_None in H.
  destruct (P x) eqn:E; [|done].
  assert (x ∈ filter (λ x, P x = true) l) as Hin by (by apply list_elem_of_filter).
  rewrite H in Hin. by apply elem_of_nil in Hin.
Qed.

Lemma elem_of_snoc {A} (l : list A) x y : y ∈ l ++ [x] ↔ y ∈ l ∨ y = x.
Proof. by rewrite elem_of_app, list_elem_of_singleton. Qed.

Lemma NoDup_ids_eq (ms : list DcStringMeasurement) m1 m2 :
  NoDup (dc_id <$> ms) → m1 ∈ ms → m2 ∈ ms → dc_id m1 = dc_id m2 → m1 = m2.
Proof.
  intros Hnd [i Hi]%list_elem_of_lookup [j Hj]%list_elem_of_lookup Heq.
  assert (i = j); [|by simplify_eq].
  eapply NoDup_lookup; [done| |]; rewrite list_lookup_fmap.
  - by rewrite Hi.
  - rewrite Hj. simpl. by rewrite Heq.
Qed.

Lemma findById (ms : list DcStringMeasurement) m :
  NoDup (dc_id <$> ms) → m ∈ ms →
  findFirst (λ x, bool_decide (dc_id x = dc_id m)) ms = Some m.
Proof.
  intros Hnd Hin.
  destruct (findFirst _ ms) as [x|] eqn:E.
  - apply findFirst_Some in E as [Hx Hid]. apply bool_decide_eq_true in Hid.
    f_equal. by eapply NoDup_ids_eq.
  - eapply findFirst_None in E; [|done]. by apply bool_decide_eq_false in E.
Qed.

(** *** Depth and the parent-link loop *)

Lemma depthAtMost_S ms n m :
  depthAtMost ms (S n) m =
  match dc_parentId m with
  | None => True
  | Some pid => ∀ p, p ∈ ms → dc_id p = pid → depthAtMost ms n p
  end.
Proof. reflexivity. Qed.

Lemma depthAtMost_mono ms n m : depthAtMost ms n m → depthAtMost ms (S n) m.
Proof.
  revert m. induction n as [|n IH]; intros m; simpl;
    destruct (dc_parentId m) as [pid|]; try done.
  - intros H p Hp Hid. by destruct (H p Hp Hid).
  - intros H p Hp Hid. apply IH. by apply H.
Qed.

Lemma depthAtMost_subset ms ms' n m :
  (∀ x, x ∈ ms' → x ∈ ms) → depthAtMost ms n m → depthAtMost ms' n m.
Proof.
  intros Hsub. revert m. induction n as [|n IH]; intros m; simpl;
    destruct (dc_parentId m) as [pid|]; try done.
  - intros H p Hp Hid. apply (H p); auto.
  - intros H p Hp Hid. apply IH, H; auto.
Qed.

(** Adding a measurement that is nobody's parent changes no depth. *)
Lemma depthAtMost_snoc ms x n m :
  (∀ y, y ∈ ms → dc_parentId y ≠ Some (dc_id x)) →
  m ∈ ms → depthAtMost ms n m → depthAtMost (ms ++ [x]) n m.
Proof.
  intros Hfresh. revert m. induction n as [|n IH]; intros m Hm; simpl;
    destruct (dc_parentId m) as [pid|] eqn:Epar; try done.
  - intros H p [Hp|Hp%list_elem_of_singleton]%elem_of_app Hid.
    + by apply (H p).
    + subst p. exfalso. apply (Hfresh m Hm). by rewrite Epar, Hid.
  - intros H p [Hp|Hp%list_elem_of_singleton]%elem_of_app Hid.
    + apply IH; [done|]. by apply H.
    + subst p. exfalso. apply (Hfresh m Hm). by rewrite Epar, Hid.
Qed.

Lemma parentLinks_S fuel ms cur depth :
  parentLinks (S fuel) ms cur depth =
  match dc_parentId cur with
  | Some pid =>
      if truthy pid then
        match findFirst (λ m, bool_decide (dc_id m = pid)) ms with
        | Some p => parentLinks fuel ms p (S depth)
        | None => Some (S depth)
        end
      else Some depth
  | None => Some depth
  end.
Proof. reflexivity. Qed.

Lemma parentLinks_ge fuel ms : ∀ cur d0 d,
  parentLinks fuel ms cur d0 = Some d → (d0 ≤ d)%nat.
Proof.
  induction fuel as [|fuel IH]; intros cur d0 d H; simpl in H; [done|].
  destruct (dc_parentId cur) as [pid|]; [|by simplify_eq].
  destruct (truthy pid); [|by simplify_eq].
  destruct (findFirst _ ms) as [p|]; [|simplify_eq; lia].
  apply IH in H. lia.
Qed.

(** The count of the loop bounds the depth of the measurement. *)
Lemma parentLinks_depth fuel ms :
  NoDup (dc_id <$> ms) → ("" ∉ dc_id <$> ms) →
  ∀ cur d0 d, parentLinks fuel ms cur d0 = Some d → depthAtMost ms (d - d0) cur.
Proof.
  intros Hnd Hne. induction fuel as [|fuel IH]; intros cur d0 d H; simpl in H; [done|].
  destruct (dc_parentId cur) as [pid|] eqn:Epar.
  2:{ destruct (d - d0)%nat; simpl; by rewrite Epar. }
  destruct (truthy pid) eqn:Et.
  2:{ apply truthy_false in Et. subst pid.
      assert (∀ p, p ∈ ms → dc_id p = "" → False) as Hno.
      { intros p Hp Hid. apply Hne. rewrite <-Hid. by apply list_elem_of_fmap_2. }
      destruct (d - d0)%nat; simpl; rewrite Epar; intros p Hp Hid; by destruct (Hno p). }
  destruct (findFirst _ ms) as [p|] eqn:Ef.
  - apply findFirst_Some in Ef as [Hp Hid]. apply bool_decide_eq_true in Hid.
    pose proof (parentLinks_ge _ _ _ _ _ H) as Hge.
    apply IH in H.
    replace (d - d0)%nat with (S (d - S d0)) by lia. simpl. rewrite Epar.
    intros p' Hp' Hid'.
    assert (p' = p) as -> by (eapply NoDup_ids_eq; [done..|congruence]). done.
  - simplify_eq. replace (S d0 - d0)%nat with 1%nat by lia. simpl. rewrite Epar.
    intros p Hp Hid. eapply findFirst_None in Ef; [|done].
    apply bool_decide_eq_false in Ef. done.
Qed.

(** The loop ends within [n + 1] tests for a measurement of depth at most
    [n], whatever fuel is left beyond that. *)
Lemma parentLinks_total ms n : ∀ cur d0,
  depthAtMost ms n cur →
  ∃ d, ∀ fuel, (n < fuel)%nat → parentLinks fuel ms cur d0 = Some d.
Proof.
  induction n as [|n IH]; intros cur d0 Hd.
  - simpl in Hd. destruct (dc_parentId cur) as [pid|] eqn:Epar.
    + destruct (truthy pid) eqn:Et.
      * destruct (findFirst (λ m, bool_decide (dc_id m = pid)) ms) as [p|] eqn:Ef.
        { apply findFirst_Some in Ef as [Hp Hid]. apply bool_decide_eq_true in Hid.
          by destruct (Hd p). }
        exists (S d0). intros [|fuel] Hf; [lia|]. simpl. by rewrite Epar, Et, Ef.
      * exists d0. intros [|fuel] Hf; [lia|]. simpl. by rewrite Epar, Et.
    + exists d0. intros [|fuel] Hf; [lia|]. simpl. by rewrite Epar.
  - simpl in Hd. destruct (dc_parentId cur) as [pid|] eqn:Epar.
    + destruct (truthy pid) eqn:Et.
      * destruct (findFirst (λ m, bool_decide (dc_id m = pid)) ms) as [p|] eqn:Ef.
        { pose proof Ef as Ef'.
          apply findFirst_Some in Ef' as [Hp Hid]. apply bool_decide_eq_true in Hid.
          destruct (IH p (S d0) (Hd p Hp Hid)) as [d Hdd].
          exists d. intros [|fuel] Hf; [lia|]. simpl. rewrite Epar, Et, Ef.
          apply Hdd. lia. }
        exists (S d0). intros [|fuel] Hf; [lia|]. simpl. by rewrite Epar, Et, Ef.
      * exists d0. intros [|fuel] Hf; [lia|]. simpl. by rewrite Epar, Et.
    + exists d0. intros [|fuel] Hf; [lia|]. simpl. by rewrite Epar.
Qed.

(** *** The descendants of a measurement *)

Lemma getDescendantIds_S fuel ms pid :
  getDescendantIds (S fuel) ms pid =
  foldl (λ acc m,
           ids ← acc;
           if decide (dc_parentId m = Some pid)
           then sub ← getDescendantIds fuel ms (dc_id m);
                Some (ids ++ [dc_id m] ++ sub)
           else Some ids)
        (Some []) ms.
Proof. reflexivity. Qed.

Lemma getDescendantIds_mono ms fuel : ∀ pid r,
  getDescendantIds fuel ms pid = Some r → getDescendantIds (S fuel) ms pid = Some r.
Proof.
  induction fuel as [|fuel IH]; intros pid r H; [done|].
  rewrite getDescendantIds_S in H. rewrite getDescendantIds_S.
  eapply foldl_option_agree in H; [exact H|intros; reflexivity|].
  intros a m v _ Hv. cbn [mbind option_bind] in Hv |- *.
  case_decide; [|done].
  destruct (getDescendantIds fuel ms (dc_id m)) as [sub|] eqn:E; [|done].
  by rewrite (IH _ _ E).
Qed.

Lemma getDescendantIds_mono_le ms fuel fuel' pid r :
  (fuel ≤ fuel')%nat →
  getDescendantIds fuel ms pid = Some r → getDescendantIds fuel' ms pid = Some r.
Proof.
  induction 1 as [|fuel' _ IH]; [done|]. intros H. by apply getDescendantIds_mono, IH.
Qed.

Lemma getDescendantIds_total ms n : ∀ pid,
  levelsBelow ms n pid → is_Some (getDescendantIds (S n) ms pid).
Proof.
  induction n as [|n IH]; intros pid Hl; rewrite getDescendantIds_S.
  - apply foldl_option_is_Some. intros a m Hm. cbn [mbind option_bind].
    case_decide as Hpar; [|by eexists]. by destruct (Hl m Hm Hpar).
  - apply foldl_option_is_Some. intros a m Hm. cbn [mbind option_bind].
    case_decide as Hpar; [|by eexists].
    destruct (IH (dc_id m) (Hl m Hm Hpar)) as [sub Hsub].
    rewrite Hsub. by eexists.
Qed.

(** In a forest of depth at most three, at most three levels lie below any
    identifier. *)
Lemma forest_levelsBelow ms pid :
  (∀ m, m ∈ ms → depthAtMost ms 2 m) → levelsBelow ms 3 pid.
Proof.
  intros Hdepth. simpl.
  intros c1 H1 P1 c2 H2 P2 c3 H3 P3 c4 H4 P4.
  pose proof (Hdepth c4 H4) as D4. simpl in D4. rewrite P4 in D4.
  pose proof (D4 c3 H3 eq_refl) as D3. rewrite P3 in D3.
  pose proof (D3 c2 H2 eq_refl) as D2. rewrite P2 in D2.
  exact (D2 c1 H1 eq_refl).
Qed.

(** *** The invariants under the operations *)

Section Invariants.

Variable randomUUID : nat → string.
Hypothesis randomUUID_inj : ∀ j k, randomUUID j = randomUUID k → j = k.
Hypothesis randomUUID_nonempty : ∀ k, randomUUID k ≠ "".

Lemma skeleton_elem (ms ms' : list DcStringMeasurement) m' :
  skeleton <$> ms = skeleton <$> ms' → m' ∈ ms' →
  ∃ m, m ∈ ms ∧ skeleton m = skeleton m'.
Proof.
  intros Heq Hin.
  assert (skeleton m' ∈ skeleton <$> ms) as H.
  { rewrite Heq. by apply list_elem_of_fmap_2. }
  apply list_elem_of_fmap in H as (m & ? & ?). eauto.
Qed.

Lemma depthAtMost_skeleton (ms ms' : list DcStringMeasurement) n : ∀ m m',
  skeleton <$> ms = skeleton <$> ms' → skeleton m = skeleton m' →
  depthAtMost ms n m → depthAtMost ms' n m'.
Proof.
  induction n as [|n IH]; intros m m' Heq [= Hid Hpar Hinv]; simpl; rewrite <-Hpar;
    destruct (dc_parentId m) as [pid|]; try done.
  - intros H p' Hp' Hid'. destruct (skeleton_elem _ _ _ Heq Hp') as (p & Hp & [= ? ? ?]).
    apply (H p Hp). congruence.
  - intros H p' Hp' Hid'. destruct (skeleton_elem _ _ _ Heq Hp') as (p & Hp & Hsk).
    apply (IH p p' Heq Hsk). injection Hsk as ? ? ?. apply H; [done|congruence].
Qed.

Lemma forestOk_skeleton (ms ms' : list DcStringMeasurement) :
  skeleton <$> ms = skeleton <$> ms' → forestOk ms → forestOk ms'.
Proof.
  intros Heq [Hsame Hdepth]. split.
  - intros c' p' Hc' Hp' Hpar.
    destruct (skeleton_elem _ _ _ Heq Hc') as (c & Hc & [= ? ? ?]).
    destruct (skeleton_elem _ _ _ Heq Hp') as (p & Hp & [= ? ? ?]).
    assert (dc_inverterIndex p = dc_inverterIndex c) by (apply Hsame; congruence).
    congruence.
  - intros m' Hm'. destruct (skeleton_elem _ _ _ Heq Hm') as (m & Hm & Hsk).
    by apply (depthAtMost_skeleton ms ms' 2 m m' Heq Hsk), Hdepth.
Qed.

Lemma idsOk_skeleton (ms ms' : list DcStringMeasurement) next :
  skeleton <$> ms = skeleton <$> ms' → idsOk randomUUID ms next → idsOk randomUUID ms' next.
Proof.
  intros Heq (Hnd & Hne & Hfresh).
  assert (dc_id <$> ms' = dc_id <$> ms) as Hids.
  { transitivity ((λ t : string * option string * Z, t.1.1) <$> (skeleton <$> ms')).
    - by rewrite <-list_fmap_compose.
    - by rewrite <-Heq, <-list_fmap_compose. }
  unfold idsOk. rewrite Hids. split; [done|]. split; [done|].
  intros k Hk. destruct (Hfresh k Hk) as [Hid Hpar]. split; [done|].
  intros m' Hm'. destruct (skeleton_elem _ _ _ Heq Hm') as (m & Hm & [= ? ? ?]).
  specialize (Hpar m Hm). congruence.
Qed.

Lemma updateFirst_skeleton (P : DcStringMeasurement → bool) f ms ms' :
  (∀ m, skeleton (f m) = skeleton m) →
  updateFirst P f ms = Some ms' → skeleton <$> ms = skeleton <$> ms'.
Proof.
  intros Hf. revert ms'. induction ms as [|m ms IH]; intros ms' H; simpl in H; [done|].
  destruct (P m).
  - simplify_eq. by rewrite !fmap_cons, Hf.
  - destruct (updateFirst P f ms) as [l|]; [|done]. simpl in H. simplify_eq.
    rewrite !fmap_cons. f_equal. by apply IH.
Qed.

Local Instance randomUUID_Inj : Inj (=) (=) randomUUID.
Proof. intros j k. apply randomUUID_inj. Qed.

Lemma idsOk_generate next configs :
  idsOk randomUUID (generateDcMeasurements randomUUID next configs)
        (next + stringTotal configs).
Proof.
  unfold idsOk. rewrite generateDcMeasurements_ids.
  split; [apply (NoDup_fmap_2 randomUUID), NoDup_seq|]. split.
  - intros (k & Hk & _)%list_elem_of_fmap. by apply (randomUUID_nonempty k).
  - intros k Hk. split.
    + intros (j & Hj & Hin)%list_elem_of_fmap. apply randomUUID_inj in Hj. subst j.
      apply elem_of_seq in Hin. lia.
    + intros m Hm.
      pose proof (generateDcMeasurements_blank randomUUID next configs) as Hb.
      eapply Forall_forall in Hb; [|done]. destruct Hb as [-> _]. done.
Qed.

Lemma forestOk_roots (ms : list DcStringMeasurement) :
  (∀ m, m ∈ ms → dc_parentId m = None) → forestOk ms.
Proof.
  intros Hroot. split.
  - intros c p Hc _ Hpar. by rewrite (Hroot c Hc) in Hpar.
  - intros m Hm. simpl. by rewrite (Hroot m Hm).
Qed.

Lemma forestOk_generate next configs :
  forestOk (generateDcMeasurements randomUUID next configs).
Proof.
  apply forestOk_roots. intros m Hm.
  pose proof (generateDcMeasurements_blank randomUUID next configs) as Hb.
  eapply Forall_forall in Hb; [|done]. by destruct Hb.
Qed.

(** Appending a measurement that carries the identifier drawn next. *)
Lemma idsOk_snoc ms next x :
  idsOk randomUUID ms next →
  dc_id x = randomUUID next →
  (∀ pid, dc_parentId x = Some pid → pid ∈ dc_id <$> ms) →
  idsOk randomUUID (ms ++ [x]) (S next).
Proof.
  intros (Hnd & Hne & Hfresh) Hid Hpar.
  destruct (Hfresh next (le_n _)) as [Hnew _].
  unfold idsOk. rewrite fmap_app. simpl. split; [|split].
  - apply NoDup_app. split; [done|]. split; [|apply NoDup_singleton].
    intros y Hy ->%list_elem_of_singleton. by rewrite Hid in Hy.
  - intros [H|H%list_elem_of_singleton]%elem_of_app; [done|].
    rewrite Hid in H. by apply (randomUUID_nonempty next).
  - intros k Hk. destruct (Hfresh k ltac:(lia)) as [Hk1 Hk2]. split.
    + intros [H|H%list_elem_of_singleton]%elem_of_app; [done|].
      rewrite Hid in H. apply randomUUID_inj in H. lia.
    + intros m [Hm| ->]%elem_of_snoc; [by apply Hk2|].
      intros Hp. apply Hk1. by apply Hpar.
Qed.

Lemma forestOk_snoc_root ms x :
  forestOk ms →
  (∀ y, y ∈ ms → dc_parentId y ≠ Some (dc_id x)) →
  dc_parentId x = None →
  forestOk (ms ++ [x]).
Proof.
  intros [Hsame Hdepth] Hfresh Hroot. split.
  - intros c p [Hc| ->]%elem_of_snoc
             [Hp| ->]%elem_of_snoc Hpar.
    + by apply Hsame.
    + by destruct (Hfresh c Hc).
    + by rewrite Hroot in Hpar.
    + by rewrite Hroot in Hpar.
  - intros m [Hm| ->]%elem_of_snoc.
    + apply depthAtMost_snoc; [done|done|]. by apply Hdepth.
    + simpl. by rewrite Hroot.
Qed.

Lemma forestOk_snoc_child ms parent x :
  forestOk ms →
  NoDup (dc_id <$> ms) →
  parent ∈ ms →
  (dc_id x ∉ dc_id <$> ms) →
  (∀ y, y ∈ ms → dc_parentId y ≠ Some (dc_id x)) →
  dc_parentId x = Some (dc_id parent) →
  dc_inverterIndex x = dc_inverterIndex parent →
  depthAtMost ms 1 parent →
  forestOk (ms ++ [x]).
Proof.
  intros [Hsame Hdepth] Hnd Hparent Hnew Hfresh Hpar Hinv Hd1.
  assert (dc_id parent ≠ dc_id x) as Hne.
  { intros Heq. apply Hnew. rewrite <-Heq. by apply list_elem_of_fmap_2. }
  split.
  - intros c p [Hc| ->]%elem_of_snoc
             [Hp| ->]%elem_of_snoc Hcp.
    + by apply Hsame.
    + by destruct (Hfresh c Hc).
    + rewrite Hpar in Hcp. injection Hcp as Hcp.
      assert (parent = p) as <- by (by eapply NoDup_ids_eq). done.
    + rewrite Hpar in Hcp. by injection Hcp.
  - intros m [Hm| ->]%elem_of_snoc.
    + apply depthAtMost_snoc; [done|done|]. by apply Hdepth.
    + rewrite depthAtMost_S, Hpar.
      intros p [Hp| ->]%elem_of_snoc Hid; [|done].
      assert (p = parent) as -> by (by eapply NoDup_ids_eq).
      by apply depthAtMost_snoc.
Qed.

Lemma idsOk_filter (P : DcStringMeasurement → Prop) `{!∀ m, Decision (P m)} ms next :
  idsOk randomUUID ms next → idsOk randomUUID (filter P ms) next.
Proof.
  intros (Hnd & Hne & Hfresh).
  assert (∀ i, i ∈ dc_id <$> filter P ms → i ∈ dc_id <$> ms) as Hsub.
  { intros i (m & -> & [_ Hm]%list_elem_of_filter)%list_elem_of_fmap.
    by apply list_elem_of_fmap_2. }
  split; [|split].
  - eapply sublist_NoDup; [done|]. apply fmap_sublist, sublist_filter.
  - intros Hin. by apply Hne, Hsub.
  - intros k Hk. destruct (Hfresh k Hk) as [Hk1 Hk2]. split.
    + intros Hin. by apply Hk1, Hsub.
    + intros m [_ Hm]%list_elem_of_filter. by apply Hk2.
Qed.

Lemma forestOk_filter (P : DcStringMeasurement → Prop) `{!∀ m, Decision (P m)} ms :
  forestOk ms → forestOk (filter P ms).
Proof.
  intros [Hsame Hdepth]. split.
  - intros c p [_ Hc]%list_elem_of_filter [_ Hp]%list_elem_of_filter. by apply Hsame.
  - intros m [_ Hm]%list_elem_of_filter.
    eapply depthAtMost_subset; [|by apply Hdepth].
    by intros y [_ Hy]%list_elem_of_filter.
Qed.

(** An operation that leaves the measurements and the identifier count as
    they are keeps the invariants. *)
Lemma storeInv_same st st' :
  dcMeasurements (inspection st') = dcMeasurements (inspection st) →
  drawn st' = drawn st →
  storeInv randomUUID st → storeInv randomUUID st'.
Proof. unfold storeInv. by intros -> ->. Qed.

Lemma assignDc_skeleton u m :
  upd_id u = None → upd_parentId u = None → upd_inverterIndex u = None →
  skeleton (assignDc u m) = skeleton m.
Proof. unfold skeleton, assignDc. simpl. by intros -> -> ->. Qed.

Lemma truthy_id (ms : list DcStringMeasurement) m :
  ("" ∉ dc_id <$> ms) → m ∈ ms → truthy (dc_id m) = true.
Proof.
  intros Hne Hm. apply truthy_true. intros Heq. apply Hne. rewrite <-Heq.
  by apply list_elem_of_fmap_2.
Qed.

Lemma addDcSubstring_storeInv st parentId :
  storeInv randomUUID st →
  ∃ st', (∀ fuel, (4 ≤ fuel)%nat → addDcSubstring randomUUID fuel parentId st = Some st')
         ∧ storeInv randomUUID st'.
Proof.
  intros [Hids Hforest]. unfold addDcSubstring. cbv zeta.
  destruct (findFirst _ _) as [parent|] eqn:Ef; [|by exists st].
  apply findFirst_Some in Ef as [Hparent Hid]. apply bool_decide_eq_true in Hid.
  destruct Hforest as [Hsame Hdepth]. destruct Hids as (Hnd & Hne & Hfresh).
  destruct (parentLinks_total _ 2 parent 0%nat (Hdepth parent Hparent)) as [d Hd].
  destruct (2 <=? d)%nat eqn:E2.
  { exists st. split; [|done]. intros fuel Hf. rewrite Hd by lia.
    cbn [mbind option_bind]. by rewrite E2. }
  eexists. split.
  { intros fuel Hf. rewrite Hd by lia. cbn [mbind option_bind]. rewrite E2. reflexivity. }
  apply Nat.leb_gt in E2.
  destruct (Hfresh (drawn st) (le_n _)) as [Hnew Hnopar].
  assert (depthAtMost (dcMeasurements (inspection st)) 1 parent) as Hd1.
  { specialize (Hd 3%nat ltac:(lia)).
    apply parentLinks_depth in Hd; [|done..].
    replace (d - 0)%nat with d in Hd by lia.
    destruct d as [|[|d]]; [by apply depthAtMost_mono|done|lia]. }
  split; cbn [inspection drawn dcMeasurements withDcMeasurements].
  - apply idsOk_snoc; [done|done|].
    simpl. intros pid [= <-]. rewrite <-Hid. by apply list_elem_of_fmap_2.
  - apply (forestOk_snoc_child _ parent); try done.
    by rewrite <-Hid.
Qed.

Lemma removeDcMeasurement_storeInv st id :
  storeInv randomUUID st →
  ∃ st', (∀ fuel, (4 ≤ fuel)%nat → removeDcMeasurement fuel id st = Some st')
         ∧ storeInv randomUUID st'.
Proof.
  intros [Hids Hforest]. unfold removeDcMeasurement. cbv zeta.
  destruct (getDescendantIds_total (dcMeasurements (inspection st)) 3 id) as [r Hr].
  { apply forest_levelsBelow. by destruct Hforest. }
  eexists. split.
  - intros fuel Hf. rewrite (getDescendantIds_mono_le _ 4 fuel id r Hf Hr). reflexivity.
  - split; simpl; [by apply idsOk_filter|by apply forestOk_filter].
Qed.

(** Every operation of the store that leaves id, parentId and inverterIndex
    of the measurements to the store keeps the invariants, and returns. *)
Lemma step_storeInv st op :
  storeInv randomUUID st → keepsStructure op →
  ∃ st', (∀ fuel, (4 ≤ fuel)%nat → step randomUUID fuel op st = Some st')
         ∧ storeInv randomUUID st'.
Proof.
  intros Hinv Hkeep.
  destruct op; simpl;
    try (eexists; split; [intros; reflexivity|];
         first [ exact Hinv
               | apply (storeInv_same st); [|reflexivity|exact Hinv]; reflexivity ]).
  - (* setInverterConfigs *)
    eexists. split; [intros; reflexivity|]. split; simpl.
    + apply idsOk_generate.
    + apply forestOk_generate.
  - (* updateInverterConfig *)
    eexists. split; [intros; reflexivity|]. unfold updateInverterConfig.
    destruct (updateFirst _ _ _) as [configs|]; [|done]. split; simpl.
    + apply idsOk_generate.
    + apply forestOk_generate.
  - (* updateChecklistItem *)
    eexists. split; [intros; reflexivity|]. unfold updateChecklistItem.
    destruct (updateFirst _ _ _); [|done]. by apply (storeInv_same st).
  - (* updateDcMeasurement *)
    eexists. split; [intros; reflexivity|]. unfold updateDcMeasurement.
    destruct (updateFirst _ _ _) as [l|] eqn:E; [|done].
    destruct Hkeep as (K1 & K2 & K3).
    apply updateFirst_skeleton in E; [|intros; by apply assignDc_skeleton].
    destruct Hinv as [Hids Hforest]. split; simpl.
    + by apply (idsOk_skeleton _ _ _ E).
    + by apply (forestOk_skeleton _ _ E).
  - (* addDcString *)
    eexists. split; [intros; reflexivity|].
    destruct Hinv as [Hids Hforest]. pose proof Hids as (Hnd & Hne & Hfresh).
    destruct (Hfresh (drawn st) (le_n _)) as [Hnew Hnopar].
    split; simpl.
    + apply idsOk_snoc; [done|done|]. simpl. done.
    + apply forestOk_snoc_root; done.
  - (* addDcSubstring *)
    by apply addDcSubstring_storeInv.
  - (* removeDcMeasurement *)
    by apply removeDcMeasurement_storeInv.
  - (* updateAcMeasurement *)
    eexists. split; [intros; reflexivity|]. unfold updateAcMeasurement.
    destruct (updateFirst _ _ _); [|done]. by apply (storeInv_same st).
  - (* updateInverterSerial *)
    eexists. split; [intros; reflexivity|]. unfold updateInverterSerial.
    destruct (updateFirst _ _ _); [|done]. by apply (storeInv_same st).
  - (* duplicateDefect *)
    eexists. split; [intros; reflexivity|]. unfold duplicateDefect. cbv zeta.
    destruct (if (index <? 0)%Z then _ else _); [|done]. by apply (storeInv_same st).
Qed.

(** A measurement with a parent and a grandparent gets no child. *)
Lemma addDcSubstring_refuses st node p1 p2 fuel :
  storeInv randomUUID st →
  node ∈ dcMeasurements (inspection st) →
  p1 ∈ dcMeasurements (inspection st) →
  p2 ∈ dcMeasurements (inspection st) →
  dc_parentId node = Some (dc_id p1) →
  dc_parentId p1 = Some (dc_id p2) →
  (4 ≤ fuel)%nat →
  addDcSubstring randomUUID fuel (dc_id node) st = Some st.
Proof.
  intros [(Hnd & Hne & _) [_ Hdepth]] Hn H1 H2 P1 P2 Hf.
  unfold addDcSubstring. cbv zeta. rewrite findById by done.
  assert (depthAtMost (dcMeasurements (inspection st)) 0 p2) as D2.
  { pose proof (Hdepth node Hn) as D. rewrite depthAtMost_S, P1 in D.
    specialize (D p1 H1 eq_refl). rewrite depthAtMost_S, P2 in D. by apply D. }
  destruct (parentLinks_total _ 0 p2 2%nat D2) as [d Hd].
  destruct fuel as [|[|[|fuel]]]; try lia.
  rewrite parentLinks_S, P1, (truthy_id _ p1) by done. rewrite findById by done.
  rewrite parentLinks_S, P2, (truthy_id _ p2) by done. rewrite findById by done.
  rewrite Hd by lia. specialize (Hd 1%nat ltac:(lia)). apply parentLinks_ge in Hd.
  cbn [mbind option_bind].
  destruct (2 <=? d)%nat eqn:E; [done|]. apply Nat.leb_gt in E. lia.
Qed.

(** The invariants hold in every state reached by operations that keep the
    structure. *)
Lemma run_storeInv (ops : list Op) : ∀ st st',
  storeInv randomUUID st →
  Forall keepsStructure ops →
  foldl (λ acc op, st ← acc; step randomUUID 10 op st) (Some st) ops = Some st' →
  storeInv randomUUID st'.
Proof.
  induction ops as [|op ops IH]; intros st st' Hinv Hkeep Hrun; cbn [foldl] in Hrun.
  - by simplify_eq.
  - apply Forall_cons in Hkeep as [Hop Hkeep]. cbn [mbind option_bind] in Hrun.
    destruct (step_storeInv st op Hinv Hop) as (st1 & Hstep & Hinv1).
    rewrite Hstep in Hrun by lia. by eapply IH.
Qed.

End Invariants.

Lemma sample_uuid_inj j k : Samples.uuid j = Samples.uuid k → j = k.
Proof.
  unfold Samples.uuid. intros H.
  apply (inj (String.append "id-")) in H. by apply (inj pretty) in H.
Qed.

Lemma sample_uuid_nonempty k : Samples.uuid k ≠ "".
Proof. unfold Samples.uuid. simpl. discriminate. Qed.

Lemma storeInv_emptyStore : storeInv Samples.uuid Samples.emptyStore.
Proof.
  split; [split; [|split]|split]; simpl.
  - constructor.
  - by intros ?%elem_of_nil.
  - intros k _. split; [by intros ?%elem_of_nil|]. by intros m ?%elem_of_nil.
  - by intros c p ?%elem_of_nil.
  - by intros m ?%elem_of_nil.
Qed.

Lemma storeInv_familyStore : storeInv Samples.uuid Samples.familyStore.
Proof.
  eapply (run_storeInv Samples.uuid sample_uuid_inj sample_uuid_nonempty
            [SetInverterConfigs 1 1; AddDcSubstring "id-0"; AddDcSubstring "id-1"]).
  - apply storeInv_emptyStore.
  - repeat constructor.
  - vm_compute. reflexivity.
Qed.

(** C6 (as amended).  With identifiers that are never repeated and never
    empty, every store operation other than an [updateDcMeasurement] whose
    patch sets id, parentId or inverterIndex returns and keeps the forest
    invariants (a measurement that has a parent belongs to the inverter of
    its parent; no chain of parent links has more than three measurements),
    together with the uniqueness of the identifiers; and [addDcSubstring]
    leaves the store as it is when the node has a parent and a grandparent. *)
Theorem store_operations_preserve_forest (randomUUID : nat → string) st op :
  (∀ j k, randomUUID j = randomUUID k → j = k) →
  (∀ k, randomUUID k ≠ "") →
  storeInv randomUUID st →
  keepsStructure op →
  (∃ st', (∀ fuel, (4 ≤ fuel)%nat → step randomUUID fuel op st = Some st')
          ∧ storeInv randomUUID st')
  ∧ (∀ node p1 p2 fuel,
       node ∈ dcMeasurements (inspection st) →
       p1 ∈ dcMeasurements (inspection st) →
       p2 ∈ dcMeasurements (inspection st) →
       dc_parentId node = Some (dc_id p1) →
       dc_parentId p1 = Some (dc_id p2) →
       (4 ≤ fuel)%nat →
       addDcSubstring randomUUID fuel (dc_id node) st = Some st).
Proof.
  intros Hinj Hne Hinv Hkeep. split.
  - by apply step_storeInv.
  - intros node p1 p2 fuel. by apply addDcSubstring_refuses.
Qed.

Lemma store_operations_preserve_forest_witness :
  (∃ st', step Samples.uuid 10 (AddDcSubstring "id-0") Samples.familyStore = Some st'
          ∧ storeInv Samples.uuid st'
          ∧ length (dcMeasurements (inspection st')) = 4%nat)
  ∧ addDcSubstring Samples.uuid 10 "id-2" Samples.familyStore = Some Samples.familyStore.
Proof.
  destruct (store_operations_preserve_forest Samples.uuid Samples.familyStore
              (AddDcSubstring "id-0") sample_uuid_inj sample_uuid_nonempty
              storeInv_familyStore I) as [(st' & Hstep & Hinv) Hrefuse].
  split.
  - exists st'. split; [apply Hstep; lia|]. split; [exact Hinv|].
    specialize (Hstep 10%nat ltac:(lia)). vm_compute in Hstep.
    injection Hstep as <-. reflexivity.
  - pose proof (dcMeasurements (inspection Samples.familyStore)) as ms.
    refine (Hrefuse
      {| dc_id := "id-2"; dc_parentId := Some "id-1"; dc_inverterIndex := 1;
         dc_stringLabel := "A.1.1"; panelCount := None; openCircuitVoltage := None;
         operatingCurrent := None; stringRiso := None; feedRisoNegative := None;
         feedRisoPositive := None |}
      {| dc_id := "id-1"; dc_parentId := Some "id-0"; dc_inverterIndex := 1;
         dc_stringLabel := "A.1"; panelCount := None; openCircuitVoltage := None;
         operatingCurrent := None; stringRiso := None; feedRisoNegative := None;
         feedRisoPositive := None |}
      {| dc_id := "id-0"; dc_parentId := None; dc_inverterIndex := 1;
         dc_stringLabel := "A"; panelCount := None; openCircuitVoltage := None;
         operatingCurrent := None; stringRiso := None; feedRisoNegative := None;
         feedRisoPositive := None |} 10%nat _ _ _ eq_refl eq_refl _);
      [compute_done|compute_done|compute_done|lia].
Defined.

(** Where C6 as stated fails: [updateDcMeasurement] applies its patch as it
    comes.  Moving the substring A.1 to inverter 2 leaves it under a parent
    of inverter 1. *)
Lemma updateDcMeasurement_breaks_forest :
  storeInv Samples.uuid Samples.familyStore
  ∧ ∃ st', step Samples.uuid 10 (UpdateDcMeasurement "id-1" Samples.moveToInverter2)
             Samples.familyStore = Some st'
           ∧ Samples.brief <$> dcMeasurements (inspection st') =
               [("id-0", None, "A", 1%Z); ("id-1", Some "id-0", "A.1", 2%Z);
                ("id-2", Some "id-1", "A.1.1", 1%Z)]
           ∧ ¬ forestOk (dcMeasurements (inspection st')).
Proof.
  split; [apply storeInv_familyStore|].
  eexists. split; [reflexivity|]. split; [vm_compute; reflexivity|].
  intros [Hsame _].
  specialize (Hsame
    {| dc_id := "id-1"; dc_parentId := Some "id-0"; dc_inverterIndex := 2;
       dc_stringLabel := "A.1"; panelCount := None; openCircuitVoltage := None;
       operatingCurrent := None; stringRiso := None; feedRisoNegative := None;
       feedRisoPositive := None |}
    {| dc_id := "id-0"; dc_parentId := None; dc_inverterIndex := 1;
       dc_stringLabel := "A"; panelCount := None; openCircuitVoltage := None;
       operatingCurrent := None; stringRiso := None; feedRisoNegative := None;
       feedRisoPositive := None |}
    ltac:(compute_done) ltac:(compute_done) eq_refl).
  discriminate Hsame.
Qed.

(** ** The store: child labels *)

(** The label [addDcSubstring] gives a new child. *)
Lemma addDcSubstring_child_label (randomUUID : nat → string) fuel parentId st parent d :
  findFirst (λ m, bool_decide (dc_id m = parentId)) (dcMeasurements (inspection st))
    = Some parent →
  parentLinks fuel (dcMeasurements (inspection st)) parent 0 = Some d →
  (d < 2)%nat →
  ∃ st' child,
    addDcSubstring randomUUID fuel parentId st = Some st'
    ∧ dcMeasurements (inspection st') = dcMeasurements (inspection st) ++ [child]
    ∧ dc_parentId child = Some parentId
    ∧ dc_stringLabel child =
        dc_stringLabel parent +:+ "." +:+
        pretty (length (filter (λ m, dc_parentId m = Some parentId)
                               (dcMeasurements (inspection st))) + 1)%nat.
Proof.
  intros Hfind Hlinks Hd. unfold addDcSubstring. cbv zeta.
  rewrite Hfind, Hlinks. cbn [mbind option_bind].
  destruct (2 <=? d)%nat eqn:E; [apply Nat.leb_le in E; lia|].
  eexists _, _. split; [reflexivity|]. split; [reflexivity|]. split; reflexivity.
Qed.

(** C7, the code at the failing input.  Two substrings are added under A
    and the first is removed; the next substring added under A is labelled
    A.2 again, beside the A.2 that is still there. *)
Lemma addDcSubstring_label_reused :
  (λ st, Samples.brief <$> dcMeasurements (inspection st)) <$>
    Samples.run [SetInverterConfigs 1 1; AddDcSubstring "id-0"; AddDcSubstring "id-0";
                 RemoveDcMeasurement "id-1"; AddDcSubstring "id-0"] Samples.emptyStore
  = Some [("id-0", None, "A", 1%Z); ("id-2", Some "id-0", "A.2", 1%Z);
          ("id-3", Some "id-0", "A.2", 1%Z)].
Proof. vm_compute. reflexivity. Qed.

(** ** The measurement tree walk *)

Section TreeWalk.

Variable l : list DcStringMeasurement.

Lemma walk_S fuel parentId depth result :
  walk (S fuel) l parentId depth result =
  foldl (λ acc m,
           result ← acc;
           walk fuel l (Some (dc_id m)) (S depth)
                (result ++ [{| measurement := m; depth := depth |}]))
        (Some result) (childrenOf l parentId).
Proof. reflexivity. Qed.

(** More fuel does not change a walk that returns. *)
Lemma walk_mono fuel : ∀ parentId depth result out,
  walk fuel l parentId depth result = Some out →
  walk (S fuel) l parentId depth result = Some out.
Proof.
  induction fuel as [|fuel IH]; intros parentId depth result out H; [done|].
  rewrite walk_S in H. rewrite walk_S.
  eapply foldl_option_agree in H; [exact H|intros; reflexivity|].
  intros a m v _ Hv. cbn [mbind option_bind] in Hv |- *. by apply IH.
Qed.

Lemma walk_mono_le fuel fuel' parentId depth result out :
  (fuel ≤ fuel')%nat →
  walk fuel l parentId depth result = Some out →
  walk fuel' l parentId depth result = Some out.
Proof.
  induction 1 as [|fuel' _ IH]; [done|]. intros H. by apply walk_mono, IH.
Qed.

(** A walk that returns has appended the pre-order of the children of
    [parentId] to [result]. *)
Lemma walk_Preorder fuel : ∀ parentId depth result out,
  walk fuel l parentId depth result = Some out →
  ∃ r, measurement <$> out = (measurement <$> result) ++ r
       ∧ Preorder l (childrenOf l parentId) r.
Proof.
  induction fuel as [|fuel IH]; intros parentId depth result out H; [done|].
  rewrite walk_S in H. revert result out H.
  generalize (childrenOf l parentId). intros cs.
  induction cs as [|m cs IHcs]; intros result out H; cbn [foldl] in H.
  - simplify_eq. exists []. split; [by rewrite app_nil_r|constructor].
  - cbn [mbind option_bind] in H.
    destruct (walk fuel l (Some (dc_id m)) (S depth)
                (result ++ [{| measurement := m; depth := depth |}])) as [mid|] eqn:E.
    2:{ rewrite foldl_option_None in H; [done|intros; reflexivity]. }
    apply IH in E as (sub & Hmid & Hsub).
    apply IHcs in H as (rest & Hout & Hrest).
    exists (m :: sub ++ rest). split; [|by constructor].
    rewrite Hout, Hmid, fmap_app. list_assoc.
Qed.

(** The walk returns when the walks from all the children do. *)
Lemma walk_is_Some fuel parentId depth result :
  (∀ m d res, m ∈ childrenOf l parentId → is_Some (walk fuel l (Some (dc_id m)) d res)) →
  is_Some (walk (S fuel) l parentId depth result).
Proof.
  intros Hch. rewrite walk_S. apply foldl_option_is_Some.
  intros a m Hm. cbn [mbind option_bind]. by apply Hch.
Qed.

(** *** Pre-order listings *)

Lemma Preorder_heads cs r c : Preorder l cs r → c ∈ cs → c ∈ r.
Proof.
  induction 1 as [|m cs sub rest _ _ _ IH]; [done|].
  intros [->|Hc]%elem_of_cons; [by left|].
  right. apply elem_of_app. right. by apply IH.
Qed.

(** Every element of a listing heads a block: it is followed by the
    pre-order of its children. *)
Lemma Preorder_block cs r x :
  Preorder l cs r → x ∈ r →
  ∃ r1 sub r2, r = r1 ++ x :: sub ++ r2
               ∧ Preorder l (childrenOf l (Some (dc_id x))) sub.
Proof.
  induction 1 as [|m cs sub rest Hsub IHsub Hrest IHrest]; [by intros ?%elem_of_nil|].
  intros [->|[Hx|Hx]%elem_of_app]%elem_of_cons.
  - by exists [], sub, rest.
  - destruct (IHsub Hx) as (r1 & s & r2 & -> & Hs).
    exists (m :: r1), s, (r2 ++ rest). split; [|done].
    list_assoc.
  - destruct (IHrest Hx) as (r1 & s & r2 & -> & Hs).
    exists (m :: sub ++ r1), s, r2. split; [|done].
    list_assoc.
Qed.

(** Siblings keep their order, and the block of the earlier one ends before
    the later one. *)
Lemma Preorder_split cs r s1 s2 :
  Preorder l cs r → before s1 s2 cs →
  ∃ r1 sub1 r2 r3, r = r1 ++ s1 :: sub1 ++ r2 ++ s2 :: r3
                   ∧ Preorder l (childrenOf l (Some (dc_id s1))) sub1.
Proof.
  intros Hpre (c1 & c2 & c3 & ->). revert r Hpre.
  induction c1 as [|c c1 IH]; intros r Hpre; simpl in Hpre.
  - inversion Hpre as [|m cs sub rest Hsub Hrest]; subst.
    destruct (Preorder_block _ _ s2 Hrest) as (r1 & s & r2 & -> & _).
    { eapply Preorder_heads; [done|]. apply elem_of_app. right. by left. }
    by exists [], sub, r1, (s ++ r2).
  - inversion Hpre as [|m cs sub rest Hsub Hrest]; subst.
    destruct (IH _ Hrest) as (r1 & sub1 & r2 & r3 & -> & Hs).
    exists (c :: sub ++ r1), sub1, r2, r3. split; [|done].
    list_assoc.
Qed.

Lemma Preorder_elem cs r x :
  Preorder l cs r → x ∈ r → x ∈ cs ∨ ∃ c, c ∈ cs ∧ descendantOf l c x.
Proof.
  induction 1 as [|m cs sub rest Hsub IHsub Hrest IHrest]; [by intros ?%elem_of_nil|].
  intros [->|[Hx|Hx]%elem_of_app]%elem_of_cons.
  - left. by left.
  - right. exists m. split; [by left|].
    destruct (IHsub Hx) as [Hc|(c & Hc & Hd)].
    + apply list_elem_of_filter in Hc as [Hpar Hin]. by apply desc_child.
    + apply list_elem_of_filter in Hc as [Hpar Hin].
      clear -Hd Hpar Hin. induction Hd as [y Hy Hp|c' y Hd IH Hy Hp].
      * eapply desc_step; [|done..]. by apply desc_child.
      * by eapply desc_step.
  - destruct (IHrest Hx) as [Hc|(c & Hc & Hd)].
    + left. by right.
    + right. exists c. split; [by right|done].
Qed.

(** The block of a measurement holds all its descendants. *)
Lemma Preorder_descendants a sub x :
  Preorder l (childrenOf l (Some (dc_id a))) sub → descendantOf l a x → x ∈ sub.
Proof.
  intros Hpre. induction 1 as [y Hy Hp|c y Hd IH Hy Hp].
  - eapply Preorder_heads; [done|]. by apply list_elem_of_filter.
  - destruct (Preorder_block _ _ c Hpre IH) as (r1 & s & r2 & -> & Hs).
    apply elem_of_app. right. right. apply elem_of_app. left.
    eapply Preorder_heads; [done|]. by apply list_elem_of_filter.
Qed.

End TreeWalk.

Section TreeForest.

Variable l : list DcStringMeasurement.
Hypothesis l_ids : NoDup (dc_id <$> l).

Lemma depth_unique m k k' : depthIs l m k → depthIs l m k' → k = k'.
Proof.
  intros H. revert k'. induction H as [m Hroot|m p k Hp Hpar Hd IH]; intros k' H'.
  - inversion H' as [|m' p' k'' Hp' Hpar']; [done|congruence].
  - inversion H' as [m' Hroot|m' p' k'' Hp' Hpar' Hd']; subst; [congruence|].
    f_equal. apply IH.
    assert (p' = p) as -> by (eapply NoDup_ids_eq; [done..|congruence]). done.
Qed.

(** The measurements above [m], with [m] itself, listed upwards. *)
Lemma depth_path m k :
  m ∈ l → depthIs l m k →
  ∃ path : list DcStringMeasurement,
    length path = S k ∧ (∀ x, x ∈ path → x ∈ l)
    ∧ ∀ i x, path !! i = Some x → depthIs l x (k - i).
Proof.
  intros Hm H. induction H as [m Hroot|m p k Hp Hpar Hd IH].
  - exists [m]. split; [done|]. split.
    + by intros x ->%list_elem_of_singleton.
    + intros [|i] x Hx; simpl in Hx; [|done]. simplify_eq. by constructor.
  - destruct (IH Hp) as (path & Hlen & Hsub & Hdepth).
    exists (m :: path). split; [by rewrite length_cons, Hlen|]. split.
    + intros x [->|Hx]%elem_of_cons; auto.
    + intros [|i] x Hx; simpl in Hx.
      * simplify_eq. by econstructor.
      * by apply Hdepth.
Qed.

Lemma depth_bound m k : m ∈ l → depthIs l m k → (k < length l)%nat.
Proof.
  intros Hm Hd. destruct (depth_path m k Hm Hd) as (path & Hlen & Hsub & Hdepth).
  assert (NoDup path) as Hnd.
  { apply NoDup_alt. intros i j x Hi Hj.
    pose proof (lookup_lt_Some _ _ _ Hi). pose proof (lookup_lt_Some _ _ _ Hj).
    pose proof (depth_unique _ _ _ (Hdepth _ _ Hi) (Hdepth _ _ Hj)). lia. }
  pose proof (submseteq_length _ _ (NoDup_submseteq _ _ Hnd Hsub)). lia.
Qed.

(** With unique identifiers the walk returns: the walk from the children at
    depth [k] needs no more than [length l - k] nested calls. *)
Lemma walk_total fuel : ∀ k parentId depth result,
  (∀ m, m ∈ childrenOf l parentId → depthIs l m k) →
  (1 ≤ fuel)%nat → (length l < fuel + k)%nat →
  is_Some (walk fuel l parentId depth result).
Proof.
  induction fuel as [|fuel IH]; intros k parentId depth result Hch H1 Hf; [lia|].
  apply walk_is_Some. intros m d res Hm.
  pose proof Hm as [Hpar Hin]%list_elem_of_filter.
  pose proof (depth_bound m k Hin (Hch m Hm)).
  apply (IH (S k)); [|lia|lia].
  intros c [Hc Hcin]%list_elem_of_filter.
  eapply depth_child; [exact Hin|exact Hc|by apply Hch].
Qed.

(** *** Descendants *)

Lemma descendant_elem a x : descendantOf l a x → x ∈ l.
Proof. by destruct 1. Qed.

Lemma descendant_depth a k x :
  a ∈ l → depthIs l a k → descendantOf l a x → ∃ j, (k < j)%nat ∧ depthIs l x j.
Proof.
  intros Ha Hk. induction 1 as [y Hy Hp|c y Hd IH Hy Hp].
  - exists (S k). split; [lia|]. by apply (depth_child l y a k).
  - destruct IH as (j & Hj & Hdj). exists (S j). split; [lia|].
    apply (depth_child l y c j); [|done..]. by eapply descendant_elem.
Qed.

(** A measurement has one ancestor (or itself) at each depth. *)
Lemma ancestor_unique a k x :
  a ∈ l → depthIs l a k → descendantOf l a x →
  ∀ a', a' ∈ l → depthIs l a' k → a' = x ∨ descendantOf l a' x → a = a'.
Proof.
  intros Ha Hk Hd. induction Hd as [y Hy Hp|c y Hd IH Hy Hp]; intros a' Ha' Hk' Hx.
  - destruct Hx as [->|Hx].
    + assert (depthIs l y (S k)) as Hy' by (by apply (depth_child l y a k)).
      pose proof (depth_unique _ _ _ Hk' Hy'). lia.
    + destruct Hx as [y Hy' Hp'|c' y Hd' Hy' Hp'].
      * eapply NoDup_ids_eq; [done..|congruence].
      * assert (c' = a) as ->.
        { eapply NoDup_ids_eq; [done|by eapply descendant_elem|done|congruence]. }
        destruct (descendant_depth _ _ _ Ha' Hk' Hd') as (j & Hj & Hdj).
        pose proof (depth_unique _ _ _ Hk Hdj). lia.
  - assert (c ∈ l) as Hc by (by eapply descendant_elem).
    destruct Hx as [->|Hx].
    + destruct (descendant_depth _ _ _ Ha Hk Hd) as (j & Hj & Hdj).
      assert (depthIs l y (S j)) as Hy' by (by apply (depth_child l y c j)).
      pose proof (depth_unique _ _ _ Hk' Hy'). lia.
    + destruct Hx as [y Hy' Hp'|c' y Hd' Hy' Hp'].
      * apply IH; [done|done|]. left.
        eapply NoDup_ids_eq; [done..|congruence].
      * apply IH; [done|done|]. right.
        assert (c' = c) as ->; [|done].
        eapply NoDup_ids_eq; [done|by eapply descendant_elem|done|congruence].
Qed.

Lemma Preorder_below a sub x :
  Preorder l (childrenOf l (Some (dc_id a))) sub → x ∈ sub → descendantOf l a x.
Proof.
  intros Hpre Hx. destruct (Preorder_elem _ _ _ _ Hpre Hx) as [Hc|(c & Hc & Hd)].
  - apply list_elem_of_filter in Hc as [Hpar Hin]. by apply desc_child.
  - apply list_elem_of_filter in Hc as [Hpar Hin].
    clear -Hd Hpar Hin. induction Hd as [y Hy Hp|c' y Hd IH Hy Hp].
    + eapply desc_step; [|done..]. by apply desc_child.
    + by eapply desc_step.
Qed.

(** A pre-order listing names no measurement twice. *)
Lemma Preorder_NoDup cs r :
  Preorder l cs r →
  ∀ k, NoDup cs → (∀ c, c ∈ cs → c ∈ l ∧ depthIs l c k) → NoDup r.
Proof.
  induction 1 as [|m cs sub rest Hsub IHsub Hrest IHrest]; intros k Hnd Hcs;
    [constructor|].
  apply NoDup_cons in Hnd as [Hm Hnd].
  destruct (Hcs m ltac:(left)) as [Hml Hmk].
  assert (∀ x, x ∈ sub → descendantOf l m x) as Hbelow
    by (intros; by eapply Preorder_below).
  assert (∀ x, x ∈ rest → x ∈ cs ∨ ∃ c, c ∈ cs ∧ descendantOf l c x) as Hright
    by (intros; by eapply Preorder_elem).
  apply NoDup_cons. split; [|apply NoDup_app; split; [|split]].
  - intros [Hx|Hx]%elem_of_app.
    + destruct (descendant_depth _ _ _ Hml Hmk (Hbelow _ Hx)) as (j & Hj & Hdj).
      pose proof (depth_unique _ _ _ Hmk Hdj). lia.
    + destruct (Hright _ Hx) as [Hc|(c & Hc & Hd)]; [done|].
      destruct (Hcs c ltac:(by right)) as [Hcl Hck].
      destruct (descendant_depth _ _ _ Hcl Hck Hd) as (j & Hj & Hdj).
      pose proof (depth_unique _ _ _ Hmk Hdj). lia.
  - apply (IHsub (S k)).
    + apply NoDup_filter. by eapply NoDup_fmap_1.
    + intros c [Hc Hcin]%list_elem_of_filter. split; [done|].
      by apply (depth_child l c m k).
  - intros x Hx1 Hx2.
    destruct (Hright _ Hx2) as [Hc|(c & Hc & Hd)].
    + destruct (Hcs x ltac:(by right)) as [Hxl Hxk].
      assert (m = x) as <-; [|done].
      eapply (ancestor_unique m k x); eauto.
    + destruct (Hcs c ltac:(by right)) as [Hcl Hck].
      assert (m = c) as <-; [|done].
      eapply (ancestor_unique m k x); eauto.
  - apply (IHrest k); [done|]. intros c Hc. apply Hcs. by right.
Qed.

End TreeForest.

(** *** The fuel of [getOrderedDcTree] is enough *)

Section WalkFuel.

Variable l : list DcStringMeasurement.

(** Whether a walk returns depends on the fuel and the starting point only:
    it returns exactly when the walks from all the children do. *)
Lemma walk_returns fuel : ∀ parentId depth result,
  is_Some (walk (S fuel) l parentId depth result) ↔
  ∀ m, m ∈ childrenOf l parentId → is_Some (walk fuel l (Some (dc_id m)) 0 []).
Proof.
  induction fuel as [|fuel IH]; intros parentId depth result; rewrite walk_S.
  - generalize (childrenOf l parentId). intros cs. revert result.
    induction cs as [|m cs IHcs]; intros result; cbn [foldl].
    + split; [by intros _ m ?%elem_of_nil|by eexists].
    + cbn [mbind option_bind walk]. rewrite foldl_option_None by done. split.
      * by intros [? ?].
      * intros H. by destruct (H m ltac:(left)).
  - generalize (childrenOf l parentId). intros cs. revert result.
    induction cs as [|m cs IHcs]; intros result; cbn [foldl].
    + split; [by intros _ m ?%elem_of_nil|by eexists].
    + cbn [mbind option_bind].
      destruct (walk (S fuel) l (Some (dc_id m)) (S depth)
                  (result ++ [{| measurement := m; depth := depth |}])) as [mid|] eqn:E.
      * rewrite IHcs. split.
        -- intros H x [->|Hx]%elem_of_cons; [|by apply H].
           apply (proj2 (IH _ 0 [])).
           apply (proj1 (IH _ (S depth)
             (result ++ [{| measurement := m; depth := depth |}]))).
           by rewrite E.
        -- intros H x Hx. apply H. by right.
      * rewrite foldl_option_None by done. split; [by intros [? ?]|].
        intros H. exfalso. specialize (H m ltac:(left)).
        pose proof (proj1 (IH _ 0 []) H) as H'.
        pose proof (proj2 (IH _ (S depth)
          (result ++ [{| measurement := m; depth := depth |}])) H') as H''.
        rewrite E in H''. by destruct H''.
Qed.

Lemma walk_returns_steps fuel : ∀ parentId ms y,
  is_Some (walk fuel l parentId 0 []) →
  chainBelow l parentId (ms ++ [y]) →
  ∃ fuel', (fuel' < fuel)%nat ∧ is_Some (walk fuel' l (Some (dc_id y)) 0 []).
Proof.
  induction fuel as [|fuel IH]; intros parentId ms y Hret Hchain.
  { by destruct Hret. }
  destruct ms as [|m ms]; simpl in Hchain; destruct Hchain as [Hm Hrest].
  - exists fuel. split; [lia|]. by eapply walk_returns.
  - destruct (IH (Some (dc_id m)) ms y) as (fuel' & Hlt & Hret'); [|done|].
    + by eapply walk_returns.
    + exists fuel'. split; [lia|done].
Qed.

(** A walk that returns does not come back to a measurement on its path. *)
Lemma walk_returns_acyclic fuel : ∀ x ms,
  is_Some (walk fuel l (Some (dc_id x)) 0 []) →
  chainBelow l (Some (dc_id x)) (ms ++ [x]) → False.
Proof.
  induction fuel as [fuel IH] using lt_wf_ind. intros x ms Hret Hchain.
  destruct (walk_returns_steps fuel _ ms x Hret Hchain) as (fuel' & Hlt & Hret').
  by eapply (IH fuel' Hlt x ms).
Qed.

Lemma chainBelow_prefix parentId (ms ms' : list DcStringMeasurement) :
  chainBelow l parentId (ms ++ ms') → chainBelow l parentId ms.
Proof.
  revert parentId. induction ms as [|m ms IH]; intros parentId; simpl; [done|].
  intros [Hm Hrest]. split; [done|]. by apply IH.
Qed.

Lemma chainBelow_elem parentId (ms : list DcStringMeasurement) x :
  chainBelow l parentId ms → x ∈ ms → x ∈ l.
Proof.
  revert parentId. induction ms as [|m ms IH]; intros parentId; simpl.
  - by intros _ ?%elem_of_nil.
  - intros [Hm Hrest] [->|Hx]%elem_of_cons.
    + by apply list_elem_of_filter in Hm as [_ ?].
    + by eapply IH.
Qed.

Lemma walk_returns_chain_NoDup (ms : list DcStringMeasurement) : ∀ fuel parentId,
  is_Some (walk fuel l parentId 0 []) → chainBelow l parentId ms → NoDup ms.
Proof.
  induction ms as [|m ms IH]; intros fuel parentId Hret Hchain; [constructor|].
  destruct fuel as [|fuel]; [by destruct Hret|].
  destruct Hchain as [Hm Hrest].
  assert (is_Some (walk fuel l (Some (dc_id m)) 0 [])) as Hret' by (by eapply walk_returns).
  constructor; [|by eapply IH].
  intros (a & b & ->)%list_elem_of_split.
  apply (walk_returns_acyclic fuel m a Hret').
  apply (chainBelow_prefix _ (a ++ [m]) b). by rewrite <-app_assoc.
Qed.

Lemma walk_returns_bounded : ∀ fuel parentId,
  (∀ ms, chainBelow l parentId ms → (length ms < fuel)%nat) →
  is_Some (walk fuel l parentId 0 []).
Proof.
  induction fuel as [|fuel IH]; intros parentId Hbound.
  { specialize (Hbound [] I). simpl in Hbound. lia. }
  apply walk_returns. intros m Hm. apply IH. intros ms Hms.
  specialize (Hbound (m :: ms) (conj Hm Hms)). simpl in Hbound. lia.
Qed.

(** If the walk returns with some fuel, it returns with fuel for one more
    call than there are measurements. *)
Lemma walk_adequate fuel parentId :
  is_Some (walk fuel l parentId 0 []) →
  is_Some (walk (S (length l)) l parentId 0 []).
Proof.
  intros Hret. apply walk_returns_bounded. intros ms Hms.
  pose proof (walk_returns_chain_NoDup ms fuel parentId Hret Hms) as Hnd.
  assert (length ms ≤ length l)%nat; [|lia].
  apply submseteq_length, NoDup_submseteq; [done|].
  intros x Hx. by eapply chainBelow_elem.
Qed.

End WalkFuel.

(** [getOrderedDcTree] returns what the walk returns with any fuel that is
    enough for it. *)
Lemma getOrderedDcTree_adequate measurements inverterIndex fuel out :
  getOrderedDcTreeFuel fuel measurements inverterIndex = Some out →
  getOrderedDcTree measurements inverterIndex = Some out.
Proof.
  unfold getOrderedDcTree, getOrderedDcTreeFuel.
  set (l := filter (λ m, dc_inverterIndex m = inverterIndex) measurements).
  intros Hout.
  destruct (walk_adequate l fuel None) as [out' Hout']; [by rewrite Hout|].
  assert (length l ≤ length measurements)%nat as Hlen by apply length_filter.
  assert (walk (S (length measurements)) l None 0 [] = Some out') as Hbig.
  { apply (walk_mono_le l (S (length l))); [lia|exact Hout']. }
  rewrite Hbig. f_equal.
  destruct (decide (fuel ≤ S (length measurements))%nat) as [Hle|Hgt].
  - pose proof (walk_mono_le l _ _ _ _ _ _ Hle Hout). congruence.
  - assert (S (length measurements) ≤ fuel)%nat as Hle by lia.
    pose proof (walk_mono_le l _ _ _ _ _ _ Hle Hbig). congruence.
Qed.

(** *** Order in the listing *)

Lemma before_context {A} (a b : A) r r1 r2 :
  before a b r → before a b (r1 ++ r ++ r2).
Proof.
  intros (l1 & l2 & l3 & ->). exists (r1 ++ l1), l2, (l3 ++ r2). list_assoc.
Qed.

Lemma before_filter {A} (P : A → Prop) `{!∀ x, Decision (P x)} (a b : A) l :
  before a b l → P a → P b → before a b (filter P l).
Proof.
  intros (l1 & l2 & l3 & ->) Ha Hb.
  exists (filter P l1), (filter P l2), (filter P l3).
  rewrite filter_app, filter_cons_True, filter_app, filter_cons_True by done. done.
Qed.

Lemma before_block {A} (a x : A) r1 sub r2 :
  x ∈ sub → before a x (r1 ++ a :: sub ++ r2).
Proof.
  intros (s1 & s2 & ->)%list_elem_of_split. exists r1, s1, (s2 ++ r2). list_assoc.
Qed.

Section TreeOrder.

Variable l : list DcStringMeasurement.
Hypothesis l_ids : NoDup (dc_id <$> l).
Hypothesis l_rooted : ∀ m, m ∈ l → ∃ k, depthIs l m k.
Variable order : list DcStringMeasurement.
Hypothesis order_pre : Preorder l (childrenOf l None) order.

Lemma order_sound x : x ∈ order → x ∈ l.
Proof.
  intros Hx. destruct (Preorder_elem _ _ _ _ order_pre Hx) as [Hc|(c & Hc & Hd)].
  - by apply list_elem_of_filter in Hc as [_ ?].
  - by eapply descendant_elem.
Qed.

Lemma order_complete_depth m k : m ∈ l → depthIs l m k → m ∈ order.
Proof.
  intros Hm Hd. induction Hd as [m Hroot|m p k Hp Hpar Hd IH].
  - eapply Preorder_heads; [exact order_pre|]. by apply list_elem_of_filter.
  - destruct (Preorder_block _ _ _ p order_pre (IH Hp)) as (r1 & sub & r2 & -> & Hsub).
    apply elem_of_app. right. right. apply elem_of_app. left.
    eapply Preorder_heads; [exact Hsub|]. by apply list_elem_of_filter.
Qed.

Lemma order_complete m : m ∈ l → m ∈ order.
Proof. intros Hm. destruct (l_rooted m Hm) as [k Hk]. by eapply order_complete_depth. Qed.

Lemma order_NoDup : NoDup order.
Proof.
  apply (Preorder_NoDup l l_ids _ _ order_pre 0).
  - apply NoDup_filter. by eapply NoDup_fmap_1.
  - intros c [Hc Hin]%list_elem_of_filter. split; [done|]. by constructor.
Qed.

Lemma order_Permutation : order ≡ₚ l.
Proof.
  apply NoDup_Permutation; [apply order_NoDup|by eapply NoDup_fmap_1|].
  intros x. split; [apply order_sound|apply order_complete].
Qed.

(** The siblings of a measurement are listed as one pre-order inside the
    listing. *)
Lemma sibling_region s :
  s ∈ l →
  ∃ r1 r r2, order = r1 ++ r ++ r2 ∧ Preorder l (childrenOf l (dc_parentId s)) r.
Proof.
  intros Hs. destruct (l_rooted s Hs) as [k Hk].
  destruct Hk as [s Hroot|s p k Hp Hpar Hd].
  - exists [], order, []. rewrite Hroot. split; [by rewrite app_nil_r|exact order_pre].
  - destruct (Preorder_block _ _ _ p order_pre (order_complete p Hp))
      as (r1 & sub & r2 & -> & Hsub).
    exists (r1 ++ [p]), sub, r2. rewrite Hpar. split; [list_assoc|done].
Qed.

Lemma parent_before_descendant a x :
  a ∈ l → descendantOf l a x → before a x order.
Proof.
  intros Ha Hd.
  destruct (Preorder_block _ _ _ a order_pre (order_complete a Ha))
    as (r1 & sub & r2 & -> & Hsub).
  apply before_block. by eapply Preorder_descendants.
Qed.

Lemma siblings_split s1 s2 :
  s1 ∈ l → s2 ∈ l → dc_parentId s1 = dc_parentId s2 → before s1 s2 l →
  ∃ r1 sub1 r2 r3, order = r1 ++ s1 :: sub1 ++ r2 ++ s2 :: r3
                   ∧ Preorder l (childrenOf l (Some (dc_id s1))) sub1.
Proof.
  intros H1 H2 Hpar Hbefore.
  destruct (sibling_region s1 H1) as (q1 & r & q2 & -> & Hr).
  assert (before s1 s2 (childrenOf l (dc_parentId s1))) as Hb.
  { by apply before_filter. }
  destruct (Preorder_split _ _ _ _ _ Hr Hb) as (r1 & sub1 & r2 & r3 & -> & Hsub).
  exists (q1 ++ r1), sub1, r2, (r3 ++ q2). split; [list_assoc|done].
Qed.

Lemma siblings_in_order s1 s2 :
  s1 ∈ l → s2 ∈ l → dc_parentId s1 = dc_parentId s2 → before s1 s2 l →
  before s1 s2 order.
Proof.
  intros H1 H2 Hpar Hb.
  destruct (siblings_split s1 s2 H1 H2 Hpar Hb) as (r1 & sub1 & r2 & r3 & -> & _).
  exists r1, (sub1 ++ r2), r3. list_assoc.
Qed.

Lemma descendant_before_later_sibling s1 s2 x :
  s1 ∈ l → s2 ∈ l → dc_parentId s1 = dc_parentId s2 → before s1 s2 l →
  descendantOf l s1 x → before x s2 order.
Proof.
  intros H1 H2 Hpar Hb Hd.
  destruct (siblings_split s1 s2 H1 H2 Hpar Hb) as (r1 & sub1 & r2 & r3 & -> & Hsub).
  pose proof (Preorder_descendants _ _ _ _ Hsub Hd) as (a & b & ->)%list_elem_of_split.
  exists (r1 ++ s1 :: a), (b ++ r2), r3. list_assoc.
Qed.

End TreeOrder.

(** C2.  For the measurements of an inverter that form a forest (unique
    identifiers, every parent link leading within the inverter to a
    top-level measurement), [getOrderedDcTree] returns, and lists exactly
    the measurements of that inverter, each once, in depth-first pre-order:
    every measurement before all its descendants, all descendants of a
    measurement before any later sibling of it, and siblings in the order
    they have in the underlying list. *)
Theorem getOrderedDcTree_preorder measurements inverterIndex :
  forestOf measurements inverterIndex →
  let forInverter := filter (λ m, dc_inverterIndex m = inverterIndex) measurements in
  ∃ out,
    getOrderedDcTree measurements inverterIndex = Some out
    ∧ (∀ fuel, (length forInverter < fuel)%nat →
         getOrderedDcTreeFuel fuel measurements inverterIndex = Some out)
    ∧ let order := measurement <$> out in
      order ≡ₚ forInverter
      ∧ Preorder forInverter (childrenOf forInverter None) order
      ∧ (∀ a x, a ∈ forInverter → descendantOf forInverter a x → before a x order)
      ∧ (∀ s1 s2 x, s1 ∈ forInverter → s2 ∈ forInverter →
           dc_parentId s1 = dc_parentId s2 → before s1 s2 measurements →
           descendantOf forInverter s1 x → before x s2 order)
      ∧ (∀ s1 s2, s1 ∈ forInverter → s2 ∈ forInverter →
           dc_parentId s1 = dc_parentId s2 → before s1 s2 measurements →
           before s1 s2 order).
Proof.
  intros [Hids Hrooted] l. fold l in Hids, Hrooted.
  destruct (walk_total l Hids (S (length l)) 0 None 0 []) as [out Hout]; [|lia|lia|].
  { intros m [Hroot _]%list_elem_of_filter. by constructor. }
  assert (∀ fuel, (length l < fuel)%nat → walk fuel l None 0 [] = Some out) as Hfuel.
  { intros fuel Hf. eapply walk_mono_le; [|exact Hout]. lia. }
  exists out. split; [|split; [exact Hfuel|]].
  { unfold getOrderedDcTree, getOrderedDcTreeFuel. fold l. apply Hfuel.
    pose proof (length_filter (λ m, dc_inverterIndex m = inverterIndex) measurements).
    fold l in H. lia. }
  destruct (walk_Preorder l _ _ _ _ _ Hout) as (r & Hr & Hpre). simpl in Hr.
  intros order. unfold order. rewrite Hr. clear order.
  assert (∀ s1 s2, s1 ∈ l → s2 ∈ l → before s1 s2 measurements → before s1 s2 l) as Hb.
  { intros s1 s2 [H1 _]%list_elem_of_filter [H2 _]%list_elem_of_filter Hb.
    by apply before_filter. }
  split; [by apply order_Permutation|]. split; [done|].
  split; [intros a x; by apply parent_before_descendant|]. split.
  - intros s1 s2 x H1 H2 Hpar Hbefore.
    eapply descendant_before_later_sibling; eauto.
  - intros s1 s2 H1 H2 Hpar Hbefore.
    eapply siblings_in_order; eauto.
Qed.

Lemma forestOf_forestList : forestOf Samples.forestList 1.
Proof.
  split; [compute_done|].
  change (filter (λ m, dc_inverterIndex m = 1%Z) Samples.forestList)
    with [Samples.nodeA; Samples.nodeB; Samples.nodeA1; Samples.nodeA2; Samples.nodeA11].
  set (l := [Samples.nodeA; Samples.nodeB; Samples.nodeA1; Samples.nodeA2; Samples.nodeA11]).
  assert (depthIs l Samples.nodeA 0) as HA by (by constructor).
  assert (depthIs l Samples.nodeA1 1) as HA1.
  { apply (depth_child l _ Samples.nodeA); [compute_done|done|done]. }
  intros m Hm. repeat (apply elem_of_cons in Hm as [->|Hm]).
  - by exists 0%nat.
  - exists 0%nat. by constructor.
  - by exists 1%nat.
  - exists 1%nat. apply (depth_child l _ Samples.nodeA); [compute_done|done|done].
  - exists 2%nat. apply (depth_child l _ Samples.nodeA1); [compute_done|done|done].
  - by apply elem_of_nil in Hm.
Qed.

Lemma getOrderedDcTree_preorder_witness :
  ∃ out, getOrderedDcTree Samples.forestList 1 = Some out
         ∧ dc_stringLabel <$> (measurement <$> out) = ["A"; "A.1"; "A.1.1"; "A.2"; "B"]
         ∧ before Samples.nodeA11 Samples.nodeA2 (measurement <$> out).
Proof.
  destruct (getOrderedDcTree_preorder Samples.forestList 1 forestOf_forestList)
    as (out & Hrun & _ & _ & _ & _ & Hdesc & _).
  exists out. split; [exact Hrun|]. split.
  - vm_compute in Hrun. injection Hrun as <-. reflexivity.
  - apply (Hdesc Samples.nodeA1 Samples.nodeA2 Samples.nodeA11);
      [compute_done|compute_done|reflexivity| |].
    + exists [Samples.nodeA; Samples.nodeB; Samples.nodeOther], [], [Samples.nodeA11].
      reflexivity.
    + apply desc_child; [compute_done|reflexivity].
Defined.

(** Where C2 as stated fails: a measurement of the inverter whose parent is
    not in the list is reached from no top-level measurement and is left
    out of the result. *)
Lemma getOrderedDcTree_drops_orphans :
  filter (λ m, dc_inverterIndex m = 1%Z) Samples.orphanList = Samples.orphanList
  ∧ (λ out : list TreeEntry, measurement <$> out) <$> getOrderedDcTree Samples.orphanList 1
      = Some [Samples.nodeA]
  ∧ ¬ ([Samples.nodeA] ≡ₚ Samples.orphanList).
Proof.
  split; [reflexivity|]. split; [vm_compute; reflexivity|].
  intros Hp. apply Permutation_length in Hp. discriminate Hp.
Qed.

(* ================================================================== *)
(** * Further properties of the exporter *)
(* ================================================================== *)

Import Layout.

(** ** The stripe baker, applied twice *)

Lemma stripeLoop_all_flagged flagged colCount (rows : list Z) : ∀ ws i,
  (∀ r, r ∈ rows → r ∈ flagged) →
  (foldl (stripeStep flagged colCount) (ws, i) rows).1 = ws.
Proof.
  induction rows as [|r rows IH]; intros ws i Hall; [done|].
  cbn [foldl]. unfold stripeStep at 2. cbn [fst snd].
  rewrite bool_decide_eq_true_2 by (apply Hall; left).
  apply IH. intros r' Hr'. apply Hall. by right.
Qed.

Lemma stripeLoop_no_columns flagged colCount (rows : list Z) : ∀ ws i,
  (colCount < 1)%Z →
  (foldl (stripeStep flagged colCount) (ws, i) rows).1 = ws.
Proof.
  induction rows as [|r rows IH]; intros ws i Hc; [done|].
  cbn [foldl]. unfold stripeStep at 2. cbn [fst snd].
  assert (paintRow ws r colCount (stripeColor i) = ws) as ->.
  { unfold paintRow. replace (seqZ 1 colCount) with (@nil Z); [done|].
    symmetry. apply seqZ_nil. lia. }
  destruct (bool_decide (r ∈ flagged)); by apply IH.
Qed.

Lemma hasSolidFill_striped cell color : hasSolidFill (striped cell color) = true.
Proof. reflexivity. Qed.

(** X1.  Baking the stripes a second time, over the same range, changes
    nothing: after the first pass every row of the range has a solid fill in
    column 1 (or there is no column to paint), so the second pass flags
    every row and paints none. *)
Theorem bakeTableStripes_idempotent ws startRow endRow colCount :
  let once := bakeTableStripes ws startRow endRow colCount in
  bakeTableStripes once startRow endRow colCount = once.
Proof.
  intros once. unfold bakeTableStripes at 1.
  destruct (decide (colCount < 1)%Z) as [Hc|Hc].
  { by apply stripeLoop_no_columns. }
  apply stripeLoop_all_flagged. intros r Hr%elem_of_rowRange.
  apply elem_of_scanFilledRows. split; [done|].
  unfold once. rewrite bakeTableStripes_cell.
  destruct (hasSolidFill (getCell ws r 1)) eqn:E.
  - rewrite bool_decide_eq_false_2 by naive_solver. done.
  - rewrite bool_decide_eq_true_2 by (split; [lia|split; [done|lia]]). done.
Qed.

(** ** The form of a section code *)

Lemma append_cons x a s : String x a +:+ s = String x (a +:+ s).
Proof. reflexivity. Qed.

Lemma append_empty_r a : a +:+ "" = a.
Proof. induction a as [|x a IH]; [done|]. rewrite append_cons. by f_equal. Qed.

Lemma isDigit_true a : isDigit a = true ↔ (48 ≤ Ascii.nat_of_ascii a ≤ 57)%nat.
Proof.
  unfold isDigit. rewrite andb_true_iff, !Nat.leb_le. done.
Qed.

Lemma dropDigits_split s :
  ∃ a, s = a +:+ dropDigits s
       ∧ (∀ x, x ∈ String.list_ascii_of_string a → isDigit x = true)
       ∧ startsWithDigit (dropDigits s) = false.
Proof.
  induction s as [|x s (a & Hs & Ha & Hrest)]; simpl.
  - exists "". split; [done|]. split; [|done]. by intros x ?%elem_of_nil.
  - destruct (isDigit x) eqn:E.
    + exists (String x a). split; [rewrite append_cons; by f_equal|]. split; [|done].
      simpl. intros y [->|Hy]%elem_of_cons; [done|by apply Ha].
    + exists "". split; [done|]. split; [by intros y ?%elem_of_nil|]. simpl. done.
Qed.

Lemma dropDigits_app a s :
  (∀ x, x ∈ String.list_ascii_of_string a → isDigit x = true) →
  dropDigits (a +:+ s) = dropDigits s.
Proof.
  induction a as [|x a IH]; intros Ha; [done|]. rewrite append_cons. simpl.
  rewrite (Ha x) by (simpl; left). apply IH. intros y Hy. apply Ha. simpl. by right.
Qed.

(** X2.  The test [/^\d+\.\d+$/] of the addressing scan accepts exactly the
    strings made of a non-empty run of digits, a dot and a non-empty run of
    digits. *)
Theorem isSectionCode_spec val :
  isSectionCode val = true ↔
  ∃ a b, digitString a ∧ digitString b ∧ val = a +:+ "." +:+ b.
Proof.
  unfold isSectionCode. split.
  - intros [Hstart Hrest]%andb_true_iff.
    destruct (dropDigits_split val) as (a & Hval & Ha & _).
    destruct (dropDigits val) as [|dot rest] eqn:Edrop; [done|].
    destruct (decide (dot = "."%char)) as [->|Hdot].
    2:{ exfalso. revert Hrest. clear -Hdot.
        destruct dot as [[] [] [] [] [] [] [] []]; try done. }
    apply andb_true_iff in Hrest as [Hb1 Hb2%bool_decide_eq_true].
    destruct (dropDigits_split rest) as (b & Hb & Hbd & _).
    rewrite Hb2 in Hb.
    exists a, b. split; [|split].
    + split.
      * intros ->. simpl in Hval. subst val. done.
      * intros x Hx. by apply isDigit_true, Ha.
    + split.
      * intros ->. simpl in Hb. subst rest. done.
      * intros x Hx. by apply isDigit_true, Hbd.
    + rewrite Hval. f_equal. change ("." +:+ b) with (String "."%char b). f_equal.
      by rewrite Hb, append_empty_r.
  - intros (a & b & [Ha1 Ha2] & [Hb1 Hb2] & ->).
    assert (∀ x, x ∈ String.list_ascii_of_string a → isDigit x = true) as Ha.
    { intros x Hx. by apply isDigit_true, Ha2. }
    assert (∀ x, x ∈ String.list_ascii_of_string b → isDigit x = true) as Hb.
    { intros x Hx. by apply isDigit_true, Hb2. }
    apply andb_true_iff. split.
    + destruct a as [|x a]; [done|]. rewrite append_cons. simpl. apply Ha. simpl. left.
    + rewrite dropDigits_app by done.
      change ("." +:+ b) with (String "."%char b). simpl.
      apply andb_true_iff. split.
      * destruct b as [|x b]; [done|]. simpl. apply Hb. simpl. left.
      * apply bool_decide_eq_true.
        rewrite <-(append_empty_r b) at 1. by rewrite dropDigits_app.
Qed.

(** ** The row a section code is mapped to *)

Lemma codeMap_fold_last ws (rows : list Z) code :
  StronglySorted Z.lt rows →
  ∀ row,
  foldl (λ (map : gmap string Z) rowNumber,
           let val := trim (jsString (cell_value (getCell ws rowNumber 1))) in
           if isSectionCode val then <[val := rowNumber]> map else map) ∅ rows !! code
    = Some row ↔
  isSectionCode code = true ∧ row ∈ rows ∧ codeOfRow ws row = code
  ∧ ∀ r, r ∈ rows → codeOfRow ws r = code → (r ≤ row)%Z.
Proof.
  induction rows as [|x rows IH] using rev_ind; intros Hsorted row.
  { simpl. rewrite lookup_empty. split; [done|]. by intros (_ & ?%elem_of_nil & _). }
  rewrite foldl_app. cbn [foldl].
  assert (StronglySorted Z.lt rows ∧ ∀ r, r ∈ rows → (r < x)%Z) as [Hs Hlt].
  { clear -Hsorted. induction rows as [|y rows IH]; simpl in *.
    - split; [constructor|]. by intros r ?%elem_of_nil.
    - apply StronglySorted_inv in Hsorted as [Hs Hall].
      destruct (IH Hs) as [Hs' Hlt]. split.
      + constructor; [done|]. by apply Forall_app in Hall as [? _].
      + intros r [->|Hr]%elem_of_cons; [|by apply Hlt].
        apply Forall_app in Hall as [_ Hx]. by rewrite Forall_singleton in Hx. }
  specialize (IH Hs). fold (codeOfRow ws x). cbv zeta.
  destruct (isSectionCode (codeOfRow ws x)) eqn:Ecode.
  - destruct (decide (codeOfRow ws x = code)) as [<-|Hne].
    + rewrite lookup_insert_eq. split.
      * intros [= <-]. split; [done|]. split; [apply elem_of_app; right; left|].
        split; [done|]. intros r [Hr| ->%list_elem_of_singleton]%elem_of_app _; [|lia].
        specialize (Hlt r Hr). lia.
      * intros (_ & Hrow & Hc & Hmax). f_equal.
        specialize (Hmax x ltac:(apply elem_of_app; right; left) eq_refl).
        apply elem_of_app in Hrow as [Hr| ->%list_elem_of_singleton]; [|done].
        specialize (Hlt row Hr). lia.
    + rewrite lookup_insert_ne by done. rewrite IH. split.
      * intros (H1 & H2 & H3 & H4). split; [done|]. split; [apply elem_of_app; by left|].
        split; [done|]. intros r [Hr| ->%list_elem_of_singleton]%elem_of_app Hc; [by apply H4|done].
      * intros (H1 & H2 & H3 & H4). split; [done|].
        apply elem_of_app in H2 as [H2| ->%list_elem_of_singleton]; [|done].
        split; [done|]. split; [done|]. intros r Hr. apply H4, elem_of_app. by left.
  - rewrite IH. split.
    + intros (H1 & H2 & H3 & H4). split; [done|]. split; [apply elem_of_app; by left|].
      split; [done|]. intros r [Hr| ->%list_elem_of_singleton]%elem_of_app Hc; [by apply H4|].
      congruence.
    + intros (H1 & H2 & H3 & H4). split; [done|].
      apply elem_of_app in H2 as [H2| ->%list_elem_of_singleton]; [|congruence].
      split; [done|]. split; [done|]. intros r Hr. apply H4, elem_of_app. by left.
Qed.

(** X3.  [buildCodeToRowMap] sends a section code to the last row that
    carries it: the map has [row] for [code] exactly when [code] has the
    form of a section code, row [row] (1 or greater) shows it in column A,
    trimmed, and no row further down does. *)
Theorem buildCodeToRowMap_last_row ws code row :
  buildCodeToRowMap ws !! code = Some row ↔
  isSectionCode code = true ∧ (1 ≤ row)%Z ∧ codeOfRow ws row = code
  ∧ ∀ r, (1 ≤ r)%Z → codeOfRow ws r = code → (r ≤ row)%Z.
Proof.
  unfold buildCodeToRowMap.
  rewrite (codeMap_fold_last ws _ code (eachRowNumbers_sorted ws)).
  assert (∀ r, isSectionCode code = true → codeOfRow ws r = code →
            (r ∈ eachRowNumbers ws ↔ (1 ≤ r)%Z)) as Hvisited.
  { intros r Hcode Hr. rewrite elem_of_eachRowNumbers. split; [by intros [? _]|].
    intros Hpos. split; [done|]. exists 1%Z. apply codeOfRow_value.
    rewrite Hr. by apply isSectionCode_nonempty. }
  split.
  - intros (Hcode & Hrow & Hc & Hmax). split; [done|].
    split; [by apply (Hvisited row)|]. split; [done|].
    intros r Hr Hrc. apply Hmax; [|done]. by apply Hvisited.
  - intros (Hcode & Hrow & Hc & Hmax). split; [done|].
    split; [by apply Hvisited|]. split; [done|].
    intros r Hr Hrc. apply Hmax; [|done]. by apply (Hvisited r).
Qed.

(** ** The cells after a fill *)

Lemma getCell_setCell ws r c v r' c' :
  getCell (setCell ws r c v) r' c' =
  if decide ((r, c) = (r', c')) then cellAfter (getCell ws r c) v else getCell ws r' c'.
Proof.
  unfold setCell, cellAfter.
  destruct v as [[[|a s]|n]|]; rewrite ?getCell_setValue;
    repeat case_decide; simplify_eq; done.
Qed.

Lemma cellAfter_style cell v : cell_style (cellAfter cell v) = cell_style cell.
Proof. by destruct v as [[[|a s]|n]|]. Qed.

Lemma writeIfDefined_setCell ws r c v :
  writeIfDefined ws r c v = setCell ws r c (SNum <$> v).
Proof. by destruct v. Qed.

Lemma rowAt_nil {A} start r : rowAt (@nil A) start r = None.
Proof. unfold rowAt. by case_decide. Qed.

Lemma rowAt_cons {A} (x : A) rows start r :
  rowAt (x :: rows) start r =
  if decide (r = start) then Some x else rowAt rows (start + 1) r.
Proof.
  unfold rowAt. repeat case_decide; try lia.
  - subst r. by rewrite Z.sub_diag.
  - replace (Z.to_nat (r - start)) with (S (Z.to_nat (r - (start + 1)))) by lia. done.
  - done.
Qed.

Lemma rowAt_app {A} (l1 l2 : list A) start r :
  rowAt (l1 ++ l2) start r =
  match rowAt l1 start r with
  | Some x => Some x
  | None => rowAt l2 (start + Z.of_nat (length l1)) r
  end.
Proof.
  revert start. induction l1 as [|x l1 IH]; intros start.
  - rewrite rowAt_nil. simpl. by rewrite Z.add_0_r.
  - simpl. rewrite !rowAt_cons. case_decide; [done|].
    rewrite IH. replace (start + 1 + Z.of_nat (length l1))%Z
      with (start + Z.of_nat (S (length l1)))%Z by lia. done.
Qed.

Lemma rowAt_Some {A} (rows : list A) start r x :
  rowAt rows start r = Some x → (start ≤ r < start + Z.of_nat (length rows))%Z.
Proof.
  unfold rowAt. case_decide; [|done]. intros Hl%lookup_lt_Some. lia.
Qed.

Lemma rowAt_lookup {A} (rows : list A) start i :
  rowAt rows start (start + Z.of_nat i) = rows !! i.
Proof.
  unfold rowAt. rewrite decide_True by lia. f_equal. lia.
Qed.

Lemma laidOut_nil {A} (value : A → Z → option Scalar) ws start :
  laidOut value ws ws start [].
Proof. intros r c. by rewrite rowAt_nil. Qed.

Lemma laidOut_app {A} (value : A → Z → option Scalar) ws ws1 ws2 start rows1 rows2 :
  laidOut value ws ws1 start rows1 →
  laidOut value ws1 ws2 (start + Z.of_nat (length rows1)) rows2 →
  laidOut value ws ws2 start (rows1 ++ rows2).
Proof.
  intros H1 H2 r c. rewrite H2, H1, rowAt_app.
  destruct (rowAt rows1 start r) as [x|] eqn:E1.
  - apply rowAt_Some in E1.
    destruct (rowAt rows2 _ r) as [y|] eqn:E2; [apply rowAt_Some in E2; lia|]. done.
  - done.
Qed.

Lemma laidOut_ext {A} (value : A → Z → option Scalar) ws ws' ws'' start rows :
  (∀ r c, getCell ws'' r c = getCell ws' r c) →
  laidOut value ws ws' start rows → laidOut value ws ws'' start rows.
Proof. intros Hext H r c. by rewrite Hext. Qed.

(** *** Defects sheet *)

Lemma fillDefectRow_laidOut ws i d :
  laidOut defectColumn ws (fillDefectRow ws i d) (Z.of_nat i + 2) [d].
Proof.
  intros r c. unfold fillDefectRow. cbv zeta. rewrite !getCell_setCell.
  rewrite rowAt_cons, rowAt_nil. unfold defectColumn.
  repeat case_decide; simplify_eq; try done; try lia.
Qed.

Lemma fillDefects_laidOut (defects : list Defect) : ∀ ws,
  laidOut defectColumn ws (fillDefectsSheet ws defects) 2 defects.
Proof.
  unfold fillDefectsSheet.
  induction defects as [|d defects IH] using rev_ind; intros ws.
  { apply laidOut_nil. }
  rewrite imap_app, foldl_app. cbn [imap foldl fst snd].
  eapply laidOut_app; [apply IH|].
  rewrite Nat.add_0_r.
  replace (2 + Z.of_nat (length defects))%Z with (Z.of_nat (length defects) + 2)%Z by lia.
  apply fillDefectRow_laidOut.
Qed.

(** X4.  The defects sheet after the fill: the defect at position i of the
    list lies in sheet row i + 2, with component, fault, location and status
    in columns 1 to 4; a field that is the empty string leaves the cell of
    the template as it is, and so does the fill for every other cell.  No
    style changes. *)
Theorem fillDefectsSheet_rows ws defects r c :
  getCell (fillDefectsSheet ws defects) r c =
  cellAfter (getCell ws r c) (rowAt defects 2 r ≫= λ d, defectColumn d c).
Proof. apply fillDefects_laidOut. Qed.

(** *** DC sheet *)

Lemma fillDcRow_laidOut ws row entry :
  (fillDcRow (ws, row) entry).2 = (row + 1)%Z
  ∧ laidOut dcRowValue ws (fillDcRow (ws, row) entry).1 row [DcString entry].
Proof.
  split; [done|]. intros r c. unfold fillDcRow. cbn [fst].
  rewrite !writeIfDefined_setCell, !getCell_setCell.
  rewrite rowAt_cons, rowAt_nil. unfold dcRowValue. cbv zeta.
  repeat case_decide; simplify_eq; try done; try lia.
Qed.

Lemma fillDcRows_laidOut (tree : list TreeEntry) : ∀ ws row,
  (foldl fillDcRow (ws, row) tree).2 = (row + Z.of_nat (length tree))%Z
  ∧ laidOut dcRowValue ws (foldl fillDcRow (ws, row) tree).1 row (DcString <$> tree).
Proof.
  induction tree as [|entry tree IH] using rev_ind; intros ws row.
  { split; [simpl; lia|apply laidOut_nil]. }
  rewrite foldl_app, fmap_app, length_app. cbn [foldl fmap list_fmap length].
  destruct (IH ws row) as [Hrow Hcells].
  destruct (foldl fillDcRow (ws, row) tree) as [ws1 row1]. cbn [fst snd] in *. subst row1.
  destruct (fillDcRow_laidOut ws1 (row + Z.of_nat (length tree)) entry) as [Hrow' Hcells'].
  split; [rewrite Hrow'; lia|].
  eapply laidOut_app; [exact Hcells|]. by rewrite length_fmap.
Qed.

Lemma fillDcInverter_laidOut inspection ws row config :
  match getOrderedDcTree (dcMeasurements inspection) (cfg_index config) with
  | Some tree =>
      ∃ ws1, fillDcInverter inspection (ws, row) config
               = Some (ws1, (row + 1 + Z.of_nat (length tree))%Z)
             ∧ laidOut dcRowValue ws ws1 row (DcHeader config :: (DcString <$> tree))
  | None => fillDcInverter inspection (ws, row) config = None
  end.
Proof.
  unfold fillDcInverter. cbv zeta. cbn [fst snd].
  destruct (getOrderedDcTree _ _) as [tree|]; cbn [mbind option_bind]; [|done].
  destruct (fillDcRows_laidOut tree (setCell ws row 1 (Some (SNum (cfg_index config))))
              (row + 1)) as [Hrow Hcells].
  destruct (foldl fillDcRow _ tree) as [ws1 row1]. cbn [fst snd] in *. subst row1.
  exists ws1. split; [done|].
  change (DcHeader config :: (DcString <$> tree))
    with ([DcHeader config] ++ (DcString <$> tree)).
  eapply laidOut_app; [|exact Hcells].
  intros r c. rewrite getCell_setCell, rowAt_cons, rowAt_nil. unfold dcRowValue.
  repeat case_decide; simplify_eq; try done; try lia.
Qed.

Lemma fillDcInverters_laidOut inspection (configs : list InverterConfig) : ∀ ws row,
  match dcBlocks inspection configs with
  | Some rows =>
      ∃ ws', foldl (λ acc config, st ← acc; fillDcInverter inspection st config)
                   (Some (ws, row)) configs = Some (ws', (row + Z.of_nat (length rows))%Z)
             ∧ laidOut dcRowValue ws ws' row rows
  | None =>
      foldl (λ acc config, st ← acc; fillDcInverter inspection st config)
            (Some (ws, row)) configs = None
  end.
Proof.
  induction configs as [|config configs IH]; intros ws row.
  { simpl. exists ws. split; [f_equal; f_equal; lia|apply laidOut_nil]. }
  cbn [dcBlocks foldl]. cbn [mbind option_bind].
  pose proof (fillDcInverter_laidOut inspection ws row config) as Hone.
  destruct (getOrderedDcTree _ _) as [tree|]; cbn [mbind option_bind].
  2:{ rewrite Hone. by apply foldl_option_None. }
  destruct Hone as (ws1 & -> & Hhead).
  specialize (IH ws1 (row + 1 + Z.of_nat (length tree))%Z).
  destruct (dcBlocks inspection configs) as [rows|]; cbn [mbind option_bind]; [|done].
  destruct IH as (ws2 & Hrun & Hrest).
  exists ws2. split.
  { rewrite Hrun. f_equal. f_equal. simpl. rewrite length_app, length_fmap. lia. }
  change (DcHeader config :: (DcString <$> tree) ++ rows)
    with ((DcHeader config :: (DcString <$> tree)) ++ rows).
  eapply laidOut_app; [exact Hhead|].
  cbn [length]. rewrite length_fmap.
  replace (row + Z.of_nat (S (length tree)))%Z
    with (row + 1 + Z.of_nat (length tree))%Z by lia.
  exact Hrest.
Qed.

Lemma fillDcSheet_cells ws inspection :
  match dcRows inspection with
  | Some rows =>
      ∃ ws1, fillDcSheet ws inspection = Some (ws1, (1 + Z.of_nat (length rows))%Z)
             ∧ ∀ r c, getCell ws1 r c =
                      cellAfter (getCell ws r c) (rowAt rows 2 r ≫= λ row, dcRowValue row c)
  | None => fillDcSheet ws inspection = None
  end.
Proof.
  unfold dcRows, fillDcSheet.
  pose proof (fillDcInverters_laidOut inspection (inverterConfigs inspection) ws 2) as H.
  destruct (dcBlocks _ _) as [rows|].
  - destruct H as (ws1 & -> & Hcells). cbn [mbind option_bind fst snd].
    exists ws1. split; [f_equal; f_equal; lia|exact Hcells].
  - by rewrite H.
Qed.

(** X5.  The DC sheet after the fill.  From sheet row 2 on come, for each
    configured inverter in order, one header row with the inverter index in
    column 1 and then one row per measurement of the inverter in tree order,
    with the string label in column 2 and the six measured values in columns
    3 to 8; a value that is undefined, or a label that is empty, leaves the
    cell of the template as it is, and so does the fill for every other
    cell.  The number returned is the last row written (1 when there is no
    inverter).  The fill returns exactly when every tree walk returns. *)
Theorem fillDcSheet_layout ws inspection :
  match dcRows inspection with
  | Some rows =>
      ∃ ws1, fillDcSheet ws inspection = Some (ws1, (1 + Z.of_nat (length rows))%Z)
             ∧ ∀ r c, getCell ws1 r c =
                      cellAfter (getCell ws r c) (rowAt rows 2 r ≫= λ row, dcRowValue row c)
  | None => fillDcSheet ws inspection = None
  end.
Proof. apply fillDcSheet_cells. Qed.

(** *** Styles *)

Lemma style_foldl {B} (f : Worksheet → B → Worksheet) (l : list B) r c :
  (∀ ws x, cell_style (getCell (f ws x) r c) = cell_style (getCell ws r c)) →
  ∀ ws, cell_style (getCell (foldl f ws l) r c) = cell_style (getCell ws r c).
Proof.
  intros Hf. induction l as [|x l IH]; intros ws; simpl; [done|]. by rewrite IH.
Qed.

(** X6.  The four sheet fillers write values only: every cell of the
    worksheet has, after a fill, the style it had before. *)
Theorem fillers_preserve_styles ws inspection defects r c :
  cell_style (getCell (fillChecklistSheet ws inspection) r c) = cell_style (getCell ws r c)
  ∧ cell_style (getCell (fillAcSheet ws inspection) r c) = cell_style (getCell ws r c)
  ∧ cell_style (getCell (fillDefectsSheet ws defects) r c) = cell_style (getCell ws r c)
  ∧ ∀ ws1 lastRow, fillDcSheet ws inspection = Some (ws1, lastRow) →
      cell_style (getCell ws1 r c) = cell_style (getCell ws r c).
Proof.
  split; [|split; [|split]].
  - unfold fillChecklistSheet. cbv zeta. rewrite style_foldl.
    + unfold fillChecklistHeader. cbv zeta.
      destruct (truthy _); rewrite !setCell_style; done.
    + intros w item. unfold fillChecklistItem.
      destruct (_ !! _); [|done].
      destruct (truthy (item_status item)), (truthy (item_notes item));
        by rewrite ?setCell_style.
  - unfold fillAcSheet. cbv zeta. rewrite style_foldl.
    + apply style_foldl. intros w m. unfold fillAcItem.
      destruct (_ !! _); [|done].
      destruct (truthy (ac_notes m)), (ac_result m) as [v|];
        try case_bool_decide; by rewrite ?setCell_style.
    + intros w serial. rewrite fillSerial_target.
      destruct (serialTarget _ _); [apply setCell_style|done].
  - by rewrite (fillDefects_laidOut defects ws r c), cellAfter_style.
  - intros ws1 lastRow Hrun.
    pose proof (fillDcSheet_cells ws inspection) as H.
    destruct (dcRows inspection) as [rows|]; [|congruence].
    destruct H as (ws2 & Hrun' & Hcells). rewrite Hrun in Hrun'. injection Hrun' as -> _.
    by rewrite Hcells, cellAfter_style.
Qed.

(** *** Sheets the export does not fill *)





(* ================================================================== *)
(** * Further properties of the store *)
(* ================================================================== *)

Import Lineage.

(** ** Removing a measurement *)

Lemma below_elem ms id m : below ms id m → m ∈ ms.
Proof. by intros []. Qed.

Lemma below_top ms id x :
  below ms id x →
  ∃ c, c ∈ ms ∧ dc_parentId c = Some id ∧ (x = c ∨ below ms (dc_id c) x).
Proof.
  induction 1 as [m Hm Hp|p m Hb (c & Hc & Hcp & IH) Hm Hp].
  - exists m. by eauto.
  - exists c. split; [done|]. split; [done|]. right.
    destruct IH as [->|IH]; [by apply below_child|by eapply below_step].
Qed.

Lemma below_under ms id c x :
  c ∈ ms → dc_parentId c = Some id → below ms (dc_id c) x → below ms id x.
Proof.
  intros Hc Hcp. induction 1 as [m Hm Hp|p m Hb IH Hm Hp].
  - apply (below_step ms id c m); [by apply below_child|done|done].
  - by eapply below_step.
Qed.

Lemma getDescendantIds_below ms fuel : ∀ pid ids,
  getDescendantIds fuel ms pid = Some ids →
  ∀ x, x ∈ ids ↔ ∃ m, dc_id m = x ∧ below ms pid m.
Proof.
  induction fuel as [|fuel IH]; intros pid ids Hrun; [done|].
  rewrite getDescendantIds_S in Hrun.
  assert (∀ (l : list DcStringMeasurement) acc r,
    (∀ m, m ∈ l → m ∈ ms) →
    foldl (λ acc m,
             ids ← acc;
             if decide (dc_parentId m = Some pid)
             then sub ← getDescendantIds fuel ms (dc_id m);
                  Some (ids ++ [dc_id m] ++ sub)
             else Some ids) (Some acc) l = Some r →
    ∀ x, x ∈ r ↔ x ∈ acc ∨ ∃ c, c ∈ l ∧ dc_parentId c = Some pid
                  ∧ (x = dc_id c ∨ ∃ m, dc_id m = x ∧ below ms (dc_id c) m)) as Hfold.
  { induction l as [|c l IHl]; intros acc r Hsub Hr x; cbn [foldl] in Hr.
    - injection Hr as <-. split; [by left|]. intros [?|(c & ?%elem_of_nil & _)]; done.
    - cbn [mbind option_bind] in Hr.
      assert (∀ m, m ∈ l → m ∈ ms) as Hsub' by (intros m Hm; apply Hsub; by right).
      destruct (decide (dc_parentId c = Some pid)) as [Hcp|Hcp].
      + destruct (getDescendantIds fuel ms (dc_id c)) as [sub|] eqn:Esub;
          cbn [mbind option_bind] in Hr.
        2:{ rewrite foldl_option_None in Hr by done. done. }
        rewrite (IHl _ _ Hsub' Hr x). rewrite !elem_of_app, list_elem_of_singleton.
        rewrite (IH _ _ Esub x). split.
        * intros [[Hacc|[->|Hbelow]]|(c' & Hc' & Hrest)].
          -- by left.
          -- right. exists c. split; [left|]. split; [done|]. by left.
          -- right. exists c. split; [left|]. split; [done|]. by right.
          -- right. exists c'. split; [by right|done].
        * intros [Hacc|(c' & [->|Hc']%elem_of_cons & Hp' & Hrest)].
          -- left. by left.
          -- left. right. destruct Hrest as [->|Hb]; [by left|by right].
          -- right. exists c'. done.
      + rewrite (IHl _ _ Hsub' Hr x). split.
        * intros [Hacc|(c' & Hc' & Hrest)]; [by left|].
          right. exists c'. split; [by right|done].
        * intros [Hacc|(c' & [->|Hc']%elem_of_cons & Hp' & Hrest)]; [by left|done|].
          right. exists c'. done. }
  intros x. rewrite (Hfold ms [] ids (λ m Hm, Hm) Hrun x). split.
  - intros [?%elem_of_nil|(c & Hc & Hcp & [->|(m & <- & Hb)])]; [done| |].
    + exists c. split; [done|]. by apply below_child.
    + exists m. split; [done|]. by eapply below_under.
  - intros (m & <- & Hb). right.
    apply below_top in Hb as (c & Hc & Hcp & [->|Hb]).
    + exists c. by eauto.
    + exists c. split; [done|]. split; [done|]. right. by exists m.
Qed.

(** X7.  Deleting a measurement cascades to its descendants and to nothing
    else.  For measurements with distinct identifiers and at most three
    levels, [removeDcMeasurement] returns, and keeps, in their order,
    exactly the measurements that are neither the one named nor below it.
    No measurement that stays loses its parent, and nothing else of the
    report changes. *)
Theorem removeDcMeasurement_cascade st id fuel :
  let ms := dcMeasurements (inspection st) in
  NoDup (dc_id <$> ms) →
  (∀ m, m ∈ ms → depthAtMost ms 2 m) →
  (4 ≤ fuel)%nat →
  ∃ st',
    removeDcMeasurement fuel id st = Some st'
    ∧ sublist (dcMeasurements (inspection st')) ms
    ∧ (∀ m, m ∈ dcMeasurements (inspection st') ↔
            m ∈ ms ∧ dc_id m ≠ id ∧ ¬ below ms id m)
    ∧ (∀ m p, m ∈ dcMeasurements (inspection st') → p ∈ ms →
              dc_parentId m = Some (dc_id p) → p ∈ dcMeasurements (inspection st'))
    ∧ reportName st' = reportName st ∧ drawn st' = drawn st
    ∧ meta (inspection st') = meta (inspection st)
    ∧ inverterConfigs (inspection st') = inverterConfigs (inspection st)
    ∧ checklist (inspection st') = checklist (inspection st)
    ∧ acMeasurements (inspection st') = acMeasurements (inspection st)
    ∧ inverterSerials (inspection st') = inverterSerials (inspection st)
    ∧ defects (inspection st') = defects (inspection st).
Proof.
  intros ms Hids Hdepth Hfuel.
  destruct (getDescendantIds_total ms 3 id (forest_levelsBelow ms id Hdepth)) as [ids Hrun].
  apply (getDescendantIds_mono_le ms 4 fuel) in Hrun; [|done].
  pose proof (getDescendantIds_below ms fuel id ids Hrun) as Hspec.
  unfold removeDcMeasurement. cbv zeta. fold ms. rewrite Hrun. cbn [mbind option_bind].
  eexists. split; [reflexivity|]. cbn.
  assert (∀ m, m ∈ filter (λ m, dc_id m ∉ id :: ids) ms ↔
               m ∈ ms ∧ dc_id m ≠ id ∧ ¬ below ms id m) as Hkeep.
  { intros m. rewrite list_elem_of_filter, not_elem_of_cons, Hspec. split.
    - intros [[Hne Hnb] Hm]. split; [done|]. split; [done|].
      intros Hb. apply Hnb. by exists m.
    - intros (Hm & Hne & Hnb). split; [|done]. split; [done|].
      intros (m' & Hid & Hb). apply Hnb.
      assert (m' = m) as <-; [|done].
      eapply NoDup_ids_eq; eauto using below_elem. }
  split; [apply sublist_filter|]. split; [exact Hkeep|]. split; [|done].
  intros m p Hm Hp Hpar. apply Hkeep in Hm as (Hm & Hne & Hnb). apply Hkeep.
  split; [done|]. split.
  - intros Hid. apply Hnb. apply below_child; [done|]. by rewrite Hpar, Hid.
  - intros Hb. apply Hnb. by eapply below_step.
Qed.

(** In the family A, A.1, A.1.1, deleting A.1 leaves A alone. *)
Lemma removeDcMeasurement_cascade_witness :
  ∃ st', removeDcMeasurement 10 "id-1" Samples.familyStore = Some st'
         ∧ Samples.brief <$> dcMeasurements (inspection st') = [("id-0", None, "A", 1%Z)].
Proof.
  destruct storeInv_familyStore as [[Hids _] [_ Hdepth]].
  destruct (removeDcMeasurement_cascade Samples.familyStore "id-1" 10 Hids Hdepth ltac:(lia))
    as (st' & Hrun & _).
  exists st'. split; [exact Hrun|].
  vm_compute in Hrun. injection Hrun as <-. reflexivity.
Defined.

(** *** Top-level labels *)

Lemma letters_lookup k :
  omap letterAt (seq 0 (String.length STRING_LABELS)) !! k = letterAt k.
Proof. do 26 (destruct k as [|k]; [reflexivity|]). reflexivity. Qed.

Lemma letterAt_letter k :
  (k < 26)%nat → letterAt k = Some (String (ascii_of_nat (65 + k)) EmptyString).
Proof. intros Hk. do 26 (destruct k as [|k]; [reflexivity|]). lia. Qed.

Lemma letterAt_beyond k : (26 ≤ k)%nat → letterAt k = None.
Proof. intros Hk. do 26 (destruct k as [|k]; [lia|]). reflexivity. Qed.

(** X8.  [addDcString] appends one top-level measurement of the inverter,
    with a fresh identifier and no values.  Its label is the first letter of
    A..Z that no top-level string of that inverter carries, so the label is
    new among them as long as a letter is free; when all 26 letters are in
    use it is S followed by the number of top-level strings plus one. *)
Theorem addDcString_label (randomUUID : nat → string) inverterIndex st :
  let ms := dcMeasurements (inspection st) in
  let topLevel := filter (λ m, dc_inverterIndex m = inverterIndex ∧ dc_parentId m = None) ms in
  let used := dc_stringLabel <$> topLevel in
  let st' := addDcString randomUUID inverterIndex st in
  ∃ label,
    dcMeasurements (inspection st') =
      ms ++ [ {| dc_id := randomUUID (drawn st); dc_parentId := None;
                 dc_inverterIndex := inverterIndex; dc_stringLabel := label;
                 panelCount := None; openCircuitVoltage := None;
                 operatingCurrent := None; stringRiso := None;
                 feedRisoNegative := None; feedRisoPositive := None |} ]
    ∧ drawn st' = S (drawn st)
    ∧ (∀ k, (k < 26)%nat →
         String (ascii_of_nat (65 + k)) EmptyString ∉ used →
         (∀ j, (j < k)%nat → String (ascii_of_nat (65 + j)) EmptyString ∈ used) →
         label = String (ascii_of_nat (65 + k)) EmptyString)
    ∧ ((∃ k, (k < 26)%nat ∧ String (ascii_of_nat (65 + k)) EmptyString ∉ used) →
         label ∉ used)
    ∧ ((∀ k, (k < 26)%nat → String (ascii_of_nat (65 + k)) EmptyString ∈ used) →
         label = "S" +:+ pretty (length topLevel + 1)%nat).
Proof.
  intros ms topLevel used st'.
  exists (nextTopLevelLabel ms inverterIndex).
  split; [reflexivity|]. split; [reflexivity|].
  unfold nextTopLevelLabel. cbv zeta. fold topLevel. fold used.
  destruct (list_find _ _) as [[i letter]|] eqn:E.
  - apply list_find_Some in E as (Hi & Hfree & Hfirst).
    rewrite letters_lookup in Hi.
    assert (i < 26)%nat as Hi26.
    { destruct (decide (i < 26)%nat); [done|]. rewrite letterAt_beyond in Hi by lia. done. }
    rewrite letterAt_letter in Hi by done. injection Hi as <-.
    split; [|split].
    + intros k Hk Hfreek Hbefore.
      destruct (Nat.lt_trichotomy i k) as [Hlt|[->|Hgt]]; [|done|].
      * by destruct (Hfree (Hbefore i Hlt)).
      * exfalso. apply (Hfirst k (String (ascii_of_nat (65 + k)) EmptyString)); [|done|done].
        by rewrite letters_lookup, letterAt_letter.
    + intros _. exact Hfree.
    + intros Hall. by destruct (Hfree (Hall i Hi26)).
  - apply list_find_None in E. split; [|split].
    + intros k Hk Hfreek _. exfalso.
      rewrite Forall_forall in E.
      apply (E (String (ascii_of_nat (65 + k)) EmptyString)); [|done].
      apply list_elem_of_lookup. exists k. by rewrite letters_lookup, letterAt_letter.
    + intros (k & Hk & Hfreek). exfalso.
      rewrite Forall_forall in E.
      apply (E (String (ascii_of_nat (65 + k)) EmptyString)); [|done].
      apply list_elem_of_lookup. exists k. by rewrite letters_lookup, letterAt_letter.
    + intros _. reflexivity.
Qed.

(** *** Marking a section *)

Lemma stripPrefix_Some p : ∀ s rest, stripPrefix p s = Some rest ↔ s = p +:+ rest.
Proof.
  induction p as [|a p IH]; intros s rest; simpl.
  - split; [by intros [= ->]|by intros ->].
  - destruct s as [|b s].
    + split; [done|]. intros H. discriminate H.
    + case_decide as Hab.
      * subst b. rewrite IH. split; [intros ->; done|]. intros H. by injection H.
      * split; [done|]. intros H. injection H as -> _. done.
Qed.

Lemma string_append_assoc (a b c : string) : (a +:+ b) +:+ c = a +:+ b +:+ c.
Proof.
  induction a as [|x a IH]; [done|].
  change (String x ((a +:+ b) +:+ c) = String x (a +:+ b +:+ c)). by f_equal.
Qed.

Lemma startsWith_true s p : startsWith s p = true ↔ ∃ rest, s = p +:+ rest.
Proof.
  unfold startsWith. rewrite bool_decide_eq_true. split.
  - intros [rest Hrest]. exists rest. by apply stripPrefix_Some.
  - intros [rest Hrest]. exists rest. by apply stripPrefix_Some.
Qed.

(** X9.  [markSectionAllOk] sets the status to the OK mark on exactly the
    checklist items whose code begins with the section code followed by a
    dot and whose status is empty.  An item that has a status keeps it, an
    item of another section is untouched (section 1 does not reach 10.2),
    the order and the number of items stay, nothing else of the report
    changes, and marking a second time changes nothing. *)
Theorem markSectionAllOk_effect code st :
  let st' := markSectionAllOk code st in
  markSectionAllOk code st' = st'
  ∧ length (checklist (inspection st')) = length (checklist (inspection st))
  ∧ (∀ i c, checklist (inspection st) !! i = Some c →
       ((∃ rest, sectionCode c = code +:+ "." +:+ rest) → item_status c = "" →
          checklist (inspection st') !! i =
            Some {| sectionCode := sectionCode c; description := description c;
                    item_status := "תקין"; item_notes := item_notes c |})
       ∧ ((¬ ∃ rest, sectionCode c = code +:+ "." +:+ rest) ∨ item_status c ≠ "" →
          checklist (inspection st') !! i = Some c))
  ∧ reportName st' = reportName st ∧ drawn st' = drawn st
  ∧ meta (inspection st') = meta (inspection st)
  ∧ inverterConfigs (inspection st') = inverterConfigs (inspection st)
  ∧ dcMeasurements (inspection st') = dcMeasurements (inspection st)
  ∧ acMeasurements (inspection st') = acMeasurements (inspection st)
  ∧ inverterSerials (inspection st') = inverterSerials (inspection st)
  ∧ defects (inspection st') = defects (inspection st).
Proof.
  intros st'. split; [|split; [|split; [|done]]].
  - unfold st', markSectionAllOk, withInspection, withChecklist. cbn.
    f_equal. f_equal. rewrite <-list_fmap_compose. apply list_fmap_ext.
    intros i c _. cbn.
    destruct (startsWith (sectionCode c) (code +:+ ".") && negb (truthy (item_status c)))
      eqn:E; [|by rewrite E].
    cbn. apply andb_true_iff in E as [-> _]. done.
  - unfold st', markSectionAllOk. cbn. by rewrite length_fmap.
  - intros i c Hi. unfold st', markSectionAllOk. cbn.
    rewrite list_lookup_fmap, Hi. cbn. split.
    + intros Hin Hempty.
      assert (startsWith (sectionCode c) (code +:+ ".") = true) as ->.
      { apply startsWith_true. destruct Hin as [rest Hrest]. exists rest.
        rewrite Hrest. by rewrite string_append_assoc. }
      rewrite Hempty. done.
    + intros [Hout|Hset].
      * assert (startsWith (sectionCode c) (code +:+ ".") = false) as ->; [|done].
        apply not_true_is_false. intros [rest Hrest]%startsWith_true. apply Hout.
        exists rest. rewrite Hrest. by rewrite string_append_assoc.
      * apply truthy_true in Hset. rewrite Hset. by rewrite andb_false_r.
Qed.

(** ** The manual defects *)

(** X10.  Editing the manual defects by position.  [duplicateDefect] puts a
    copy right after the defect at a valid position, and removing that copy
    gives the report back; at a negative position or one past the end it
    does nothing.  [removeDefect] removes the defect at a valid position and
    nothing at a position past the end; a negative position counts from the
    end of the list, as [splice] has it, and one that reaches before the
    start removes the first defect. *)
Theorem defect_list_edits st :
  let l := defects (inspection st) in
  (∀ i d, l !! i = Some d →
     defects (inspection (duplicateDefect (Z.of_nat i) st)) = take (S i) l ++ d :: drop (S i) l
     ∧ defects (inspection (removeDefect (Z.of_nat i) st)) = take i l ++ drop (S i) l
     ∧ removeDefect (Z.of_nat i + 1) (duplicateDefect (Z.of_nat i) st) = st)
  ∧ (∀ index, (Z.of_nat (length l) ≤ index)%Z →
       defects (inspection (removeDefect index st)) = l ∧ duplicateDefect index st = st)
  ∧ (∀ index, (index < 0)%Z → duplicateDefect index st = st)
  ∧ (∀ k, (1 ≤ k ≤ length l)%nat →
       defects (inspection (removeDefect (- Z.of_nat k) st)) =
         take (length l - k) l ++ drop (S (length l - k)) l)
  ∧ (∀ index, (index < - Z.of_nat (length l))%Z →
       defects (inspection (removeDefect index st)) = drop 1 l).
Proof.
  intros l. split; [|split; [|split; [|split]]].
  - intros i d Hi. pose proof (lookup_lt_Some _ _ _ Hi) as Hlt.
    assert (defects (inspection (duplicateDefect (Z.of_nat i) st))
            = take (S i) l ++ d :: drop (S i) l) as Hdup.
    { unfold duplicateDefect. cbv zeta. fold l.
      rewrite (proj2 (Z.ltb_ge _ _)) by lia. rewrite Nat2Z.id, Hi. cbn.
      unfold spliceStart. rewrite (proj2 (Z.ltb_ge _ _)) by lia.
      replace (Nat.min (Z.to_nat (Z.of_nat i + 1)) (length l)) with (S i) by lia. done. }
    split; [exact Hdup|]. split.
    + unfold removeDefect. cbv zeta. fold l. cbn. unfold spliceStart.
      rewrite (proj2 (Z.ltb_ge _ _)) by lia.
      replace (Nat.min (Z.to_nat (Z.of_nat i)) (length l)) with i by lia. done.
    + unfold removeDefect at 1. cbv zeta. rewrite Hdup.
      unfold spliceStart. rewrite (proj2 (Z.ltb_ge _ _)) by lia.
      rewrite length_app, length_take. cbn [length]. rewrite length_drop.
      replace (Nat.min (Z.to_nat (Z.of_nat i + 1)) (S i `min` length l + S (length l - S i)))
        with (S i) by lia.
      rewrite take_app_length' by (rewrite length_take; lia).
      replace (S (S i)) with (length (take (S i) l) + 1)%nat by (rewrite length_take; lia).
      rewrite drop_app_add'; [|done]. cbn [drop]. rewrite drop_0, take_drop.
      unfold duplicateDefect. cbv zeta. fold l.
      rewrite (proj2 (Z.ltb_ge _ _)) by lia. rewrite Nat2Z.id, Hi.
      subst l. destruct st as [name [] n]. reflexivity.
  - intros index Hindex. split.
    + unfold removeDefect. cbv zeta. fold l. cbn. unfold spliceStart.
      rewrite (proj2 (Z.ltb_ge _ _)) by lia.
      replace (Nat.min (Z.to_nat index) (length l)) with (length l) by lia.
      rewrite take_ge, drop_ge by lia. by rewrite app_nil_r.
    + unfold duplicateDefect. cbv zeta. fold l.
      rewrite (proj2 (Z.ltb_ge _ _)) by lia.
      rewrite lookup_ge_None_2 by lia. done.
  - intros index Hindex. unfold duplicateDefect. cbv zeta.
    by rewrite (proj2 (Z.ltb_lt _ _)) by lia.
  - intros k Hk. unfold removeDefect. cbv zeta. fold l. cbn. unfold spliceStart.
    rewrite (proj2 (Z.ltb_lt _ _)) by lia.
    replace (Z.to_nat (Z.max (Z.of_nat (length l) + - Z.of_nat k) 0)) with (length l - k)%nat
      by lia. done.
  - intros index Hindex. unfold removeDefect. cbv zeta. fold l. cbn. unfold spliceStart.
    rewrite (proj2 (Z.ltb_lt _ _)) by lia.
    replace (Z.to_nat (Z.max (Z.of_nat (length l) + index) 0)) with 0%nat by lia. done.
Qed.

(* ================================================================== *)
(** * The store and the exporter together *)
(* ================================================================== *)

(** ** The tree of measurements that are all top-level *)

Lemma filter_all {A} (P : A → Prop) `{!∀ x, Decision (P x)} (l : list A) :
  (∀ x, x ∈ l → P x) → filter P l = l.
Proof.
  induction l as [|x l IH]; intros Hall; [done|].
  rewrite filter_cons_True by (apply Hall; left). f_equal. apply IH.
  intros y Hy. apply Hall. by right.
Qed.

Lemma filter_none {A} (P : A → Prop) `{!∀ x, Decision (P x)} (l : list A) :
  (∀ x, x ∈ l → ¬ P x) → filter P l = [].
Proof.
  induction l as [|x l IH]; intros Hall; [done|].
  rewrite filter_cons_False by (apply Hall; left). apply IH.
  intros y Hy. apply Hall. by right.
Qed.

Lemma walk_leaf fuel (l : list DcStringMeasurement) id depth result :
  (∀ m, m ∈ l → dc_parentId m = None) →
  walk (S fuel) l (Some id) depth result = Some result.
Proof.
  intros Hroots. rewrite walk_S.
  replace (childrenOf l (Some id)) with (@nil DcStringMeasurement); [done|].
  symmetry. apply filter_none. intros m Hm. rewrite (Hroots m Hm). done.
Qed.

Lemma walk_roots fuel (l : list DcStringMeasurement) :
  (∀ m, m ∈ l → dc_parentId m = None) →
  (l = [] ∨ (1 ≤ fuel)%nat) →
  walk (S fuel) l None 0 [] = Some ((λ m, {| measurement := m; depth := 0 |}) <$> l).
Proof.
  intros Hroots Hfuel. rewrite walk_S.
  assert (childrenOf l None = l) as ->.
  { unfold childrenOf. apply filter_all. intros m Hm. by apply Hroots. }
  destruct Hfuel as [->|Hfuel]; [done|].
  destruct fuel as [|fuel]; [lia|].
  assert (∀ (cs : list DcStringMeasurement) result,
    foldl (λ acc m, result ← acc;
             walk (S fuel) l (Some (dc_id m)) 1
                  (result ++ [{| measurement := m; depth := 0 |}])) (Some result) cs
    = Some (result ++ ((λ m, {| measurement := m; depth := 0 |}) <$> cs))) as Hfold.
  { induction cs as [|c cs IH]; intros result; cbn [foldl].
    - by rewrite app_nil_r.
    - cbn [mbind option_bind]. rewrite walk_leaf by done. rewrite IH.
      by rewrite <-app_assoc. }
  by rewrite Hfold.
Qed.

Lemma getOrderedDcTree_roots measurements inverterIndex :
  (∀ m, m ∈ measurements → dc_parentId m = None) →
  getOrderedDcTree measurements inverterIndex =
    Some ((λ m, {| measurement := m; depth := 0 |})
            <$> filter (λ m, dc_inverterIndex m = inverterIndex) measurements).
Proof.
  intros Hroots. unfold getOrderedDcTree, getOrderedDcTreeFuel. cbv zeta.
  apply walk_roots.
  - intros m [_ Hm]%list_elem_of_filter. by apply Hroots.
  - destruct measurements as [|m ms]; [by left|]. right. simpl. lia.
Qed.

Section Generated.

Variable randomUUID : nat → string.

Lemma generateStrings_filter next inv k :
  filter (λ m, dc_inverterIndex m = k) (generateStrings randomUUID next inv) =
  if decide (cfg_index inv = k) then generateStrings randomUUID next inv else [].
Proof.
  unfold generateStrings. case_decide as Hk.
  - apply filter_all. intros m (i & -> & _)%list_elem_of_fmap. done.
  - apply filter_none. intros m (i & -> & _)%list_elem_of_fmap. done.
Qed.

Lemma generateStrings_labels next inv :
  dc_stringLabel <$> generateStrings randomUUID next inv
  = rootLabel <$> seq 0 (cfg_stringCount inv).
Proof. unfold generateStrings. by rewrite <-list_fmap_compose. Qed.

Lemma generated_filter_labels (configs : list InverterConfig) : ∀ next k,
  dc_stringLabel <$> filter (λ m, dc_inverterIndex m = k)
                       (generateDcMeasurements randomUUID next configs)
  = configs ≫= (λ c, if decide (cfg_index c = k)
                     then rootLabel <$> seq 0 (cfg_stringCount c) else []).
Proof.
  induction configs as [|c configs IH]; intros next k; [done|].
  cbn [generateDcMeasurements]. rewrite filter_app, fmap_app, IH, generateStrings_filter.
  cbn [mbind list_bind]. f_equal.
  case_decide; [apply generateStrings_labels|done].
Qed.

Lemma bind_single (configs : list InverterConfig) (g : InverterConfig → list string) :
  NoDup (cfg_index <$> configs) →
  ∀ c, c ∈ configs →
  configs ≫= (λ c', if decide (cfg_index c' = cfg_index c) then g c' else []) = g c.
Proof.
  induction configs as [|c0 configs IH]; intros Hnd c Hc; [by apply elem_of_nil in Hc|].
  cbn [fmap list_fmap] in Hnd. apply NoDup_cons in Hnd as [Hfresh Hnd].
  cbn [mbind list_bind]. apply elem_of_cons in Hc as [->|Hc].
  - rewrite decide_True by done.
    replace (configs ≫= _) with (@nil string); [by rewrite app_nil_r|].
    symmetry. clear IH Hnd. induction configs as [|c1 configs IH]; [done|].
    cbn [mbind list_bind]. rewrite decide_False.
    + apply IH. intros Hin. apply Hfresh. cbn. by right.
    + intros E. apply Hfresh. cbn. rewrite <-E. left.
  - rewrite decide_False.
    + by apply IH.
    + intros E. apply Hfresh. rewrite E. by apply list_elem_of_fmap_2.
Qed.

End Generated.

(** ** The DC sheet after a configuration *)

Section GeneratedSheet.

Variable randomUUID : nat → string.

Lemma dcBlocks_generated inspection next (all : list InverterConfig) :
  dcMeasurements inspection = generateDcMeasurements randomUUID next all →
  NoDup (cfg_index <$> all) →
  ∀ configs, (∀ c, c ∈ configs → c ∈ all) →
  ∃ rows, dcBlocks inspection configs = Some rows
          ∧ dcRowKey <$> rows =
              configs ≫= (λ c, inl (cfg_index c)
                               :: (inr <$> (rootLabel <$> seq 0 (cfg_stringCount c))))
          ∧ length rows = (length configs + stringTotal configs)%nat.
Proof.
  intros Hms Hnd. induction configs as [|c configs IH]; intros Hsub.
  { exists []. done. }
  destruct IH as (rows & Hrows & Hkeys & Hlen).
  { intros c' Hc'. apply Hsub. by right. }
  cbn [dcBlocks]. rewrite getOrderedDcTree_roots.
  2:{ rewrite Hms. intros m Hm.
      pose proof (generateDcMeasurements_blank randomUUID next all) as Hblank.
      rewrite Forall_forall in Hblank. by destruct (Hblank m Hm) as [? _]. }
  cbn [mbind option_bind]. rewrite Hrows. cbn [mbind option_bind].
  eexists. split; [reflexivity|].
  assert (dc_stringLabel <$> filter (λ m, dc_inverterIndex m = cfg_index c)
                               (dcMeasurements inspection)
          = rootLabel <$> seq 0 (cfg_stringCount c)) as Hlabels.
  { rewrite Hms, generated_filter_labels.
    apply (bind_single all (λ c, rootLabel <$> seq 0 (cfg_stringCount c)) Hnd).
    apply Hsub. left. }
  split.
  - cbn [fmap list_fmap mbind list_bind dcRowKey app]. f_equal.
    rewrite fmap_app, Hkeys. f_equal.
    rewrite <-Hlabels, <-!list_fmap_compose. done.
  - cbn [length stringTotal foldr]. rewrite length_app, !length_fmap, Hlen.
    apply (f_equal length) in Hlabels. rewrite !length_fmap, length_seq in Hlabels.
    rewrite Hlabels. fold (stringTotal configs). lia.
Qed.

(** X12.  The DC sheet of a report right after [setInverterConfigs].  The
    export lists, from sheet row 2 on, for each inverter 1..count in order
    its header row and then one row per string, labelled in the order of
    generation (A, B, C, ...); the last row written is
    1 + count + the total number of strings. *)
Theorem setInverterConfigs_dc_sheet count defaultStrings st ws :
  let st' := setInverterConfigs randomUUID count defaultStrings st in
  let configs := inverterConfigs (inspection st') in
  ∃ rows ws',
    dcRows (inspection st') = Some rows
    ∧ dcRowKey <$> rows =
        configs ≫= (λ c, inl (cfg_index c)
                         :: (inr <$> (rootLabel <$> seq 0 (cfg_stringCount c))))
    ∧ fillDcSheet ws (inspection st') =
        Some (ws', (1 + Z.of_nat count + Z.of_nat (stringTotal configs))%Z)
    ∧ ∀ r c, getCell ws' r c =
             cellAfter (getCell ws r c) (rowAt rows 2 r ≫= λ row, dcRowValue row c).
Proof.
  intros st' configs.
  assert (length configs = count) as Hcount.
  { unfold configs, st', setInverterConfigs. cbn. by rewrite length_fmap, length_seq. }
  destruct (dcBlocks_generated (inspection st') (drawn st) configs) with (configs := configs)
    as (rows & Hrows & Hkeys & Hlen); [done| |done|].
  { unfold configs, st', setInverterConfigs. cbn. rewrite <-list_fmap_compose.
    apply NoDup_fmap_2; [|apply NoDup_seq]. intros i j Hij. cbn in Hij. lia. }
  pose proof (fillDcSheet_cells ws (inspection st')) as Hsheet.
  unfold dcRows in *. fold configs in Hsheet. rewrite Hrows in Hsheet.
  destruct Hsheet as (ws1 & Hrun & Hcells).
  exists rows, ws1. split; [done|]. split; [done|]. split; [|done].
  rewrite Hrun. f_equal. f_equal. lia.
Qed.

End GeneratedSheet.

(** Two inverters of two strings each. *)
Lemma setInverterConfigs_dc_sheet_example :
  let st' := setInverterConfigs Samples.uuid 2 2 Samples.emptyStore in
  (λ rows : list DcRow, dcRowKey <$> rows) <$> dcRows (inspection st') =
    Some [inl 1%Z; inr "A"; inr "B"; inl 2%Z; inr "A"; inr "B"].
Proof. vm_compute. reflexivity. Qed.
